(** * tcp-failover-proxy: a shallow embedding of [TCPFailoverProxy.js]

    The first half of the file is the embedding, in the order of the
    source:

    - the fragment of JavaScript the proxy relies on (module [Js]):
      values, numbers as doubles (their rounding, their comparisons and
      the decimal [ToString] makes of them), [typeof], [ToString],
      [ToBoolean], [parseInt], [String.prototype.split];
    - the store, with the arrays the program creates ([slice], [concat],
      [indexOf], indexed assignment) and the identity of objects;
    - the utility functions [isValidPort], [normalizeBackendHostObject],
      [normalizeBackendHostObjectArray];
    - [scanAndConnectToValidBackend] with its inner functions
      [triggerCallback] and [recursiveScan] and the closure it gives to
      [netSocketConnect], as an event-driven state machine, and the
      connector as its environment;
    - the class [TCPFailoverProxy]: [_processOptObject],
      [_rotateBackendList], [close], [_requestHandler],
      [_setupBackendRoute].

    The second half states and proves what the functions do.

    Arrays live in a store, addressed by reference, so that aliasing and
    in-place updates are visible.  Backend objects are never written
    after [normalizeBackendHostObject] returns them; they are records
    that carry their object identity ([oid]).  Strings are sequences of
    character codes below 256. *)

From Stdlib Require Import ZArith String Ascii Lia.
From stdpp Require Import base list gmap strings.

Open Scope Z_scope.

#[local] Set Warnings "-register-all".

(* ================================================================== *)
(** * JavaScript values and built-ins *)
(* ================================================================== *)

Module Js.

(** Numbers are the doubles: [NaN], the two infinities and the finite
    ones.  A finite double is a dyadic rational: an integer [Num z], or
    [Frac m e] for [m / 2^e], which is no integer when [m] is odd.  The
    two zeros are the one [Num 0]: the proxy compares numbers, prints
    them and tests their truth, and in none of these [+0] and [-0]
    differ.  The type is wider than the doubles (an integer of more than
    53 significant bits is none): [to_double] rounds to the nearest
    double where a number is printed, and [parseInt] returns doubles
    only. *)
Inductive number :=
| NaN
| Num (z : Z)
| Frac (m : Z) (e : positive)
| Infinity (negative : bool).

#[global] Instance number_eq_dec : EqDecision number.
Proof. solve_decision. Defined.

(** [a > b], [a <= b] on numbers: any comparison with [NaN] is false. *)
Definition gt (a b : number) : bool :=
  match a, b with
  | NaN, _ | _, NaN => false
  | Num x, Num y => y <? x
  | Num x, Frac m e => m <? x * 2 ^ Z.pos e
  | Frac m e, Num y => y * 2 ^ Z.pos e <? m
  | Frac m e, Frac m' e' => m' * 2 ^ Z.pos e <? m * 2 ^ Z.pos e'
  | Infinity x, Infinity y => negb x && y
  | Infinity x, _ => negb x
  | _, Infinity y => y
  end.

Definition le (a b : number) : bool :=
  match a, b with
  | NaN, _ | _, NaN => false
  | Num x, Num y => x <=? y
  | Num x, Frac m e => x * 2 ^ Z.pos e <=? m
  | Frac m e, Num y => m <=? y * 2 ^ Z.pos e
  | Frac m e, Frac m' e' => m * 2 ^ Z.pos e' <=? m' * 2 ^ Z.pos e
  | Infinity x, Infinity y => x || negb y
  | Infinity x, _ => x
  | _, Infinity y => negb y
  end.

(** Values.  An object has the two properties [host] and [port] and no
    other (no [length], no [toString] of its own); a property that is
    absent reads as [VUndefined].  [VStringObject] is a boxed
    [new String(s)]. *)
Inductive value :=
| VUndefined
| VNull
| VBool (b : bool)
| VNumber (n : number)
| VString (s : string)
| VStringObject (s : string)
| VObject (host port : value)
| VArray (elems : list value).

(** What a [throw] carries: the proxy throws plain strings; the engine
    throws [TypeError] (property read on [null]/[undefined]) and
    [ReferenceError] (unbound identifier). *)
Inductive thrown :=
| ThrowString (msg : string)
| TypeError (msg : string)
| ReferenceError (name : string).

#[global] Instance thrown_eq_dec : EqDecision thrown.
Proof. solve_decision. Defined.

(** ** Decimal rendering of integers *)

Definition digit_char (d : Z) : ascii :=
  ascii_of_nat (48 + Z.to_nat d).

(** Little-endian decimal digits of a non-negative integer; [fuel] bounds
    the number of digits. *)
Fixpoint le_digits (fuel : nat) (n : Z) : list Z :=
  match fuel with
  | O => []
  | S fuel' =>
      (n mod 10) :: (if n <? 10 then [] else le_digits fuel' (n / 10))
  end.

Definition digits_of (n : Z) : list Z :=
  rev (le_digits (S (Z.to_nat (Z.log2 n))) n).

Definition string_of_digits (ds : list Z) : string :=
  string_of_list_ascii (map digit_char ds).

(** ** Rounding to a double *)

(** [p / 2^k] rounded to the nearest integer, ties to even. *)
Definition round_shift (p k : Z) : Z :=
  if k <=? 0 then p * 2 ^ (- k)
  else
    let q := p / 2 ^ k in
    let r := p mod 2 ^ k in
    let half := 2 ^ (k - 1) in
    if (half <? r) || ((r =? half) && Z.odd q) then q + 1 else q.

(** The double nearest to [p * 2^sh], for [p > 0]: its significand
    (below 2^53) and its exponent (from -1074 to 971), or [None] when
    the nearest double is infinite. *)
Definition to_double (p sh : Z) : option (Z * Z) :=
  let ex := Z.max (Z.log2 p + sh - 52) (-1074) in
  let mant := round_shift p (ex - sh) in
  let '(mant, ex) :=
    if mant =? 9007199254740992 then (4503599627370496, ex + 1) else (mant, ex) in
  if 971 <? ex then None else Some (mant, ex).

(** The number value of an integer: itself below 2^53, where every
    integer is a double, the nearest double above. *)
Definition of_integer (z : Z) : number :=
  if Z.abs z <? 9007199254740992 then Num z
  else
    match to_double (Z.abs z) 0 with
    | Some (mant, ex) => Num (Z.sgn z * (mant * 2 ^ ex))
    | None => Infinity (z <? 0)
    end.

(** ** [Number::toString]: the shortest decimal that reads back *)

(** [a * 2^x] compared with [b * 10^y]. *)
Definition compare_scaled (a x b y : Z) : comparison :=
  (a * 2 ^ Z.max x 0 * 10 ^ Z.max (- y) 0
   ?= b * 10 ^ Z.max y 0 * 2 ^ Z.max (- x) 0).

(** Whether the decimal [s * 10^t] rounds to the double [mant * 2^ex]:
    it lies between the midpoints to the two neighbours, the midpoints
    themselves counting when the significand is even. *)
Definition rounds_to (mant ex s t : Z) : bool :=
  let low :=
    if (mant =? 4503599627370496) && (-1074 <? ex) then 4 * mant - 1
    else 4 * mant - 2 in
  let high := 4 * mant + 2 in
  match compare_scaled low (ex - 2) s t, compare_scaled high (ex - 2) s t with
  | Lt, Gt => true
  | Eq, Gt | Lt, Eq => Z.even mant
  | _, _ => false
  end.

(** The least [j] from [j] on with [den <= num * 10^j]. *)
Fixpoint scale_up (fuel : nat) (num den j : Z) : Z :=
  match fuel with
  | O => j
  | S fuel' => if den <=? num * 10 ^ j then j else scale_up fuel' num den (j + 1)
  end.

(** The [n] with [10^(n-1) <= mant * 2^ex < 10^n]. *)
Definition decimal_exponent (mant ex : Z) : Z :=
  if 0 <=? ex then Z.of_nat (length (digits_of (mant * 2 ^ ex)))
  else if 2 ^ (- ex) <=? mant then Z.of_nat (length (digits_of (mant / 2 ^ (- ex))))
  else 1 - scale_up 400 mant (2 ^ (- ex)) 1.

(** [mant * 2^ex / 10^t] as a fraction of two integers. *)
Definition scaled_num (mant ex t : Z) : Z :=
  mant * 2 ^ Z.max ex 0 * 10 ^ Z.max (- t) 0.

Definition scaled_den (ex t : Z) : Z :=
  2 ^ Z.max (- ex) 0 * 10 ^ Z.max t 0.

(** Of the decimals [s * 10^t] that round to the double [mant * 2^ex],
    the [s] nearest to it, the even one on a tie; [None] when there is
    none.  Only the two decimals around the double can be nearest. *)
Definition nearest_decimal (mant ex t : Z) : option Z :=
  let num := scaled_num mant ex t in
  let den := scaled_den ex t in
  let s := num / den in
  let below := num - s * den in
  let above := (s + 1) * den - num in
  match rounds_to mant ex s t, rounds_to mant ex (s + 1) t with
  | true, true =>
      Some (if below <? above then s
            else if above <? below then s + 1
            else if Z.even s then s else s + 1)
  | true, false => Some s
  | false, true => Some (s + 1)
  | false, false => None
  end.

(** The integers [n], [k], [s] of [Number::toString]: [k] as small as
    possible with [s * 10^(n-k)] rounding to the double, and of the
    [s] that do, the one nearest to it.  The search goes up from [k]
    digits. *)
Fixpoint shortest_from (fuel : nat) (mant ex n k : Z) : Z * Z :=
  match nearest_decimal mant ex (n - k), fuel with
  | Some s, _ => if s =? 10 ^ k then (10 ^ (k - 1), n + 1) else (s, n)
  | None, S fuel' => shortest_from fuel' mant ex n (k + 1)
  | None, O => (scaled_num mant ex (n - k) / scaled_den ex (n - k), n)
  end.

Definition shortest (mant ex : Z) : Z * Z :=
  shortest_from 20 mant ex (decimal_exponent mant ex) 1.

Definition zeros (n : Z) : list Z := repeat 0 (Z.to_nat n).

(** The digits [ds] of [s] laid out for the decimal exponent [n]:
    plain digits up to 21 of them, a decimal point inside or after at
    most six zeros, the exponent notation otherwise. *)
Definition format_digits (ds : list Z) (n : Z) : string :=
  let k := Z.of_nat (length ds) in
  if (k <=? n) && (n <=? 21) then string_of_digits (ds ++ zeros (n - k))
  else if (0 <? n) && (n <=? 21) then
    string_of_digits (take (Z.to_nat n) ds) +:+ "."
    +:+ string_of_digits (drop (Z.to_nat n) ds)
  else if (-6 <? n) && (n <=? 0) then
    "0." +:+ string_of_digits (zeros (- n) ++ ds)
  else
    let exponent :=
      (if n - 1 <? 0 then "e-" else "e+")
      +:+ string_of_digits (digits_of (Z.abs (n - 1))) in
    match ds with
    | [] => ""
    | [d] => string_of_digits [d] +:+ exponent
    | d :: more =>
        string_of_digits [d] +:+ "." +:+ string_of_digits more +:+ exponent
    end.

(** The rendering of [p * 2^sh], for [p > 0]. *)
Definition positive_to_string (p sh : Z) : string :=
  match to_double p sh with
  | None => "Infinity"
  | Some (mant, ex) =>
      if mant =? 0 then "0"
      else let '(s, n) := shortest mant ex in format_digits (digits_of s) n
  end.

Definition signed (negative : bool) (s : string) : string :=
  if negative then "-" +:+ s else s.

(** [ToString] of a number.  Below 2^53 an integer is the only decimal
    without a fraction that rounds to it, and its rendering is its
    decimal expansion. *)
Definition number_to_string (n : number) : string :=
  match n with
  | NaN => "NaN"
  | Infinity negative => signed negative "Infinity"
  | Num z =>
      if Z.abs z <? 9007199254740992 then
        if z <? 0 then "-" +:+ string_of_digits (digits_of (- z))
        else string_of_digits (digits_of z)
      else signed (z <? 0) (positive_to_string (Z.abs z) 0)
  | Frac m e =>
      if m =? 0 then "0"
      else signed (m <? 0) (positive_to_string (Z.abs m) (- Z.pos e))
  end.

(** ** [typeof], [ToString], [ToBoolean], [== null] *)

Definition typeof (v : value) : string :=
  match v with
  | VUndefined => "undefined"
  | VNull => "object"
  | VBool _ => "boolean"
  | VNumber _ => "number"
  | VString _ => "string"
  | VStringObject _ | VObject _ _ | VArray _ => "object"
  end.

(** [v == null] (loose equality): true of [null] and [undefined] only. *)
Definition eq_null (v : value) : bool :=
  match v with
  | VUndefined | VNull => true
  | _ => false
  end.

Fixpoint ToString (v : value) : string :=
  match v with
  | VUndefined => "undefined"
  | VNull => "null"
  | VBool true => "true"
  | VBool false => "false"
  | VNumber n => number_to_string n
  | VString s | VStringObject s => s
  | VObject _ _ => "[object Object]"
  | VArray elems =>
      (* Array.prototype.join(","): null and undefined render empty *)
      (fix join (l : list value) : string :=
         match l with
         | [] => ""
         | x :: rest =>
             (if eq_null x then "" else ToString x)
             +:+ match rest with
                 | [] => ""
                 | _ :: _ => "," +:+ join rest
                 end
         end) elems
  end.

Definition ToBoolean (v : value) : bool :=
  match v with
  | VUndefined | VNull => false
  | VBool b => b
  | VNumber NaN => false
  | VNumber (Num z) | VNumber (Frac z _) => negb (z =? 0)
  | VNumber (Infinity _) => true
  | VString s => negb (String.eqb s "")
  | VStringObject _ | VObject _ _ | VArray _ => true
  end.

(** [a || b] *)
Definition or_else (a b : value) : value :=
  if ToBoolean a then a else b.

(** ** Property reads *)

Definition get_host (v : value) : thrown + value :=
  match v with
  | VUndefined | VNull =>
      inl (TypeError "Cannot read properties of null or undefined (reading 'host')")
  | VObject h _ => inr h
  | _ => inr VUndefined
  end.

Definition get_port (v : value) : thrown + value :=
  match v with
  | VUndefined | VNull =>
      inl (TypeError "Cannot read properties of null or undefined (reading 'port')")
  | VObject _ p => inr p
  | _ => inr VUndefined
  end.

(** [ToNumber(v.length)] for a [v] that is neither [null] nor
    [undefined]: strings and arrays have a length, on anything else the
    property is [undefined], whose numeric value is [NaN]. *)
Definition length_number (v : value) : number :=
  match v with
  | VString s | VStringObject s => Num (Z.of_nat (String.length s))
  | VArray elems => Num (Z.of_nat (length elems))
  | _ => NaN
  end.

(** ** [String.prototype.split] with a one-character separator *)

Fixpoint split_go (sep : ascii) (cur : string) (s : string) : list string :=
  match s with
  | EmptyString => [cur]
  | String c s' =>
      if Ascii.eqb c sep then cur :: split_go sep EmptyString s'
      else split_go sep (cur +:+ String c EmptyString) s'
  end.

Definition split (sep : ascii) (s : string) : list string :=
  split_go sep EmptyString s.

(** [arr[i]] on an array of strings. *)
Definition string_at (l : list string) (i : nat) : value :=
  match l !! i with
  | Some s => VString s
  | None => VUndefined
  end.

(** ** [parseInt(v)] with no radix argument *)

Definition is_whitespace (c : ascii) : bool :=
  let n := nat_of_ascii c in
  ((9 <=? n) && (n <=? 13) || (n =? 32) || (n =? 160))%nat.

Fixpoint trim_start (s : string) : string :=
  match s with
  | String c s' => if is_whitespace c then trim_start s' else s
  | EmptyString => s
  end.

(** Value of a character as a digit in any radix up to 36. *)
Definition digit_value (c : ascii) : option Z :=
  let n := Z.of_nat (nat_of_ascii c) in
  if (48 <=? n) && (n <=? 57) then Some (n - 48)
  else if (97 <=? n) && (n <=? 122) then Some (n - 87)
  else if (65 <=? n) && (n <=? 90) then Some (n - 55)
  else None.

(** The digits of the longest prefix of [s] made of radix-[R] digits. *)
Fixpoint digit_prefix (R : Z) (s : string) : list Z :=
  match s with
  | EmptyString => []
  | String c s' =>
      match digit_value c with
      | Some d => if d <? R then d :: digit_prefix R s' else []
      | None => []
      end
  end.

Definition horner (R : Z) (ds : list Z) : Z :=
  fold_left (fun acc d => acc * R + d) ds 0.

(** The digits read, as a number: the double nearest to the integer
    they spell. *)
Definition parse_digits (R : Z) (s : string) : number :=
  match digit_prefix R s with
  | [] => NaN
  | ds => of_integer (horner R ds)
  end.

Definition negate (n : number) : number :=
  match n with
  | NaN => NaN
  | Num z => Num (- z)
  | Frac m e => Frac (- m) e
  | Infinity negative => Infinity (negb negative)
  end.

(** Without a radix argument a leading [0x] or [0X] selects radix 16. *)
Definition has_hex_prefix (s : string) : bool :=
  match s with
  | String c1 (String c2 _) =>
      Ascii.eqb c1 "0" && (Ascii.eqb c2 "x" || Ascii.eqb c2 "X")
  | _ => false
  end.

Definition parse_unsigned (s : string) : number :=
  match s with
  | String _ (String _ s') =>
      if has_hex_prefix s then parse_digits 16 s' else parse_digits 10 s
  | _ => parse_digits 10 s
  end.

Definition parse_signed (s : string) : number :=
  match s with
  | String c s' =>
      if Ascii.eqb c "-" then negate (parse_unsigned s')
      else if Ascii.eqb c "+" then parse_unsigned s'
      else parse_unsigned s
  | EmptyString => NaN
  end.

Definition parseInt (v : value) : number :=
  parse_signed (trim_start (ToString v)).

End Js.

Import Js.

(* ================================================================== *)
(** * The store: arrays by reference, object identities *)
(* ================================================================== *)

(** A normalized backend, the object [normalizeBackendHostObject]
    returns.  [oid] is the identity of the object: [===] on two backend
    objects compares it. *)
Record Backend := {
  oid : nat;
  host : value;
  port : number;
  _fullString : string
}.

#[global] Instance value_eq_dec : EqDecision value.
Proof.
  refine (fix go (x y : value) {struct x} : Decision (x = y) :=
    match x, y with
    | VUndefined, VUndefined | VNull, VNull => left _
    | VBool a, VBool b => cast_if (decide (a = b))
    | VNumber a, VNumber b => cast_if (decide (a = b))
    | VString a, VString b => cast_if (decide (a = b))
    | VStringObject a, VStringObject b => cast_if (decide (a = b))
    | VObject h p, VObject h' p' => cast_if_and (go h h') (go p p')
    | VArray l, VArray l' =>
        cast_if ((fix gol (l l' : list value) : Decision (l = l') :=
           match l, l' with
           | [], [] => left _
           | a :: l, b :: l' => cast_if_and (go a b) (gol l l')
           | _, _ => right _
           end) l l')
    | _, _ => right _
    end); clear go; try clear gol; abstract congruence.
Defined.

#[global] Instance Backend_eq_dec : EqDecision Backend.
Proof. solve_decision. Defined.

(** [a === b] on backend objects: same object. *)
Definition same_object (a b : Backend) : bool :=
  bool_decide (oid a = oid b).

(** An array slot holds a backend object, or nothing ([null],
    [undefined] or a hole). *)
Abbreviation slot := (option Backend).

Abbreviation ref := nat (only parsing).

Record store := {
  arrays : gmap nat (list slot);
  next_oid : nat
}.

(** The elements of the array at [r]. *)
Definition contents (s : store) (r : ref) : list slot :=
  default [] (arrays s !! r).

Definition allocated (s : store) (r : ref) : Prop :=
  is_Some (arrays s !! r).

(** ** Computations: a store threaded through, and [throw] *)

Definition M (A : Type) : Type := store -> (thrown + A) * store.

Definition ret {A} (a : A) : M A := fun s => (inr a, s).

Definition throw {A} (e : thrown) : M A := fun s => (inl e, s).

Definition bind {A B} (m : M A) (k : A -> M B) : M B :=
  fun s =>
    match m s with
    | (inr a, s') => k a s'
    | (inl e, s') => (inl e, s')
    end.

Notation "'let*' x ':=' m 'in' k" := (bind m (fun x => k))
  (at level 10, x name, m at level 100, k at level 200).
Notation "'do' m 'in' k" := (bind m (fun _ => k))
  (at level 10, m at level 100, k at level 200).

(** A pure step that may throw. *)
Definition lift {A} (r : thrown + A) : M A :=
  match r with
  | inl e => throw e
  | inr a => ret a
  end.

(** [new Array] with the given elements: a reference no array has yet. *)
Definition new_array (l : list slot) : M ref := fun s =>
  let r := fresh (dom (arrays s)) in
  (inr r, {| arrays := <[r := l]> (arrays s); next_oid := next_oid s |}).

(** An object literal [{host: h, port: p}] completed by [_fullString]. *)
Definition new_backend (h : value) (p : number) (full : string) : M Backend := fun s =>
  (inr {| oid := next_oid s; host := h; port := p; _fullString := full |},
   {| arrays := arrays s; next_oid := S (next_oid s) |}).

(** [arr[i] = x] on a list: inside the array the slot is overwritten,
    past its end the array grows and the slots skipped are holes. *)
Definition list_set (l : list slot) (i : nat) (x : slot) : list slot :=
  if (i <? length l)%nat then <[i := x]> l
  else l ++ replicate (i - length l) None ++ [x].

Definition array_set (r : ref) (i : nat) (x : slot) : M unit := fun s =>
  (inr tt, {| arrays := <[r := list_set (contents s r) i x]> (arrays s);
              next_oid := next_oid s |}).

(** [arr.slice(from, to)] and [a.concat(b)]: each allocates its result. *)
Definition slice (r : ref) (from to : nat) : M ref := fun s =>
  new_array (take (to - from) (drop from (contents s r))) s.

Definition slice_from (r : ref) (from : nat) : M ref := fun s =>
  new_array (drop from (contents s r)) s.

Definition concat (a b : ref) : M ref := fun s =>
  new_array (contents s a ++ contents s b) s.

(** [arr.indexOf(x)] for a backend object [x]: the first index whose
    element is the same object, or -1. *)
Fixpoint index_from (i : Z) (l : list slot) (x : Backend) : Z :=
  match l with
  | [] => -1
  | Some y :: l' => if same_object y x then i else index_from (i + 1) l' x
  | None :: l' => index_from (i + 1) l' x
  end.

Definition indexOf (l : list slot) (x : Backend) : Z := index_from 0 l x.

(* ================================================================== *)
(** * Utility functions *)
(* ================================================================== *)

(** [port > 0 && port <= 65535] *)
Definition isValidPort (port : number) : bool :=
  gt port (Num 0) && le port (Num 65535).

(** [typeof backend == "string" || backend instanceof String] *)
Definition is_string (v : value) : bool :=
  match v with
  | VString _ | VStringObject _ => true
  | _ => false
  end.

(** The part of [normalizeBackendHostObject] before the result object
    gets its identity: the three properties of the result, or what is
    thrown. *)
Definition normalizeBackendHostFields (backend : value)
  : thrown + (value * number * string) :=
  (* Process the host string *)
  let backend :=
    if is_string backend then
      let split := split ":" (ToString backend) in
      VObject (string_at split 0) (VNumber (parseInt (string_at split 1)))
    else backend in
  (* Throw if its not an object *)
  if negb (String.eqb (typeof backend) "object") then
    inl (ThrowString ("Unknown backend type: " +:+ ToString backend))
  else
    (* Clone it, host and port as string and int *)
    match get_host backend, get_port backend with
    | inl e, _ | _, inl e => inl e
    | inr h, inr p =>
        let host := if negb (eq_null h) then h else VString "" in
        let port := parseInt p in
        (* Normalize as a full string *)
        let full := ToString host +:+ ":" +:+ ToString (VNumber port) in
        (* check the host and port is valid format *)
        if le (length_number host) (Num 0) then
          inl (ThrowString "Missing host string given for backend")
        else if negb (isValidPort port) then
          inl (ThrowString ("Invalid backend port setting: " +:+ full))
        else inr (host, port, full)
    end.

Definition normalizeBackendHostObject (backend : value) : M Backend :=
  let* f := lift (normalizeBackendHostFields backend) in
  let '(h, p, full) := f in
  new_backend h p full.

(** [arr[i]] on an array of values. *)
Definition value_at (l : list value) (i : nat) : value :=
  default VUndefined (l !! i).

(** The loop [for (let i = n - 1; i >= 0; --i) ret[i] = normalize(arr[i])],
    entered with [n] iterations left (so [i = n - 1]). *)
Fixpoint normalize_loop (arr : list value) (ret_ : ref) (n : nat) : M unit :=
  match n with
  | O => ret tt
  | S i =>
      let* b := normalizeBackendHostObject (value_at arr i) in
      do array_set ret_ i (Some b) in
      normalize_loop arr ret_ i
  end.

(** The body of [normalizeBackendHostObjectArray]; [self] is the function
    itself, for the recursive call on a non-array. *)
Definition normalizeBackendHostObjectArray_body
    (self : value -> M ref) (backendArr : value) : M ref :=
  (* Throw if null / empty *)
  if eq_null backendArr || le (length_number backendArr) (Num 0) then
    throw (ThrowString ("Missing backend array configuration: " +:+ ToString backendArr))
  else
    match backendArr with
    | VArray arr =>
        (* Process the array *)
        let* r := new_array [] in
        do normalize_loop arr r (length arr) in
        ret r
    | _ =>
        (* Normalize as an array *)
        self (VArray [backendArr])
    end.

(** The recursive call is on a one-element array, which passes both
    guards, so two unfoldings of the body are the whole function (see
    [normalizeBackendHostObjectArray_fix]). *)
Definition normalizeBackendHostObjectArray : value -> M ref :=
  normalizeBackendHostObjectArray_body
    (normalizeBackendHostObjectArray_body
       (fun _ => throw (ThrowString "unreachable"))).

(* ================================================================== *)
(** * [scanAndConnectToValidBackend] *)
(* ================================================================== *)

(** A connection handle.  [handle] names the socket the connector made;
    [_backend] is the property the scan sets on it. *)
Record Socket := {
  handle : nat;
  _backend : slot
}.

(** The arguments of one call of the caller's callback:
    [callback(socket, error)], an absent argument being [None]. *)
Abbreviation callback_args := (option Socket * option string)%type.

(** The variables the closures of one scan share, and what the scan has
    done so far.  [callback] is false once the variable holds [null];
    [pending] are the connections asked of [netSocketConnect] whose
    answer has not come yet, each with the backend its closure captured;
    [connects] and [delivered] record the calls made to
    [netSocketConnect] and to the caller's callback, oldest first. *)
Record ScanState := {
  callback : bool;
  scanPos : nat;
  scanList : ref;
  pending : list Backend;
  connects : list Backend;
  delivered : list callback_args
}.

Definition set_callback (c : bool) (st : ScanState) : ScanState :=
  {| callback := c; scanPos := scanPos st; scanList := scanList st;
     pending := pending st; connects := connects st;
     delivered := delivered st |}.

Definition set_scanPos (p : nat) (st : ScanState) : ScanState :=
  {| callback := callback st; scanPos := p; scanList := scanList st;
     pending := pending st; connects := connects st;
     delivered := delivered st |}.

Definition set_pending (l : list Backend) (st : ScanState) : ScanState :=
  {| callback := callback st; scanPos := scanPos st; scanList := scanList st;
     pending := l; connects := connects st;
     delivered := delivered st |}.

Definition call_callback (a : callback_args) (st : ScanState) : ScanState :=
  {| callback := callback st; scanPos := scanPos st; scanList := scanList st;
     pending := pending st; connects := connects st;
     delivered := delivered st ++ [a] |}.

(** [netSocketConnect(backend.port, backend.host, closure, connectTimeout)]:
    the call returns at once; the closure waits in [pending]. *)
Definition netSocketConnect (backend : Backend) (st : ScanState) : ScanState :=
  {| callback := callback st; scanPos := scanPos st; scanList := scanList st;
     pending := pending st ++ [backend];
     connects := connects st ++ [backend];
     delivered := delivered st |}.

(** Callback to trigger, at most once. *)
Definition triggerCallback (socket : option Socket) (error : option string)
    (st : ScanState) : ScanState :=
  set_callback false
    (if callback st then call_callback (socket, error) st else st).

(** The message of exhaustion.  [scanPos] counts the slots of an array
    and one round more: it stays far below 2^53, where [ToString] is the
    decimal expansion (see [exhausted_message_number]). *)
Definition exhausted_message (tried : nat) : string :=
  "Unable to connect to a valid backend - tried "
  +:+ string_of_digits (digits_of (Z.of_nat tried)) +:+ " times".

(** [recursiveScan], up to the point where it returns: either it has
    triggered the callback, or it has asked for one connection.  [gas]
    bounds the depth of the recursion over empty slots; [None] is
    running out of it. *)
Fixpoint recursiveScan_gas (gas : nat) (s : store) (st : ScanState)
  : option ScanState :=
  match gas with
  | O => None
  | S gas' =>
      let list := contents s (scanList st) in
      (* Throw if scan list is empty *)
      if (length list <? scanPos st)%nat then
        Some (triggerCallback None (Some (exhausted_message (scanPos st))) st)
      else
        (* Get the backend *)
        let backend := mjoin (list !! scanPos st) in
        let st := set_scanPos (S (scanPos st)) st in
        match backend with
        | None =>
            (* Skip if backend is null *)
            recursiveScan_gas gas' s st
        | Some backend =>
            (* Attempts the connection *)
            Some (netSocketConnect backend st)
        end
  end.

(** Enough gas for any recursion from [st]: [scanPos] grows at each
    call and the recursion stops once it exceeds the length. *)
Definition scan_gas (s : store) (st : ScanState) : nat :=
  S (S (length (contents s (scanList st))) - scanPos st).

Definition recursiveScan (s : store) (st : ScanState) : option ScanState :=
  recursiveScan_gas (scan_gas s st) s st.

(** The closure given to [netSocketConnect], called with the
    connector's answer [(socket, err)] for [backend]. *)
Definition on_connect (s : store) (backend : Backend)
    (socket : option nat) (err : option string) (st : ScanState)
  : option ScanState :=
  match socket, err with
  | Some h, None =>
      (* Valid connection, tag the backend value, return it *)
      Some (triggerCallback (Some {| handle := h; _backend := Some backend |}) None st)
  | _, _ =>
      (* recursively process the next backend *)
      recursiveScan s st
  end.

(** [scanAndConnectToValidBackend(backendArr, callback)] up to its
    return: the snapshot [backendArr.slice(0)] and the first
    [recursiveScan()].  [callback] tells whether a function was passed.
    [connectTimeout] is only handed to the connector and [log] only
    chooses whether to print. *)
Definition scanAndConnectToValidBackend (backendArr : ref) (callback : bool)
  : M (option ScanState) :=
  let* scanList := slice_from backendArr 0 in
  fun s =>
    (inr (recursiveScan s
            {| callback := callback; scanPos := 0; scanList := scanList;
               pending := []; connects := []; delivered := [] |}), s).

(** ** The connector as environment *)

(** One answer of the connector: the closure of the pending attempt
    number [target] is called with [(socket, err)].  A well-behaved
    connector answers each attempt once ([final]); the guard in
    [triggerCallback] is there for one that calls a closure again. *)
Record Answer := {
  target : nat;
  socket : option nat;
  err : option string;
  final : bool
}.

Definition deliver (s : store) (a : Answer) (st : ScanState)
  : option ScanState :=
  match pending st !! target a with
  | None => Some st
  | Some backend =>
      on_connect s backend (socket a) (err a)
        (if final a then set_pending (delete (target a) (pending st)) st else st)
  end.

(** Any sequence of answers. *)
Fixpoint deliver_all (s : store) (answers : list Answer) (st : ScanState)
  : option ScanState :=
  match answers with
  | [] => Some st
  | a :: answers' =>
      match deliver s a st with
      | Some st' => deliver_all s answers' st'
      | None => None
      end
  end.

(** A connector that answers every attempt exactly once, as a function
    of the number of earlier attempts and of the backend asked for. *)
Definition Connector := nat -> Backend -> option nat * option string.

Fixpoint drive (net : Connector) (gas : nat) (s : store) (st : ScanState)
  : option ScanState :=
  match pending st with
  | [] => Some st
  | backend :: _ =>
      match gas with
      | O => None
      | S gas' =>
          let '(sock, e) := net (length (connects st) - 1)%nat backend in
          match deliver s {| target := 0; socket := sock; err := e; final := true |} st with
          | Some st' => drive net gas' s st'
          | None => None
          end
      end
  end.

(** A whole probe against the array [backendArr], run until no attempt
    is pending. *)
Definition probe (net : Connector) (backendArr : ref) : M (option ScanState) :=
  let* started := scanAndConnectToValidBackend backendArr true in
  fun s =>
    (inr (match started with
          | Some st => drive net (S (length (contents s (scanList st)))) s st
          | None => None
          end), s).

(* ================================================================== *)
(** * The class [TCPFailoverProxy] *)
(* ================================================================== *)

(** The option object given to the constructor, by property. *)
Record Options := {
  opt_port : value;
  opt_host : value;
  opt_backend : value;
  opt_log : value;
  opt_shuffle : value;
  opt_connectTimeout : value
}.

(** The properties of a proxy instance.  [_server] names the
    [net.Server] the instance holds, if any; [_backendList] is a
    reference to the current array of backends. *)
Record Proxy := {
  _server : option nat;
  _host : value;
  _port : value;
  _backendList : ref;
  _log : bool;
  _shuffle : bool;
  _connectTimeout : value
}.

Definition set_backendList (r : ref) (this : Proxy) : Proxy :=
  {| _server := _server this; _host := _host this; _port := _port this;
     _backendList := r; _log := _log this; _shuffle := _shuffle this;
     _connectTimeout := _connectTimeout this |}.

Definition set_server (srv : option nat) (this : Proxy) : Proxy :=
  {| _server := srv; _host := _host this; _port := _port this;
     _backendList := _backendList this; _log := _log this;
     _shuffle := _shuffle this; _connectTimeout := _connectTimeout this |}.

Section ProcessOptions.

(** [opt.port] reaches [isValidPort] as given, so its comparisons
    convert it with [ToNumber]; the conversion of a string to a number
    is taken as a parameter. *)
Variable StringToNumber : string -> number.

Definition ToNumber (v : value) : number :=
  match v with
  | VUndefined => NaN
  | VNull => Num 0
  | VBool b => Num (if b then 1 else 0)
  | VNumber n => n
  | VString s | VStringObject s => StringToNumber s
  | VObject _ _ => NaN
  | VArray _ => StringToNumber (ToString v)
  end.

Definition _processOptObject (opt : Options) : M Proxy :=
  (* normalize the server port *)
  let port := opt_port opt in
  if negb (isValidPort (ToNumber port)) then
    throw (ThrowString ("Invalid server port configured : " +:+ ToString port))
  else
    (* The server host, null means "any" *)
    let host := or_else (opt_host opt) VNull in
    (* backend listing *)
    let* backendList := normalizeBackendHostObjectArray (opt_backend opt) in
    (* verbosity *)
    let log := eq_null (opt_log opt) || ToBoolean (opt_log opt) in
    (* routing mode *)
    let shuffle := ToBoolean (opt_shuffle opt) in
    (* connect timeout *)
    let connectTimeout := or_else (opt_connectTimeout opt) (VNumber (Num 2500)) in
    (* Store the settings *)
    ret {| _server := None; _host := host; _port := port;
           _backendList := backendList; _log := log; _shuffle := shuffle;
           _connectTimeout := connectTimeout |}.

End ProcessOptions.

(** [_rotateBackendList(targetHost)] *)
Definition _rotateBackendList (this : Proxy) (targetHost : Backend) : M Proxy :=
  fun s =>
    (* Check if the host is in the list *)
    let targetIdx := indexOf (contents s (_backendList this)) targetHost in
    (* Skip, if the idx is not in the list or its the first element *)
    if targetIdx <=? 0 then (inr this, s)
    else
      (* Time to slice and shuffle, and save *)
      (let* failedArr := slice (_backendList this) 0 (Z.to_nat targetIdx) in
       let* targetArr := slice_from (_backendList this) (Z.to_nat targetIdx) in
       let* rotated := concat targetArr failedArr in
       ret (set_backendList rotated this)) s.

(** ** [close()] *)

(** What [close] can see of the world: the properties of the global
    object and the servers that are accepting connections. *)
Record World := {
  globalThis : gmap string value;
  listening : gset nat
}.

(** The identifier [callback] inside [close]: the method declares no
    parameter and no local of that name, and neither does the module, so
    the name resolves against the global object. *)
Definition resolve_global (w : World) (name : string) : thrown + value :=
  match globalThis w !! name with
  | Some v => inr v
  | None => inl (ReferenceError name)
  end.

(** [server.close(cb)]: the server stops accepting connections. *)
Definition server_close (srv : nat) (w : World) : World :=
  {| globalThis := globalThis w; listening := listening w ∖ {[ srv ]} |}.

(** [close()].  The argument of [this._server.close( callback )] is
    evaluated before the call is made.  No modelled value is a function:
    [callback()] on one that is truthy throws. *)
Definition close (this : Proxy) (w : World) : (thrown + unit) * Proxy * World :=
  match _server this with
  | Some srv =>
      match resolve_global w "callback" with
      | inl e => (inl e, this, w)
      | inr _ => (inr tt, set_server None this, server_close srv w)
      end
  | None =>
      match resolve_global w "callback" with
      | inl e => (inl e, this, w)
      | inr cb =>
          if ToBoolean cb then (inl (TypeError "callback is not a function"), this, w)
          else (inr tt, this, w)
      end
  end.

(** ** A probe in flight while the list is rotated *)

(** What can happen while a probe is in flight: the connector answers,
    or some other connection's success rotates the list. *)
Inductive Event :=
| Answered (a : Answer)
| Rotated (targetHost : Backend).

Fixpoint answers_of (events : list Event) : list Answer :=
  match events with
  | [] => []
  | Answered a :: events' => a :: answers_of events'
  | Rotated _ :: events' => answers_of events'
  end.

Fixpoint run_events (events : list Event) (this : Proxy) (st : ScanState)
    (s : store) : option (Proxy * ScanState * store) :=
  match events with
  | [] => Some (this, st, s)
  | Answered a :: events' =>
      match deliver s a st with
      | Some st' => run_events events' this st' s
      | None => None
      end
  | Rotated targetHost :: events' =>
      match _rotateBackendList this targetHost s with
      | (inr this', s') => run_events events' this' st s'
      | (inl _, _) => None
      end
  end.

(** ** [_requestHandler] and [_setupBackendRoute] *)

(** [self._rotateBackendList( remotesocket._backend )].  The sockets a
    scan hands over carry their backend.  For a socket without one the
    argument would be [undefined], which [indexOf] finds in no list of a
    proxy: [this._backendList] is only ever made by
    [normalizeBackendHostObjectArray], [slice] and [concat], which store
    no [undefined]; so nothing is rotated. *)
Definition rotate_to_backend_of (remotesocket : Socket) (this : Proxy)
  : M Proxy :=
  match _backend remotesocket with
  | Some backend => _rotateBackendList this backend
  | None => ret this
  end.

(** The callback [_requestHandler] gives the scan, for the inbound
    socket [inboundSocket].  Beside the instance it keeps the calls made
    to [twoWaySocketPipe], oldest first. *)
Definition request_callback (inboundSocket : nat) (args : callback_args)
    (state : Proxy * list (nat * Socket)) : M (Proxy * list (nat * Socket)) :=
  let '(this, piped) := state in
  match args.1 with
  | Some remotesocket =>
      (* Rotate the backends (if needed) *)
      let* this' := rotate_to_backend_of remotesocket this in
      (* And bind the socket connection *)
      ret (this', piped ++ [(inboundSocket, remotesocket)])
  | None =>
      (* Assume an error occurs sadly: a warning at most *)
      ret (this, piped)
  end.

(** The callback [_setupBackendRoute] gives the scan.  Beside the
    instance it counts the calls of [callback], the continuation the
    constructor passes; [callback] tells whether one was passed. *)
Definition setup_callback (callback : bool) (args : callback_args)
    (state : Proxy * nat) : M (Proxy * nat) :=
  let '(this, called) := state in
  let* this' :=
    match args.1 with
    | Some remotesocket => rotate_to_backend_of remotesocket this
    | None => ret this
    end in
  (* Finish by calling the callback *)
  ret (this', if callback then S called else called).

(** The calls a scan made of its callback, run in order. *)
Fixpoint call_each {A} (f : callback_args -> A -> M A)
    (calls : list callback_args) (a : A) : M A :=
  match calls with
  | [] => ret a
  | c :: calls' => let* a' := f c a in call_each f calls' a'
  end.

(** [_requestHandler(inboundSocket)] and [_setupBackendRoute(callback)]
    with a connector that answers each attempt: the scan of
    [this._backendList], and its callback. *)
Definition _requestHandler (net : Connector) (inboundSocket : nat)
    (this : Proxy) : M (option (Proxy * list (nat * Socket))) :=
  let* finished := probe net (_backendList this) in
  match finished with
  | Some st =>
      let* state := call_each (request_callback inboundSocket) (delivered st)
                      (this, []) in
      ret (Some state)
  | None => ret None
  end.

Definition _setupBackendRoute (net : Connector) (callback : bool)
    (this : Proxy) : M (option (Proxy * nat)) :=
  let* finished := probe net (_backendList this) in
  match finished with
  | Some st =>
      let* state := call_each (setup_callback callback) (delivered st)
                      (this, 0%nat) in
      ret (Some state)
  | None => ret None
  end.

(* ================================================================== *)
(** * Vocabulary of the statements *)
(* ================================================================== *)

(** ** Settings *)

Definition empty_store : store := {| arrays := ∅; next_oid := 0 |}.

(** The host and the port a backend setting is given with: the two
    segments of a ["host:port"] string, the two properties of an
    object. *)
Definition spec_host (backend : value) : option value :=
  match backend with
  | VString s | VStringObject s => Some (string_at (split ":" s) 0)
  | VObject h _ => Some h
  | _ => None
  end.

Definition spec_port (backend : value) : option value :=
  match backend with
  | VString s | VStringObject s => Some (string_at (split ":" s) 1)
  | VObject _ p => Some p
  | _ => None
  end.

(** The port the function checks, from the port [p] the setting is
    given with: an object's port goes through [parseInt] once (line 56),
    the segment of a string twice (lines 44 and 56), the second time as
    the number the first made of it. *)
Definition coerced_port (backend p : value) : number :=
  if is_string backend then parseInt (VNumber (parseInt p)) else parseInt p.

(** A number above 0 and up to 65535, an integer or not. *)
Definition in_port_range (n : number) : Prop :=
  match n with
  | Num z => 0 < z <= 65535
  | Frac m e => 0 < m /\ m <= 65535 * 2 ^ Z.pos e
  | NaN | Infinity _ => False
  end.

(** The host is missing ([undefined], [null]) or the empty string. *)
Definition host_missing (h : value) : Prop :=
  eq_null h = true \/ h = VString "".

Definition missing_host_error : thrown :=
  ThrowString "Missing host string given for backend".

Definition is_throw_string {A} (r : thrown + A) : Prop :=
  exists msg, r = inl (ThrowString msg).

Definition valid_spec (v : value) : Prop :=
  exists f, normalizeBackendHostFields v = inr f.

(** An array with a backend in every slot. *)
Definition no_holes (l : list slot) : Prop :=
  exists bs : list Backend, l = Some <$> bs.

(** A decimal digit. *)
Definition is_digit (d : Z) : Prop := 0 <= d < 10.

(** A string at whose start a number ends: it begins with no decimal
    digit, and not with the [x] that would make a leading 0 a
    hexadecimal prefix. *)
Definition ends_number (rest : string) : Prop :=
  digit_prefix 10 rest = []
  /\ match rest with
     | String c _ => Ascii.eqb c "x" || Ascii.eqb c "X" = false
     | EmptyString => True
     end.

(** ** Scans *)

(** How a call of [recursiveScan] can return: the callback triggered
    with the count [scanPos] has reached, every slot from the current
    position on being empty; or a connection asked for the first backend
    found from the current position on. *)
Inductive scan_returns (s : store) (st : ScanState) : ScanState -> Prop :=
| returns_exhausted :
    let p := Nat.max (scanPos st) (S (length (contents s (scanList st)))) in
    (forall j, (scanPos st <= j)%nat ->
               mjoin (contents s (scanList st) !! j) = None) ->
    scan_returns s st
      (triggerCallback None (Some (exhausted_message p)) (set_scanPos p st))
| returns_connecting i backend :
    (scanPos st <= i)%nat ->
    contents s (scanList st) !! i = Some (Some backend) ->
    (forall j, (scanPos st <= j < i)%nat ->
               mjoin (contents s (scanList st) !! j) = None) ->
    scan_returns s st (netSocketConnect backend (set_scanPos (S i) st)).


(** A scan that was given a callback and is between two events: either
    the callback is still to come and an attempt is pending, or it has
    been called, once. *)
Definition settled (st : ScanState) : Prop :=
  if callback st then delivered st = [] /\ pending st <> []
  else length (delivered st) = 1%nat.

(** The same without the pending attempt, as holds inside a handler. *)
Definition running (st : ScanState) : Prop :=
  if callback st then delivered st = [] else length (delivered st) = 1%nat.

(** What is left to do: positions to scan, answers to wait for. *)
Definition work_left (s : store) (st : ScanState) : nat :=
  (S (length (contents s (scanList st))) - scanPos st + length (pending st))%nat.

(** The reference [backendArr.slice(0)] gets in [s], and the store once
    the snapshot is made. *)
Definition snapshot_ref (s : store) : ref := fresh (dom (arrays s)).

Definition after_snapshot (s : store) (backendArr : ref) : store :=
  {| arrays := <[snapshot_ref s := contents s backendArr]> (arrays s);
     next_oid := next_oid s |}.

Definition initial (cb : bool) (r : ref) : ScanState :=
  {| callback := cb; scanPos := 0; scanList := r;
     pending := []; connects := []; delivered := [] |}.

(** A connector's answer counts as a connection when it has a socket
    and no error: [socket != null && err == null]. *)
Definition connected (a : option nat * option string) : option nat :=
  match a with
  | (Some h, None) => Some h
  | _ => None
  end.

(** The states a scan of the list [bs], snapshot at [r], goes through
    when each attempt is answered before the next event: about to call
    [recursiveScan] with [k] attempts made; waiting for the answer of
    attempt [k]; done. *)
Definition idle (r : ref) (bs : list Backend) (k : nat) : ScanState :=
  {| callback := true; scanPos := k; scanList := r; pending := [];
     connects := take k bs; delivered := [] |}.

Definition attempting (r : ref) (bs : list Backend) (k : nat) (b : Backend)
  : ScanState :=
  {| callback := true; scanPos := S k; scanList := r; pending := [b];
     connects := take (S k) bs; delivered := [] |}.

Definition succeeded (r : ref) (bs : list Backend) (k : nat) (b : Backend)
    (h : nat) : ScanState :=
  {| callback := false; scanPos := S k; scanList := r; pending := [];
     connects := take (S k) bs;
     delivered := [(Some {| handle := h; _backend := Some b |}, None)] |}.

Definition exhausted (r : ref) (bs : list Backend) : ScanState :=
  {| callback := false; scanPos := S (length bs); scanList := r; pending := [];
     connects := bs;
     delivered := [(None, Some (exhausted_message (S (length bs))))] |}.

(** [s.substring(n)] *)
Fixpoint string_drop (n : nat) (s : string) : string :=
  match n, s with
  | S n', String _ s' => string_drop n' s'
  | _, _ => s
  end.

(** The number of tries a message of exhaustion reports: the decimal
    number that follows the 45 characters that end in ["tried "]. *)
Definition reported_tries (msg : string) : number :=
  match digit_prefix 10 (string_drop 45 msg) with
  | [] => NaN
  | ds => Num (horner 10 ds)
  end.

(** What a finished probe did: the connections it asked for and the
    calls of its callback. *)
Definition outcome (r : thrown + option ScanState)
  : option (list Backend * list callback_args) :=
  match r with
  | inr (Some st) => Some (connects st, delivered st)
  | _ => None
  end.

(** ** Rotations *)

(** First position of [target] in an array, by identity of the object
    and by value of (host, port). *)
Definition is_object (target : Backend) (x : slot) : Prop :=
  oid <$> x = Some (oid target).

Definition is_value_equal (target : Backend) (x : slot) : Prop :=
  (fun y => (host y, port y)) <$> x = Some (host target, port target).

#[global] Instance is_object_dec target x : Decision (is_object target x).
Proof. unfold is_object. apply _. Defined.

#[global] Instance is_value_equal_dec target x : Decision (is_value_equal target x).
Proof. unfold is_value_equal. apply _. Defined.

(** The list [l] turned so that index [idx] comes first. *)
Definition rotated_at (idx : nat) (l : list slot) : list slot :=
  drop idx l ++ take idx l.

(** Rotation as the specification words it: the target is looked up by
    the value of (host, port). *)
Definition rotate_by_value_spec (l : list slot) (target : Backend) : list slot :=
  match list_find (is_value_equal target) l with
  | Some (S idx, _) => rotated_at (S idx) l
  | _ => l
  end.

(** The list a proxy holds once [_rotateBackendList] has run. *)
Definition list_after_rotate (this : Proxy) (target : Backend) (s : store)
  : list slot :=
  match _rotateBackendList this target s with
  | (inr this', s') => contents s' (_backendList this')
  | (inl _, _) => []
  end.

(** One rotation after another, for each of [targets] in turn. *)
Fixpoint rotate_all (targets : list Backend) (this : Proxy) (s : store)
  : Proxy * store :=
  match targets with
  | [] => (this, s)
  | target :: targets' =>
      match _rotateBackendList this target s with
      | (inr this', s') => rotate_all targets' this' s'
      | (inl _, s') => (this, s')
      end
  end.

(** ** Data of the worked examples *)

Definition backend_of (i : nat) (h : string) (p : Z) : Backend :=
  {| oid := i; host := VString h; port := Num p;
     _fullString := h +:+ ":" +:+ number_to_string (Num p) |}.

Definition backend_A : Backend := backend_of 0 "a" 8001.
Definition backend_B : Backend := backend_of 1 "b" 8002.
Definition backend_C : Backend := backend_of 2 "c" 8003.

(** A store whose array 0 is the list [[A, B, C]]. *)
Definition store_abc : store :=
  {| arrays := {[ 0%nat := [Some backend_A; Some backend_B; Some backend_C] ]};
     next_oid := 3 |}.

Definition proxy_abc : Proxy :=
  {| _server := Some 1%nat; _host := VNull; _port := VNumber (Num 3128);
     _backendList := 0%nat; _log := false; _shuffle := false;
     _connectTimeout := VNumber (Num 2500) |}.

(** A store whose array 0 has empty slots around [A] and [B]. *)
Definition store_sparse : store :=
  {| arrays := {[ 0%nat := [None; Some backend_A; None; None; Some backend_B] ]};
     next_oid := 3 |}.

(** Every attempt is refused. *)
Definition all_down : Connector :=
  fun _ _ => (None, Some "ECONNREFUSED").

(** Only the host ["a"] is down. *)
Definition only_a_down : Connector :=
  fun _ b =>
    if bool_decide (host b = VString "a") then (None, Some "ECONNREFUSED")
    else (Some (100 + oid b)%nat, None).

(** A copy of [B]: equal host and port, another object. *)
Definition copy_of_B : Backend :=
  {| oid := 7; host := host backend_B; port := port backend_B;
     _fullString := _fullString backend_B |}.

(** A world with nothing called [callback] on the global object, where
    server 1 is listening. *)
Definition plain_world : World :=
  {| globalThis := ∅; listening := {[ 1%nat ]} |}.

(** The options of the README example, with a timeout to choose, and
    the proxy they set up when the timeout is left to its default. *)
Definition readme_options (timeout : value) : Options :=
  {| opt_port := VNumber (Num 3128); opt_host := VUndefined;
     opt_backend := VArray [VString "192.168.10.10:3128"; VString "192.168.10.11:3128"];
     opt_log := VUndefined; opt_shuffle := VBool false;
     opt_connectTimeout := timeout |}.

Definition readme_proxy : Proxy :=
  {| _server := None; _host := VNull; _port := VNumber (Num 3128);
     _backendList := 0%nat; _log := true; _shuffle := false;
     _connectTimeout := VNumber (Num 2500) |}.

(** ** More vocabulary: settings and lists *)

(** No character of [s] is [sep]. *)
Fixpoint free_of (sep : ascii) (s : string) : Prop :=
  match s with
  | EmptyString => True
  | String c s' => c <> sep /\ free_of sep s'
  end.

(** The backend [normalizeBackendHostObject] makes of a setting when the
    next object identity is [id], if the setting is valid. *)
Definition normalized (id : nat) (backend : value) : option Backend :=
  match normalizeBackendHostFields backend with
  | inr (h, p, full) =>
      Some {| oid := id; host := h; port := p; _fullString := full |}
  | inl _ => None
  end.

(** The array [r] holds the backends [bs], one per slot, all of them
    different objects made before [next_oid]. *)
Definition backend_list (s : store) (r : ref) (bs : list Backend) : Prop :=
  contents s r = Some <$> bs
  /\ NoDup (oid <$> bs)
  /\ Forall (fun b => (oid b < next_oid s)%nat) bs.

(** The backends an array holds, empty slots left out. *)
Definition candidates (l : list slot) : list Backend := omap id l.

(** The states of a scan of any array [l], snapshot at [r], whose
    attempts are answered one after the other: about to call
    [recursiveScan] at position [p]; waiting for the answer of the
    attempt made for slot [i]; connected through slot [i]; out of
    slots. *)
Definition scanning (r : ref) (l : list slot) (p : nat) : ScanState :=
  {| callback := true; scanPos := p; scanList := r; pending := [];
     connects := candidates (take p l); delivered := [] |}.

Definition waiting (r : ref) (l : list slot) (i : nat) (b : Backend)
  : ScanState :=
  {| callback := true; scanPos := S i; scanList := r; pending := [b];
     connects := candidates (take (S i) l); delivered := [] |}.

Definition connected_at (r : ref) (l : list slot) (i : nat) (b : Backend)
    (h : nat) : ScanState :=
  {| callback := false; scanPos := S i; scanList := r; pending := [];
     connects := candidates (take (S i) l);
     delivered := [(Some {| handle := h; _backend := Some b |}, None)] |}.

Definition out_of_slots (r : ref) (l : list slot) : ScanState :=
  {| callback := false; scanPos := S (length l); scanList := r; pending := [];
     connects := candidates l;
     delivered := [(None, Some (exhausted_message (S (length l))))] |}.

(** A scan between two events when every attempt is answered once:
    one attempt is pending and the callback is still to come, or the
    callback has been called and nothing is pending. *)
Definition one_in_flight (st : ScanState) : Prop :=
  (callback st = true /\ length (pending st) = 1%nat /\ delivered st = [])
  \/ (callback st = false /\ pending st = [] /\ length (delivered st) = 1%nat).

(* ================================================================== *)
(** * Properties of the built-ins *)
(* ================================================================== *)

Section Decimal.

Local Ltac each_digit d H :=
  assert (d = 0 \/ d = 1 \/ d = 2 \/ d = 3 \/ d = 4 \/ d = 5 \/ d = 6
          \/ d = 7 \/ d = 8 \/ d = 9) as Hcases by (unfold is_digit in H; lia);
  clear H;
  repeat (destruct Hcases as [-> | Hcases]); [..| subst d].

Lemma digit_value_digit_char d : is_digit d -> digit_value (digit_char d) = Some d.
Proof. intros H. each_digit d H; reflexivity. Qed.

Lemma digit_char_plain d :
  is_digit d ->
  is_whitespace (digit_char d) = false
  /\ Ascii.eqb (digit_char d) "-" = false
  /\ Ascii.eqb (digit_char d) "+" = false
  /\ Ascii.eqb (digit_char d) "x" = false
  /\ Ascii.eqb (digit_char d) "X" = false.
Proof. intros H. each_digit d H; repeat split; reflexivity. Qed.

Lemma le_digits_are_digits fuel n : Forall is_digit (le_digits fuel n).
Proof.
  revert n. induction fuel as [|fuel IH]; intros n; simpl; [constructor|].
  constructor.
  - unfold is_digit. apply Z.mod_pos_bound. lia.
  - destruct (n <? 10); [constructor | apply IH].
Qed.

Lemma horner_snoc R ds d : horner R (ds ++ [d]) = horner R ds * R + d.
Proof. unfold horner. by rewrite fold_left_app. Qed.

Lemma horner_le_digits fuel n :
  0 <= n < 10 ^ Z.of_nat fuel ->
  horner 10 (rev (le_digits fuel n)) = n.
Proof.
  revert n. induction fuel as [|fuel IH]; intros n Hn.
  - change (10 ^ Z.of_nat 0) with 1 in Hn.
    assert (n = 0) as -> by lia. reflexivity.
  - cbn [le_digits rev]. rewrite horner_snoc.
    destruct (Z.ltb_spec n 10) as [Hlt | Hge].
    + cbn. rewrite Z.mod_small; lia.
    + rewrite IH.
      * pose proof (Z.div_mod n 10). lia.
      * rewrite Nat2Z.inj_succ, Z.pow_succ_r in Hn by lia.
        split; [apply Z.div_pos; lia | apply Z.div_lt_upper_bound; lia].
Qed.

Lemma digits_of_value n : 0 <= n -> horner 10 (digits_of n) = n.
Proof.
  intros Hn. unfold digits_of. apply horner_le_digits. split; [done|].
  destruct (Z.eq_dec n 0) as [-> | Hne]; [reflexivity|].
  rewrite Nat2Z.inj_succ, Z2Nat.id by apply Z.log2_nonneg.
  pose proof (Z.log2_spec n ltac:(lia)) as [_ Hlt].
  eapply Z.lt_le_trans; [exact Hlt|].
  apply Z.pow_le_mono_l. pose proof (Z.log2_nonneg n). lia.
Qed.

Lemma digits_of_are_digits n : Forall is_digit (digits_of n).
Proof. unfold digits_of. apply Forall_rev, le_digits_are_digits. Qed.

Lemma digits_of_nonempty n : digits_of n <> [].
Proof.
  unfold digits_of. cbn [le_digits rev].
  intros H. apply app_eq_nil in H as [_ H]. discriminate.
Qed.

Lemma append_cons c (s rest : string) :
  String c s +:+ rest = String c (s +:+ rest).
Proof. reflexivity. Qed.

Lemma append_empty_r (s : string) : s +:+ "" = s.
Proof.
  induction s as [|c s IH]; [reflexivity|]. by rewrite append_cons, IH.
Qed.

Lemma ends_number_empty : ends_number "".
Proof. by split. Qed.

Lemma digit_prefix_decimal ds rest :
  Forall is_digit ds ->
  digit_prefix 10 (string_of_digits ds +:+ rest) = ds ++ digit_prefix 10 rest.
Proof.
  induction 1 as [|d ds Hd _ IH]; [reflexivity|].
  unfold string_of_digits in *.
  cbn [map string_of_list_ascii]. rewrite append_cons. cbn [digit_prefix].
  rewrite digit_value_digit_char by done.
  destruct (Z.ltb_spec d 10); [by rewrite IH | unfold is_digit in Hd; lia].
Qed.

(** Below 2^53 integers are doubles and print as they are. *)
Lemma of_integer_small z : Z.abs z < 9007199254740992 -> of_integer z = Num z.
Proof.
  intros Hz. unfold of_integer.
  by destruct (Z.ltb_spec (Z.abs z) 9007199254740992); [|lia].
Qed.

Lemma number_to_string_small z :
  0 <= z < 9007199254740992 ->
  number_to_string (Num z) = string_of_digits (digits_of z).
Proof.
  intros Hz. cbn [number_to_string].
  destruct (Z.ltb_spec (Z.abs z) 9007199254740992); [|lia].
  by destruct (Z.ltb_spec z 0); [lia|].
Qed.

Lemma parse_unsigned_decimal ds rest :
  Forall is_digit ds -> ds <> [] -> ends_number rest ->
  parse_unsigned (string_of_digits ds +:+ rest) = of_integer (horner 10 ds).
Proof.
  intros Hds Hne [Hstop Hx].
  assert (parse_digits 10 (string_of_digits ds +:+ rest) = of_integer (horner 10 ds))
    as Hdec.
  { unfold parse_digits. rewrite digit_prefix_decimal, Hstop, app_nil_r by done.
    by destruct ds. }
  rewrite <- Hdec. destruct ds as [|d1 ds]; [done|].
  inversion Hds as [|? ? _ Hds']; subst.
  unfold parse_unsigned, string_of_digits.
  cbn [map string_of_list_ascii]. rewrite append_cons.
  destruct ds as [|d2 ds].
  - change (string_of_list_ascii (map digit_char []) +:+ rest) with rest.
    destruct rest as [|c rest]; [done|]. cbn [has_hex_prefix].
    rewrite Hx. by rewrite andb_false_r.
  - inversion Hds' as [|? ? Hd2 _]; subst.
    cbn [map string_of_list_ascii]. rewrite append_cons. cbn [has_hex_prefix].
    destruct (digit_char_plain d2 Hd2) as (_ & _ & _ & -> & ->).
    by rewrite andb_false_r.
Qed.

Lemma parse_signed_decimal ds rest :
  Forall is_digit ds -> ds <> [] -> ends_number rest ->
  parse_signed (string_of_digits ds +:+ rest) = of_integer (horner 10 ds).
Proof.
  intros Hds Hne Hrest. rewrite <- (parse_unsigned_decimal ds rest) by done.
  destruct ds as [|d ds]; [done|]. inversion Hds as [|? ? Hd _]; subst.
  unfold parse_signed, string_of_digits.
  cbn [map string_of_list_ascii]. rewrite append_cons.
  by destruct (digit_char_plain d Hd) as (_ & -> & -> & _).
Qed.

Lemma trim_start_decimal ds rest :
  Forall is_digit ds -> ds <> [] ->
  trim_start (string_of_digits ds +:+ rest) = string_of_digits ds +:+ rest.
Proof.
  destruct 1 as [|d ds Hd _]; [done|]. intros _.
  unfold string_of_digits. cbn [map string_of_list_ascii].
  rewrite append_cons. cbn [trim_start].
  by destruct (digit_char_plain d Hd) as (-> & _).
Qed.

(** [parseInt] reads a non-negative decimal number below 2^53 up to
    where it ends. *)
Lemma parseInt_decimal z rest :
  0 <= z < 9007199254740992 -> ends_number rest ->
  parseInt (VString (number_to_string (Num z) +:+ rest)) = Num z.
Proof.
  intros Hz Hrest. unfold parseInt. cbn [ToString].
  rewrite number_to_string_small by done.
  rewrite trim_start_decimal, parse_signed_decimal
    by auto using digits_of_are_digits, digits_of_nonempty.
  rewrite digits_of_value by lia. apply of_integer_small. lia.
Qed.

(** Below 2^53, [parseInt] reads back the integer that [ToString]
    printed.  (From 10^21 on it does not: [ToString] then uses the
    exponent notation, of which [parseInt] reads the first digit.) *)
Lemma parseInt_small_integer z :
  Z.abs z < 9007199254740992 -> parseInt (VNumber (Num z)) = Num z.
Proof.
  intros Hz. destruct (Z.ltb_spec z 0) as [Hneg | Hpos].
  - unfold parseInt. cbn [ToString number_to_string].
    destruct (Z.ltb_spec (Z.abs z) 9007199254740992); [|lia].
    destruct (Z.ltb_spec z 0) as [_|]; [|lia].
    change (trim_start ("-" +:+ ?s)) with ("-" +:+ s).
    change (parse_signed ("-" +:+ ?s)) with (negate (parse_unsigned s)).
    rewrite <- (append_empty_r (string_of_digits _)).
    rewrite parse_unsigned_decimal
      by auto using digits_of_are_digits, digits_of_nonempty, ends_number_empty.
    rewrite digits_of_value, of_integer_small by lia. cbn. f_equal. lia.
  - pose proof (parseInt_decimal z "" ltac:(lia) ends_number_empty) as Hread.
    by rewrite append_empty_r in Hread.
Qed.

(** The count in a message of exhaustion is the one it was made with. *)
Lemma reported_tries_exhausted_message n :
  reported_tries (exhausted_message n) = Num (Z.of_nat n).
Proof.
  unfold reported_tries, exhausted_message.
  change (string_drop 45 (?prefix +:+ ?s)) with s.
  rewrite digit_prefix_decimal by apply digits_of_are_digits.
  change (digit_prefix 10 " times") with (@nil Z). rewrite app_nil_r.
  pose proof (digits_of_nonempty (Z.of_nat n)).
  destruct (digits_of (Z.of_nat n)) eqn:Hds; [done|].
  rewrite <- Hds, digits_of_value by lia. reflexivity.
Qed.

(** The message is the one [ToString] makes of the count. *)
Lemma exhausted_message_number n :
  Z.of_nat n < 9007199254740992 ->
  exhausted_message n
  = "Unable to connect to a valid backend - tried "
    +:+ number_to_string (Num (Z.of_nat n)) +:+ " times".
Proof.
  intros Hn. unfold exhausted_message. by rewrite number_to_string_small by lia.
Qed.

End Decimal.

(** ** The integers [parseInt] returns are doubles *)

Lemma round_shift_bounds p k :
  0 < k -> 0 < p ->
  p / 2 ^ k <= round_shift p k <= p / 2 ^ k + 1.
Proof.
  intros Hk Hp. unfold round_shift.
  destruct (Z.leb_spec k 0); [lia|].
  destruct (_ || _); lia.
Qed.

Lemma round_shift_exact m k :
  0 < k -> 0 <= m -> round_shift (m * 2 ^ k) k = m.
Proof.
  intros Hk Hm. unfold round_shift.
  destruct (Z.leb_spec k 0); [lia|].
  assert (0 < 2 ^ k) by (apply Z.pow_pos_nonneg; lia).
  assert (0 < 2 ^ (k - 1)) by (apply Z.pow_pos_nonneg; lia).
  rewrite Z.div_mul, Z.mod_mul by lia.
  destruct (Z.ltb_spec (2 ^ (k - 1)) 0); [lia|].
  destruct (Z.eqb_spec 0 (2 ^ (k - 1))); [lia|]. reflexivity.
Qed.

(** The double [to_double] makes of an integer from 2^53 on: a
    significand of 53 bits, and rounding it again changes nothing. *)
Lemma to_double_again p mant ex :
  9007199254740992 <= p -> to_double p 0 = Some (mant, ex) ->
  4503599627370496 <= mant < 9007199254740992 /\ 0 < ex
  /\ to_double (mant * 2 ^ ex) 0 = Some (mant, ex).
Proof.
  intros Hp. unfold to_double at 1.
  assert (53 <= Z.log2 p) as Hlog.
  { change 53 with (Z.log2 9007199254740992). by apply Z.log2_le_mono. }
  rewrite Z.add_0_r, Z.sub_0_r.
  rewrite Z.max_l by lia.
  set (k := Z.log2 p - 52) in *.
  pose proof (Z.log2_spec p ltac:(lia)) as [Hlow Hhigh].
  assert (0 < 2 ^ k) as Hpow by (apply Z.pow_pos_nonneg; lia).
  assert (2 ^ Z.log2 p = 4503599627370496 * 2 ^ k) as Hsplit.
  { unfold k. change 4503599627370496 with (2 ^ 52).
    rewrite <- Z.pow_add_r by lia. f_equal. lia. }
  assert (2 ^ Z.succ (Z.log2 p) = 9007199254740992 * 2 ^ k) as Hsplit'.
  { unfold k. change 9007199254740992 with (2 ^ 53).
    rewrite <- Z.pow_add_r by lia. f_equal. lia. }
  assert (4503599627370496 <= p / 2 ^ k < 9007199254740992) as Hq.
  { split; [apply Z.div_le_lower_bound; lia | apply Z.div_lt_upper_bound; lia]. }
  pose proof (round_shift_bounds p k ltac:(lia) ltac:(lia)) as Hround.
  assert (forall m e, 4503599627370496 <= m < 9007199254740992 -> 0 < e ->
            to_double (m * 2 ^ e) 0
            = (if 971 <? e then None else Some (m, e))) as Hagain.
  { intros m e Hm He. unfold to_double.
    assert (Z.log2 (m * 2 ^ e) = 52 + e) as ->.
    { rewrite Z.log2_mul_pow2 by lia.
      assert (Z.log2 m = 52) as ->; [|lia].
      apply Z.log2_unique; [lia|]. change (2 ^ 52) with 4503599627370496.
      change (2 ^ Z.succ 52) with 9007199254740992. lia. }
    rewrite Z.add_0_r, Z.sub_0_r. replace (52 + e - 52) with e by lia.
    rewrite Z.max_l by lia. rewrite round_shift_exact by lia.
    by destruct (Z.eqb_spec m 9007199254740992); [lia|]. }
  destruct (Z.eqb_spec (round_shift p k) 9007199254740992) as [Heq | Hne].
  - destruct (Z.ltb_spec 971 (k + 1)) as [|Hex]; [discriminate|].
    intros [= <- <-]. split; [lia|]. split; [lia|].
    rewrite Hagain by lia. by destruct (Z.ltb_spec 971 (k + 1)); [lia|].
  - destruct (Z.ltb_spec 971 k) as [|Hex]; [discriminate|].
    intros [= <- <-]. split; [lia|]. split; [lia|].
    rewrite Hagain by lia. by destruct (Z.ltb_spec 971 k); [lia|].
Qed.

(** An integer [parseInt] returns is a double: rounding it changes
    nothing. *)
Lemma of_integer_double z z' : of_integer z = Num z' -> of_integer z' = Num z'.
Proof.
  unfold of_integer at 1.
  destruct (Z.ltb_spec (Z.abs z) 9007199254740992) as [Hsmall | Hbig].
  - intros [= <-]. by apply of_integer_small.
  - destruct (to_double (Z.abs z) 0) as [[mant ex]|] eqn:Hd; [|discriminate].
    intros [= <-].
    destruct (to_double_again _ _ _ Hbig Hd) as (Hmant & Hex & Hagain).
    assert (2 <= 2 ^ ex)
      by (change 2 with (2 ^ 1) at 1; apply Z.pow_le_mono_r; lia).
    assert (Z.abs (Z.sgn z * (mant * 2 ^ ex)) = mant * 2 ^ ex) as Habs
      by (destruct z; cbn [Z.sgn]; nia).
    unfold of_integer. rewrite Habs.
    destruct (Z.ltb_spec (mant * 2 ^ ex) 9007199254740992); [nia|].
    rewrite Hagain. f_equal. destruct z; cbn [Z.sgn]; lia.
Qed.

Lemma of_integer_opp z : of_integer z = Num z -> of_integer (- z) = Num (- z).
Proof.
  unfold of_integer. rewrite Z.abs_opp.
  destruct (_ <? _); [done|].
  destruct (to_double (Z.abs z) 0) as [[mant ex]|]; [|discriminate].
  rewrite Z.sgn_opp. intros [= Hz]. f_equal. lia.
Qed.

Lemma parse_digits_double R s z :
  parse_digits R s = Num z -> of_integer z = Num z.
Proof.
  unfold parse_digits. destruct (digit_prefix R s); [discriminate|].
  apply of_integer_double.
Qed.

Lemma parse_unsigned_double s z :
  parse_unsigned s = Num z -> of_integer z = Num z.
Proof.
  unfold parse_unsigned.
  destruct s as [|c1 [|c2 s]]; try apply parse_digits_double.
  destruct (has_hex_prefix _); apply parse_digits_double.
Qed.

Lemma parseInt_double v z : parseInt v = Num z -> of_integer z = Num z.
Proof.
  unfold parseInt, parse_signed.
  destruct (trim_start (ToString v)) as [|c s]; [discriminate|].
  destruct (Ascii.eqb c "-").
  - destruct (parse_unsigned s) as [|z0| |] eqn:Hs; try discriminate.
    intros [= <-]. by apply of_integer_opp, (parse_unsigned_double s).
  - destruct (Ascii.eqb c "+"); apply parse_unsigned_double.
Qed.

(** ** The rendering of the integers from 2^53 up to 10^21 *)

(** The number of digits of a positive integer. *)
Lemma le_digits_length fuel n :
  0 <= n < 10 ^ Z.of_nat fuel -> (0 < fuel)%nat ->
  let L := Z.of_nat (length (le_digits fuel n)) in
  1 <= L /\ n < 10 ^ L /\ (0 < n -> 10 ^ (L - 1) <= n).
Proof.
  revert n. induction fuel as [|fuel IH]; intros n Hn Hfuel; [lia|].
  cbn [le_digits]. destruct (Z.ltb_spec n 10) as [Hlt | Hge].
  - cbn. lia.
  - assert (0 <= n / 10 < 10 ^ Z.of_nat fuel) as Hdiv.
    { rewrite Nat2Z.inj_succ, Z.pow_succ_r in Hn by lia.
      split; [apply Z.div_pos; lia | apply Z.div_lt_upper_bound; lia]. }
    assert (0 < fuel)%nat as Hpos.
    { destruct fuel; [|lia]. cbn in Hdiv. pose proof (Z.div_le_lower_bound n 10 1). lia. }
    destruct (IH (n / 10) Hdiv Hpos) as (HL & Hupper & Hlower).
    cbn [length]. rewrite Nat2Z.inj_succ.
    set (L := Z.of_nat (length (le_digits fuel (n / 10)))) in *.
    pose proof (Z.div_mod n 10 ltac:(lia)) as Hn10.
    pose proof (Z.mod_pos_bound n 10 ltac:(lia)) as Hmod.
    assert (1 <= n / 10) by (apply Z.div_le_lower_bound; lia).
    replace (Z.succ L - 1) with (Z.succ (L - 1)) by lia.
    rewrite !Z.pow_succ_r by lia.
    split; [lia|]. split; [lia|]. intros _. specialize (Hlower ltac:(lia)). lia.
Qed.

Lemma digits_of_length n :
  0 < n ->
  let L := Z.of_nat (length (digits_of n)) in
  1 <= L /\ 10 ^ (L - 1) <= n < 10 ^ L.
Proof.
  intros Hn. unfold digits_of. rewrite length_rev.
  destruct (le_digits_length (S (Z.to_nat (Z.log2 n))) n) as (HL & Hupper & Hlower);
    [|lia|by auto].
  split; [lia|].
  rewrite Nat2Z.inj_succ, Z2Nat.id by apply Z.log2_nonneg.
  pose proof (Z.log2_spec n ltac:(lia)) as [_ Hlt].
  eapply Z.lt_le_trans; [exact Hlt|].
  apply Z.pow_le_mono_l. pose proof (Z.log2_nonneg n). lia.
Qed.

Lemma digits_of_length_unique n k :
  10 ^ (k - 1) <= n < 10 ^ k -> 1 <= k ->
  Z.of_nat (length (digits_of n)) = k.
Proof.
  intros Hn Hk.
  assert (0 < n).
  { assert (0 < 10 ^ (k - 1)) by (apply Z.pow_pos_nonneg; lia). lia. }
  destruct (digits_of_length n ltac:(done)) as (HL & Hlow & Hhigh).
  set (L := Z.of_nat (length (digits_of n))) in *.
  destruct (Z.lt_trichotomy L k) as [Hlt | [-> | Hgt]]; [|done|].
  - assert (10 ^ L <= 10 ^ (k - 1)) by (apply Z.pow_le_mono_r; lia). lia.
  - assert (10 ^ k <= 10 ^ (L - 1)) by (apply Z.pow_le_mono_r; lia). lia.
Qed.

Section LargeIntegers.

Variables mant ex : Z.
Hypothesis Hmant : 4503599627370496 <= mant < 9007199254740992.
Hypothesis Hex : 0 < ex.

Lemma compare_scaled_whole a b y :
  0 <= y ->
  compare_scaled a (ex - 2) b y = (a * 2 ^ (ex - 1) ?= 2 * b * 10 ^ y).
Proof.
  intros Hy. unfold compare_scaled.
  rewrite (Z.max_l y 0), (Z.max_r (- y) 0) by lia.
  change (10 ^ 0) with 1. rewrite Z.mul_1_r.
  destruct (decide (ex = 1)) as [-> | Hne].
  - change (2 ^ Z.max (1 - 2) 0) with 1. change (2 ^ Z.max (- (1 - 2)) 0) with 2.
    change (2 ^ (1 - 1)) with 1. f_equal; lia.
  - rewrite (Z.max_l (ex - 2) 0), (Z.max_r (- (ex - 2)) 0) by lia.
    change (2 ^ 0) with 1. rewrite Z.mul_1_r.
    replace (ex - 1) with (Z.succ (ex - 2)) by lia.
    rewrite Z.pow_succ_r by lia.
    replace (a * (2 * 2 ^ (ex - 2))) with (2 * (a * 2 ^ (ex - 2))) by lia.
    replace (2 * b * 10 ^ y) with (2 * (b * 10 ^ y)) by lia.
    destruct (Z.compare_spec (a * 2 ^ (ex - 2)) (b * 10 ^ y)),
      (Z.compare_spec (2 * (a * 2 ^ (ex - 2))) (2 * (b * 10 ^ y))); try done; lia.
Qed.

(** A decimal that rounds to the double lies below the midpoint to the
    next double, or on it. *)
Lemma rounds_to_upper s t :
  0 <= t -> rounds_to mant ex s t = true ->
  2 * s * 10 ^ t <= (4 * mant + 2) * 2 ^ (ex - 1).
Proof.
  intros Ht. unfold rounds_to. rewrite !compare_scaled_whole by done.
  destruct (Z.compare_spec ((4 * mant + 2) * 2 ^ (ex - 1)) (2 * s * 10 ^ t));
    [lia | | lia].
  by destruct (_ ?= _).
Qed.

(** The double is a decimal that rounds to itself. *)
Lemma rounds_to_self : rounds_to mant ex (mant * 2 ^ ex) 0 = true.
Proof.
  unfold rounds_to. rewrite !compare_scaled_whole by done.
  change (10 ^ 0) with 1. rewrite Z.mul_1_r.
  assert (0 < 2 ^ (ex - 1)) as Hpow by (apply Z.pow_pos_nonneg; lia).
  assert (2 ^ ex = 2 * 2 ^ (ex - 1)) as ->.
  { replace ex with (Z.succ (ex - 1)) at 1 by lia. by rewrite Z.pow_succ_r by lia. }
  assert (((4 * mant + 2) * 2 ^ (ex - 1) ?= 2 * (mant * (2 * 2 ^ (ex - 1)))) = Gt) as ->
    by (apply Z.compare_gt_iff; nia).
  destruct (_ && _).
  - by assert (((4 * mant - 1) * 2 ^ (ex - 1) ?= 2 * (mant * (2 * 2 ^ (ex - 1)))) = Lt)
      as -> by (apply Z.compare_lt_iff; nia).
  - by assert (((4 * mant - 2) * 2 ^ (ex - 1) ?= 2 * (mant * (2 * 2 ^ (ex - 1)))) = Lt)
      as -> by (apply Z.compare_lt_iff; nia).
Qed.

Lemma scaled_whole t :
  0 <= t ->
  scaled_num mant ex t = mant * 2 ^ ex /\ scaled_den ex t = 10 ^ t.
Proof.
  intros Ht. unfold scaled_num, scaled_den.
  rewrite (Z.max_l ex 0), (Z.max_r (- ex) 0), (Z.max_l t 0), (Z.max_r (- t) 0) by lia.
  change (10 ^ 0) with 1. change (2 ^ 0) with 1. lia.
Qed.

(** What the step of the search finds is one of the two decimals
    around the double, and rounds to it. *)
Lemma nearest_decimal_whole t s :
  0 <= t -> nearest_decimal mant ex t = Some s ->
  (s = mant * 2 ^ ex / 10 ^ t \/ s = mant * 2 ^ ex / 10 ^ t + 1)
  /\ rounds_to mant ex s t = true.
Proof.
  intros Ht. unfold nearest_decimal.
  destruct (scaled_whole t Ht) as [-> ->].
  set (s0 := mant * 2 ^ ex / 10 ^ t).
  destruct (rounds_to mant ex s0 t) eqn:Hlow,
    (rounds_to mant ex (s0 + 1) t) eqn:Hhigh; intros [= <-]; try (by auto).
  destruct (_ <? _); [by auto|].
  destruct (_ <? _); [by auto|].
  destruct (Z.even s0); by auto.
Qed.

Lemma nearest_decimal_self : nearest_decimal mant ex 0 <> None.
Proof.
  unfold nearest_decimal. destruct (scaled_whole 0 ltac:(done)) as [-> ->].
  change (10 ^ 0) with 1. rewrite Z.div_1_r, rounds_to_self.
  by destruct (rounds_to _ _ _ _).
Qed.

Variable n : Z.
Hypothesis Hn : 10 ^ (n - 1) <= mant * 2 ^ ex < 10 ^ n.

Lemma truncated_range k :
  1 <= k <= n ->
  10 ^ (k - 1) <= mant * 2 ^ ex / 10 ^ (n - k) < 10 ^ k.
Proof.
  intros Hk.
  assert (0 < 10 ^ (n - k)) by (apply Z.pow_pos_nonneg; lia).
  assert (10 ^ (n - 1) = 10 ^ (n - k) * 10 ^ (k - 1)) as Hlow
    by (rewrite <- Z.pow_add_r by lia; f_equal; lia).
  assert (10 ^ n = 10 ^ (n - k) * 10 ^ k) as Hhigh
    by (rewrite <- Z.pow_add_r by lia; f_equal; lia).
  split; [apply Z.div_le_lower_bound; lia | apply Z.div_lt_upper_bound; lia].
Qed.

(** The search ends with at most as many digits as the integer has. *)
Lemma shortest_from_whole fuel : forall k,
  1 <= k <= n -> n <= k + Z.of_nat fuel ->
  exists k' s,
    k <= k' <= n /\ 10 ^ (k' - 1) <= s < 10 ^ k'
    /\ (shortest_from fuel mant ex n k = (s, n)
        \/ (shortest_from fuel mant ex n k = (s, n + 1)
            /\ rounds_to mant ex (10 ^ k') (n - k') = true)).
Proof.
  induction fuel as [|fuel IH]; intros k Hk Hfuel.
  - assert (k = n) as -> by lia. cbn [shortest_from].
    rewrite Z.sub_diag.
    destruct (nearest_decimal mant ex 0) as [s|] eqn:Hs;
      [|by destruct nearest_decimal_self].
    rewrite <- (Z.sub_diag n) in Hs.
    apply nearest_decimal_whole in Hs as [Hs Hround]; [|lia].
    pose proof (truncated_range n ltac:(lia)) as Hrange.
    exists n. destruct (Z.eqb_spec s (10 ^ n)) as [-> | Hne].
    + exists (10 ^ (n - 1)). split; [lia|]. split; [|by right].
      split; [lia|]. apply Z.pow_lt_mono_r; lia.
    + exists s. split; [lia|]. split; [lia | by left].
  - cbn [shortest_from].
    destruct (nearest_decimal mant ex (n - k)) as [s|] eqn:Hs.
    + apply nearest_decimal_whole in Hs as [Hs Hround]; [|lia].
      pose proof (truncated_range k Hk) as Hrange.
      exists k. destruct (Z.eqb_spec s (10 ^ k)) as [-> | Hne].
      * exists (10 ^ (k - 1)). split; [lia|]. split; [|by right].
        split; [lia|]. apply Z.pow_lt_mono_r; lia.
      * exists s. split; [lia|]. split; [lia | by left].
    + assert (k <> n) as Hne.
      { intros ->. rewrite Z.sub_diag in Hs. by destruct nearest_decimal_self. }
      destruct (IH (k + 1)) as (k' & s & Hk' & Hs' & Hrun); [lia | lia |].
      exists k', s. split; [lia | done].
Qed.

End LargeIntegers.

(** Below 10^21 the decimal 10^21 rounds to no double: it is one
    itself. *)
Lemma rounds_to_below_10_21 mant ex k :
  4503599627370496 <= mant < 9007199254740992 -> 0 < ex ->
  mant * 2 ^ ex < 1000000000000000000000 -> 1 <= k <= 21 ->
  rounds_to mant ex (10 ^ k) (21 - k) = false.
Proof.
  intros Hmant Hex Hbelow Hk.
  destruct (rounds_to mant ex (10 ^ k) (21 - k)) eqn:Hround; [|done].
  apply rounds_to_upper in Hround; [|done|lia].
  replace (2 * 10 ^ k * 10 ^ (21 - k)) with (2 * 1000000000000000000000) in Hround.
  2:{ rewrite <- Z.mul_assoc, <- Z.pow_add_r by lia.
      by replace (k + (21 - k)) with 21 by lia. }
  assert (ex < 18) as Hsmall.
  { destruct (Z.lt_ge_cases ex 18) as [|Hge]; [done|].
    assert (2 ^ 18 <= 2 ^ ex) as Hpow by (apply Z.pow_le_mono_r; lia).
    change (2 ^ 18) with 262144 in Hpow. nia. }
  assert (ex = 1 \/ ex = 2 \/ ex = 3 \/ ex = 4 \/ ex = 5 \/ ex = 6 \/ ex = 7
          \/ ex = 8 \/ ex = 9 \/ ex = 10 \/ ex = 11 \/ ex = 12 \/ ex = 13
          \/ ex = 14 \/ ex = 15 \/ ex = 16 \/ ex = 17) as Hcases by lia.
  repeat (destruct Hcases as [-> | Hcases]); try subst ex;
    cbn in Hbelow, Hround; lia.
Qed.

Lemma format_digits_plain ds n :
  Z.of_nat (length ds) <= n <= 21 ->
  format_digits ds n = string_of_digits (ds ++ zeros (n - Z.of_nat (length ds))).
Proof.
  intros Hn. unfold format_digits.
  destruct (Z.leb_spec (Z.of_nat (length ds)) n); [|lia].
  by destruct (Z.leb_spec n 21); [|lia].
Qed.

Lemma horner_zeros ds j :
  0 <= j -> horner 10 (ds ++ zeros j) = horner 10 ds * 10 ^ j.
Proof.
  intros Hj. unfold zeros. rewrite <- (Z2Nat.id j) at 2 by done.
  generalize (Z.to_nat j) as m. clear. intros m. revert ds.
  induction m as [|m IH]; intros ds.
  - cbn. rewrite app_nil_r. lia.
  - cbn [repeat]. rewrite (cons_middle 0), app_assoc, IH, horner_snoc.
    rewrite Nat2Z.inj_succ, Z.pow_succ_r by lia. lia.
Qed.

Lemma zeros_are_digits j : Forall is_digit (zeros j).
Proof.
  unfold zeros. induction (Z.to_nat j) as [|m IH]; [constructor|].
  constructor; [by split | exact IH].
Qed.

(** From 2^53 up to 10^21 a double prints as an integer of at least 16
    digits, which is what [parseInt] reads back. *)
Lemma parseInt_large_integer z :
  of_integer z = Num z ->
  9007199254740992 <= z < 1000000000000000000000 ->
  exists w, parseInt (VNumber (Num z)) = of_integer w
            /\ 1000000000000000 <= w.
Proof.
  intros Hdouble Hz. unfold of_integer in Hdouble.
  destruct (Z.ltb_spec (Z.abs z) 9007199254740992) as [|Hbig]; [lia|].
  rewrite (Z.abs_eq z) in * by lia.
  destruct (to_double z 0) as [[mant ex]|] eqn:Hd; [|discriminate].
  destruct (to_double_again _ _ _ Hbig Hd) as (Hmant & Hex & _).
  assert (z = mant * 2 ^ ex) as Hvalue.
  { injection Hdouble as Hz'. rewrite Z.sgn_pos in Hz' by lia. lia. }
  unfold parseInt. cbn [ToString number_to_string].
  destruct (Z.ltb_spec (Z.abs z) 9007199254740992) as [|_]; [lia|].
  destruct (Z.ltb_spec z 0) as [|_]; [lia|]. cbn [signed].
  rewrite (Z.abs_eq z) by lia. unfold positive_to_string. rewrite Hd.
  destruct (Z.eqb_spec mant 0) as [|_]; [lia|].
  unfold shortest, decimal_exponent.
  destruct (Z.leb_spec 0 ex) as [_|]; [|lia]. rewrite <- Hvalue.
  destruct (digits_of_length z ltac:(lia)) as (Hn1 & Hlow & Hhigh).
  set (n := Z.of_nat (length (digits_of z))) in *.
  assert (16 <= n <= 21) as Hn.
  { split.
    - destruct (Z.lt_ge_cases n 16) as [Hlt|]; [|done].
      assert (10 ^ n <= 10 ^ 15) as Hpow by (apply Z.pow_le_mono_r; lia).
      change (10 ^ 15) with 1000000000000000 in Hpow. lia.
    - destruct (Z.lt_ge_cases 21 n) as [Hlt|]; [|done].
      assert (10 ^ 21 <= 10 ^ (n - 1)) as Hpow by (apply Z.pow_le_mono_r; lia).
      change (10 ^ 21) with 1000000000000000000000 in Hpow. lia. }
  rewrite Hvalue in Hlow, Hhigh.
  destruct (shortest_from_whole mant ex Hex n (conj Hlow Hhigh) 20 1)
    as (k & s & Hk & Hs & Hrun); [lia | lia |].
  assert (0 < s) as Hspos.
  { assert (0 < 10 ^ (k - 1)) by (apply Z.pow_pos_nonneg; lia). lia. }
  pose proof (digits_of_length_unique s k Hs ltac:(lia)) as Hlen.
  assert (forall n', n <= n' <= 21 ->
            exists w, parse_signed (trim_start (format_digits (digits_of s) n'))
                      = of_integer w /\ 1000000000000000 <= w) as Hparse.
  { intros n' Hn'. rewrite format_digits_plain, Hlen by lia.
    set (D := digits_of s ++ zeros (n' - k)).
    assert (Forall is_digit D) as HD
      by (apply Forall_app; split; [apply digits_of_are_digits | apply zeros_are_digits]).
    assert (D <> []) as Hne.
    { unfold D. pose proof (digits_of_nonempty s). by destruct (digits_of s). }
    rewrite <- (append_empty_r (string_of_digits D)).
    rewrite trim_start_decimal, parse_signed_decimal
      by auto using ends_number_empty.
    exists (horner 10 D). split; [done|].
    unfold D. rewrite horner_zeros, digits_of_value by lia.
    assert (10 ^ (n' - 1) = 10 ^ (k - 1) * 10 ^ (n' - k)) as Hsplit
      by (rewrite <- Z.pow_add_r by lia; f_equal; lia).
    assert (10 ^ 15 <= 10 ^ (n' - 1)) as Hpow by (apply Z.pow_le_mono_r; lia).
    change (10 ^ 15) with 1000000000000000 in Hpow.
    assert (0 < 10 ^ (n' - k)) by (apply Z.pow_pos_nonneg; lia). nia. }
  destruct Hrun as [-> | [-> Hround]].
  - apply Hparse. lia.
  - apply Hparse. split; [lia|].
    destruct (decide (n = 21)) as [Heq | Hne]; [|lia].
    rewrite Heq in Hround.
    rewrite rounds_to_below_10_21 in Hround; [done | done | done | lia | lia].
Qed.


(** ** Numbers at their edges *)

(** Fractions print with their point and [parseInt] cuts them; from
    10^21 on and below 10^-6 the rendering has an exponent, of which
    [parseInt] reads the first digit. *)
Example fractions_and_exponents :
  number_to_string (Frac 161 1) = "80.5"
  /\ parseInt (VNumber (Frac 161 1)) = Num 80
  /\ number_to_string (Frac (-1) 1) = "-0.5"
  /\ parseInt (VNumber (Frac (-1) 1)) = Num 0
  /\ number_to_string (Frac 3602879701896397 55) = "0.1"
  /\ number_to_string (Frac 4722366482869645 73) = "5e-7"
  /\ parseInt (VNumber (Frac 4722366482869645 73)) = Num 5
  /\ number_to_string (Num 1000000000000000000000) = "1e+21"
  /\ parseInt (VNumber (Num 1000000000000000000000)) = Num 1
  /\ number_to_string (Num 99999999999999991611392) = "1e+23"
  /\ number_to_string (Num 1180591620717411303424) = "1.1805916207174113e+21".
Proof. vm_compute. repeat split. Qed.

(** Above 2^53 integers are rounded to doubles, and a double prints with
    the digits that tell it from its neighbours. *)
Example integers_above_2_53 :
  parseInt (VString "9007199254740993") = Num 9007199254740992
  /\ parseInt (VString "9007199254740995") = Num 9007199254740996
  /\ parseInt (VString "123456789012345678901") = Num 123456789012345683968
  /\ number_to_string (Num 123456789012345683968) = "123456789012345680000"
  /\ parseInt (VNumber (Num 123456789012345683968)) = Num 123456789012345683968
  /\ of_integer (2 ^ 1024) = Infinity false
  /\ parseInt (VNumber (Infinity false)) = NaN.
Proof. vm_compute. repeat split. Qed.


(* ================================================================== *)
(** * Normalization of backend settings *)
(* ================================================================== *)

Lemma normalizeBackendHostObject_fst backend s :
  fst (normalizeBackendHostObject backend s) =
  match normalizeBackendHostFields backend with
  | inl e => inl e
  | inr (h, p, full) =>
      inr {| oid := next_oid s; host := h; port := p; _fullString := full |}
  end.
Proof.
  unfold normalizeBackendHostObject, bind, lift.
  destruct (normalizeBackendHostFields backend) as [e | [[h p] full]]; reflexivity.
Qed.

(** Normalizing never touches an array, and only a success takes an
    object identity. *)
Lemma normalizeBackendHostObject_snd backend s :
  arrays (snd (normalizeBackendHostObject backend s)) = arrays s.
Proof.
  unfold normalizeBackendHostObject, bind, lift.
  destruct (normalizeBackendHostFields backend) as [e | [[h p] full]]; reflexivity.
Qed.

(** The checks of [normalizeBackendHostObject], in terms of the host and
    port the setting is given with. *)
Lemma normalizeBackendHostFields_given backend h p :
  spec_host backend = Some h -> spec_port backend = Some p ->
  normalizeBackendHostFields backend =
  let host := if eq_null h then VString "" else h in
  let port := coerced_port backend p in
  let full := ToString host +:+ ":" +:+ ToString (VNumber port) in
  if le (length_number host) (Num 0) then inl missing_host_error
  else if negb (isValidPort port) then
    inl (ThrowString ("Invalid backend port setting: " +:+ full))
  else inr (host, port, full).
Proof.
  intros Hh Hp. unfold normalizeBackendHostFields, coerced_port.
  destruct backend; try discriminate; cbn in Hh, Hp; simplify_eq;
    cbn [is_string ToString typeof String.eqb negb get_host get_port];
    by destruct (eq_null _).
Qed.

Lemma isValidPort_integer n :
  isValidPort (Num n) = true <-> 1 <= n <= 65535.
Proof.
  unfold isValidPort, gt, le. rewrite andb_true_iff, Z.ltb_lt, Z.leb_le. lia.
Qed.

(** A number of 16 digits or more is no port. *)
Lemma of_integer_large w :
  1000000000000000 <= w -> isValidPort (of_integer w) = false.
Proof.
  intros Hw. unfold of_integer.
  destruct (Z.ltb_spec (Z.abs w) 9007199254740992) as [Hsmall | Hbig].
  - apply not_true_is_false. rewrite isValidPort_integer. lia.
  - rewrite (Z.abs_eq w) in * by lia.
    destruct (to_double w 0) as [[mant ex]|] eqn:Hd; [|by destruct (w <? 0)].
    destruct (to_double_again _ _ _ Hbig Hd) as (Hmant & Hex & _).
    apply not_true_is_false. rewrite isValidPort_integer.
    rewrite Z.sgn_pos by lia.
    assert (2 <= 2 ^ ex)
      by (change 2 with (2 ^ 1) at 1; apply Z.pow_le_mono_r; lia).
    nia.
Qed.

(** ** C8 *)

(** C8, as the code has it.  [normalizeBackendHostObject "host:80"] is
    the backend with host ["host"] and port the integer 80; on
    [{host: "a", port: "80"}] the string port becomes the integer 80;
    the function throws the missing-host message whenever the host given
    is missing or empty; and it throws one of its configuration messages
    whenever the port, once parsed, is 0 or at least 65536, for the port
    of an object always and for the port of a string below 10^21.  But
    not every port above 65535 is refused: the second [parseInt]
    (line 56) reads the number back from its rendering, which from 10^21
    on is in exponent notation, and stops after its first digit.  So the
    setting ["a:99999999999999999999999"], whose port [parseInt] reads
    as a number above 65535, and the object with the port 10^21 are
    accepted, with port 1. *)
Theorem normalize_accepts_and_rejects :
  (forall s,
     fst (normalizeBackendHostObject (VString "host:80") s) =
     inr {| oid := next_oid s; host := VString "host"; port := Num 80;
            _fullString := "host:80" |})
  /\ (forall s,
     fst (normalizeBackendHostObject (VObject (VString "a") (VString "80")) s) =
     inr {| oid := next_oid s; host := VString "a"; port := Num 80;
            _fullString := "a:80" |})
  /\ (forall backend h s,
     spec_host backend = Some h -> host_missing h ->
     fst (normalizeBackendHostObject backend s) = inl missing_host_error)
  /\ (forall backend p n s,
     spec_port backend = Some p -> parseInt p = Num n ->
     n = 0 \/ 65536 <= n ->
     (is_string backend = true -> n < 1000000000000000000000) ->
     is_throw_string (fst (normalizeBackendHostObject backend s)))
  /\ (parseInt (VString "99999999999999999999999") = Num 99999999999999991611392
      /\ forall s,
           fst (normalizeBackendHostObject (VString "a:99999999999999999999999") s) =
           inr {| oid := next_oid s; host := VString "a"; port := Num 1;
                  _fullString := "a:1" |})
  /\ (forall s,
     fst (normalizeBackendHostObject
            (VObject (VString "a") (VNumber (Num 1000000000000000000000))) s) =
     inr {| oid := next_oid s; host := VString "a"; port := Num 1;
            _fullString := "a:1" |}).
Proof.
  split; [reflexivity|]. split; [reflexivity|]. split; [|split; [|split; [split|]]].
  - intros backend h s Hh Hmiss. rewrite normalizeBackendHostObject_fst.
    assert (exists p, spec_port backend = Some p) as [p Hp]
      by (destruct backend; try discriminate; eauto).
    rewrite (normalizeBackendHostFields_given _ _ _ Hh Hp). cbn zeta.
    by destruct Hmiss as [-> | ->].
  - intros backend p n s Hp Hn Hrange Hsmall.
    rewrite normalizeBackendHostObject_fst.
    assert (exists h, spec_host backend = Some h) as [h Hh]
      by (destruct backend; try discriminate; eauto).
    rewrite (normalizeBackendHostFields_given _ _ _ Hh Hp). cbn zeta.
    destruct (le _ _); [by eexists|].
    assert (isValidPort (coerced_port backend p) = false) as ->; [|by eexists].
    assert (isValidPort (Num n) = false) as Hinvalid
      by (apply not_true_is_false; rewrite isValidPort_integer; lia).
    unfold coerced_port. rewrite Hn.
    destruct (is_string backend); [|done]. specialize (Hsmall eq_refl).
    destruct (Z.lt_ge_cases n 9007199254740992) as [Hlt | Hge].
    + by rewrite parseInt_small_integer by lia.
    + destruct (parseInt_large_integer n) as (w & -> & Hw);
        [by eapply parseInt_double | lia | by apply of_integer_large].
  - vm_compute. reflexivity.
  - intros s. rewrite normalizeBackendHostObject_fst.
    by assert (normalizeBackendHostFields (VString "a:99999999999999999999999")
               = inr (VString "a", Num 1, "a:1")) as -> by (vm_compute; reflexivity).
  - intros s. rewrite normalizeBackendHostObject_fst.
    by assert (normalizeBackendHostFields
                 (VObject (VString "a") (VNumber (Num 1000000000000000000000)))
               = inr (VString "a", Num 1, "a:1")) as -> by (vm_compute; reflexivity).
Qed.

Lemma normalize_accepts_and_rejects_witness :
  fst (normalizeBackendHostObject (VString ":80") empty_store) = inl missing_host_error
  /\ is_throw_string
       (fst (normalizeBackendHostObject (VString "a:65536") empty_store)).
Proof.
  destruct normalize_accepts_and_rejects as (_ & _ & Hhost & Hport & _). split.
  - apply (Hhost (VString ":80") (VString "") empty_store); [reflexivity | by right].
  - apply (Hport (VString "a:65536") (VString "65536") 65536 empty_store);
      [reflexivity | reflexivity | lia | intros _; lia].
Defined.

(** ** C2 *)

(** The loop runs from the last index down: it stops at the invalid
    element of highest index below [n]. *)
Lemma normalize_loop_throws arr r n i e s :
  (i < n)%nat ->
  normalizeBackendHostFields (value_at arr i) = inl e ->
  (forall j, (i < j < n)%nat -> valid_spec (value_at arr j)) ->
  fst (normalize_loop arr r n s) = inl e.
Proof.
  revert s. induction n as [|n IH]; intros s Hi He Hvalid; [lia|].
  cbn [normalize_loop]. unfold bind at 1.
  pose proof (normalizeBackendHostObject_fst (value_at arr n) s) as Hfst.
  destruct (normalizeBackendHostObject (value_at arr n) s) as [[e' | b] s1] eqn:Hn;
    cbn [fst] in Hfst.
  - destruct (decide (i = n)) as [-> | Hne].
    + rewrite He in Hfst. by simplify_eq.
    + destruct (Hvalid n ltac:(lia)) as [[[h p] full] Hok].
      rewrite Hok in Hfst. discriminate.
  - destruct (decide (i = n)) as [-> | Hne].
    + rewrite He in Hfst. discriminate.
    + unfold bind, array_set. apply IH; [lia | done |].
      intros j Hj. apply Hvalid. lia.
Qed.

(** The recursive call of [normalizeBackendHostObjectArray] happens at
    most once: the innermost function of the definition is never
    reached, whatever is put there. *)
Lemma normalizeBackendHostObjectArray_fix (self : value -> M ref) backendArr :
  normalizeBackendHostObjectArray_body
    (normalizeBackendHostObjectArray_body self) backendArr
  = normalizeBackendHostObjectArray backendArr.
Proof.
  unfold normalizeBackendHostObjectArray, normalizeBackendHostObjectArray_body.
  destruct backendArr; reflexivity.
Qed.

(** C2, as the code has it.  When a non-empty array of settings holds an
    invalid element, [normalizeBackendHostObjectArray] throws what the
    invalid element of HIGHEST index throws when normalized on its own
    (the loop runs from the end of the array); what an element throws
    depends on that element alone. *)
Theorem normalizeAll_throws_last_invalid arr i e s :
  (i < length arr)%nat ->
  normalizeBackendHostFields (value_at arr i) = inl e ->
  (forall j, (i < j < length arr)%nat -> valid_spec (value_at arr j)) ->
  fst (normalizeBackendHostObjectArray (VArray arr) s) = inl e
  /\ forall s', fst (normalizeBackendHostObject (value_at arr i) s') = inl e.
Proof.
  intros Hi He Hvalid. split.
  - unfold normalizeBackendHostObjectArray, normalizeBackendHostObjectArray_body.
    cbn [eq_null length_number le orb].
    destruct (Z.leb_spec (Z.of_nat (length arr)) 0) as [Hlen | _]; [lia|].
    unfold bind at 1. cbn [new_array]. unfold bind at 1.
    match goal with
    | |- context [normalize_loop arr ?r ?n ?s1] =>
        pose proof (normalize_loop_throws arr r n i e s1 Hi He Hvalid) as Hloop;
        destruct (normalize_loop arr r n s1) as [[e' | []] s2]
    end; cbn [fst] in *; congruence.
  - intros s'. rewrite normalizeBackendHostObject_fst. by rewrite He.
Qed.

Lemma normalizeAll_throws_last_invalid_witness :
  fst (normalizeBackendHostObjectArray
         (VArray [VString ":80"; VString "b:0"; VString "c:3"]) empty_store)
  = inl (ThrowString "Invalid backend port setting: b:0")
  /\ forall s', fst (normalizeBackendHostObject (VString "b:0") s')
                = inl (ThrowString "Invalid backend port setting: b:0").
Proof.
  apply (normalizeAll_throws_last_invalid
           [VString ":80"; VString "b:0"; VString "c:3"] 1).
  - cbn. lia.
  - reflexivity.
  - intros j Hj. cbn in Hj. assert (j = 2%nat) as -> by lia.
    eexists. reflexivity.
Defined.

(** C2 as stated fails: in [[":80", "b:0"]] the first invalid element is
    [":80"], which throws the missing-host message, and the array
    function throws the message of ["b:0"] instead. *)
Lemma normalizeAll_first_invalid_counterexample :
  normalizeBackendHostFields (value_at [VString ":80"; VString "b:0"] 0)
    = inl missing_host_error
  /\ fst (normalizeBackendHostObjectArray
            (VArray [VString ":80"; VString "b:0"]) empty_store)
     <> inl missing_host_error.
Proof. split; [reflexivity | vm_compute; discriminate]. Qed.

(** ** The arrays a proxy holds have a backend in every slot *)

Lemma list_set_first i x : list_set [] i x = replicate i None ++ [x].
Proof. unfold list_set. cbn. by rewrite Nat.sub_0_r. Qed.

Lemma list_set_fill i x (tail : list slot) :
  list_set (replicate (S i) None ++ tail) i x = replicate i None ++ x :: tail.
Proof.
  unfold list_set. rewrite length_app, length_replicate.
  destruct (Nat.ltb_spec i (S i + length tail)) as [_ | ?]; [|lia].
  rewrite replicate_S_end, <- app_assoc.
  rewrite insert_app_r_alt by (rewrite length_replicate; lia).
  rewrite length_replicate, Nat.sub_diag. reflexivity.
Qed.

(** The loop fills [ret] from its last index down to index 0. *)
Lemma normalize_loop_fills arr r n : forall s s',
  normalize_loop arr r n s = (inr tt, s') ->
  contents s r = []
  \/ (exists bs : list Backend, contents s r = replicate n None ++ (Some <$> bs)) ->
  no_holes (contents s' r).
Proof.
  induction n as [|n IH]; intros s s' Hrun Hshape.
  - injection Hrun as <-.
    destruct Hshape as [-> | [bs ->]]; [by exists [] | by exists bs].
  - cbn [normalize_loop] in Hrun. unfold bind at 1 in Hrun.
    pose proof (normalizeBackendHostObject_snd (value_at arr n) s) as Harr.
    destruct (normalizeBackendHostObject (value_at arr n) s) as [[e | b] s1];
      [discriminate|].
    cbn [snd] in Harr. unfold bind at 1, array_set in Hrun.
    apply IH in Hrun; [done|]. right.
    unfold contents at 1. cbn. rewrite lookup_insert_eq. cbn.
    unfold contents. rewrite Harr. fold (contents s r).
    destruct Hshape as [-> | [bs ->]].
    + exists [b]. apply list_set_first.
    + exists (b :: bs). apply list_set_fill.
Qed.

Lemma normalizeBackendHostObjectArray_no_holes backendArr s r s' :
  normalizeBackendHostObjectArray backendArr s = (inr r, s') ->
  no_holes (contents s' r).
Proof.
  assert (forall arr, (let* r := new_array [] in
                       do normalize_loop arr r (length arr) in ret r) s
                      = (inr r, s') -> no_holes (contents s' r)) as Harray.
  { intros arr. unfold bind at 1. cbn [new_array]. unfold bind at 1.
    destruct (normalize_loop arr _ _ _) as [[e | []] s1] eqn:Hloop; [discriminate|].
    unfold ret. intros [= <- <-].
    eapply normalize_loop_fills; [exact Hloop|]. left.
    unfold contents. cbn. by rewrite lookup_insert_eq. }
  unfold normalizeBackendHostObjectArray, normalizeBackendHostObjectArray_body.
  destruct (eq_null backendArr || le (length_number backendArr) (Num 0));
    [discriminate|].
  destruct backendArr; try apply Harray;
    (destruct (eq_null _ || le _ _); [discriminate | apply Harray]).
Qed.

(* ================================================================== *)
(** * Constructor options *)
(* ================================================================== *)

(** C10. Whenever [connectTimeout] is absent or falsy (0 among them),
    the proxy that [_processOptObject] sets up has [_connectTimeout]
    2500: a timeout of 0 is never stored. *)
Theorem connectTimeout_falsy_default S2N opt s this :
  ToBoolean (opt_connectTimeout opt) = false ->
  fst (_processOptObject S2N opt s) = inr this ->
  ToBoolean VUndefined = false /\ ToBoolean (VNumber (Num 0)) = false
  /\ _connectTimeout this = VNumber (Num 2500).
Proof.
  intros Hfalsy Hok. split; [reflexivity|]. split; [reflexivity|].
  unfold _processOptObject in Hok.
  destruct (negb _); [discriminate|].
  unfold bind in Hok.
  destruct (normalizeBackendHostObjectArray _ s) as [[e | r] s1]; [discriminate|].
  cbn in Hok. simplify_eq. cbn. unfold or_else. by rewrite Hfalsy.
Qed.

(* ================================================================== *)
(** * The scan *)
(* ================================================================== *)

Section ScanFacts.

Variable s : store.

Lemma set_scanPos_same st : set_scanPos (scanPos st) st = st.
Proof. by destruct st. Qed.

Lemma recursiveScan_gas_returns gas st st' :
  recursiveScan_gas gas s st = Some st' -> scan_returns s st st'.
Proof.
  revert st st'. induction gas as [|gas IH]; intros st st' Hrun; [discriminate|].
  cbn [recursiveScan_gas] in Hrun.
  destruct (Nat.ltb_spec (length (contents s (scanList st))) (scanPos st))
    as [Hpast | Hin].
  - simplify_eq.
    assert (forall j, (scanPos st <= j)%nat ->
              mjoin (contents s (scanList st) !! j) = None) as Hskip.
    { intros j Hj. rewrite lookup_ge_None_2; [done | lia]. }
    pose proof (returns_exhausted s st Hskip) as Hret. cbn zeta in Hret.
    rewrite Nat.max_l in Hret by lia. by rewrite set_scanPos_same in Hret.
  - destruct (mjoin (contents s (scanList st) !! scanPos st)) as [b|] eqn:Hslot.
    + simplify_eq. constructor; [done | | intros; lia].
      destruct (contents s (scanList st) !! scanPos st) as [[?|]|];
        cbn in Hslot; by simplify_eq.
    + apply IH in Hrun.
      inversion Hrun as [p Hskip | i b Hi Hb Hskip]; cbn in *.
      * assert (forall j, (scanPos st <= j)%nat ->
                  mjoin (contents s (scanList st) !! j) = None) as Hskip'.
        { intros j Hj. destruct (decide (j = scanPos st)) as [-> | Hne];
            [done | apply Hskip; lia]. }
        pose proof (returns_exhausted s st Hskip') as Hret. cbn zeta in Hret.
        replace (Nat.max (scanPos st) (S (length (contents s (scanList st)))))
          with p in Hret by (subst p; lia).
        exact Hret.
      * change (set_scanPos (S i) (set_scanPos (S (scanPos st)) st))
          with (set_scanPos (S i) st).
        constructor; [lia | done |].
        intros j Hj. destruct (decide (j = scanPos st)) as [-> | Hne];
          [done | apply Hskip; lia].
Qed.

(** [recursiveScan] returns: the gas of [scan_gas] is enough. *)
Lemma recursiveScan_gas_total gas st :
  (S (length (contents s (scanList st))) - scanPos st < gas)%nat ->
  is_Some (recursiveScan_gas gas s st).
Proof.
  revert st. induction gas as [|gas IH]; intros st Hgas; [lia|].
  cbn [recursiveScan_gas].
  destruct (Nat.ltb_spec (length (contents s (scanList st))) (scanPos st));
    [by eexists|].
  destruct (mjoin _); [by eexists|].
  apply IH. cbn. lia.
Qed.

Lemma recursiveScan_total st : is_Some (recursiveScan s st).
Proof. apply recursiveScan_gas_total. unfold scan_gas. lia. Qed.

Lemma recursiveScan_returns st st' :
  recursiveScan s st = Some st' -> scan_returns s st st'.
Proof. apply recursiveScan_gas_returns. Qed.

End ScanFacts.

Section Completion.

Variable s : store.

Lemma settled_running st : settled st -> running st.
Proof. unfold settled, running. destruct (callback st); tauto. Qed.


Lemma triggerCallback_settled sock e st :
  running st -> settled (triggerCallback sock e st).
Proof.
  unfold running, settled, triggerCallback.
  destruct (callback st); cbn; [intros -> | ]; done.
Qed.


Lemma scan_returns_settled st st' :
  scan_returns s st st' -> running st -> settled st'.
Proof.
  intros [p _ | i b _ _ _] Hst; [by apply triggerCallback_settled |].
  unfold running, settled in *. cbn. destruct (callback st); [|done].
  split; [done|]. by destruct (pending st).
Qed.

Lemma on_connect_total backend sock e st : is_Some (on_connect s backend sock e st).
Proof.
  unfold on_connect.
  destruct sock, e; eauto using recursiveScan_total.
Qed.


Lemma on_connect_settled backend sock e st st' :
  on_connect s backend sock e st = Some st' -> running st -> settled st'.
Proof.
  unfold on_connect. intros Hrun Hst.
  destruct sock as [h|], e as [msg|];
    try (apply recursiveScan_returns in Hrun; by eapply scan_returns_settled);
    simplify_eq; by apply triggerCallback_settled.
Qed.

Lemma deliver_total a st : is_Some (deliver s a st).
Proof.
  unfold deliver. destruct (pending st !! target a);
    eauto using on_connect_total.
Qed.


Lemma deliver_settled a st st' :
  deliver s a st = Some st' -> settled st -> settled st'.
Proof.
  unfold deliver. destruct (pending st !! target a) as [b|]; intros Hrun Hst;
    [|by simplify_eq].
  eapply on_connect_settled; [exact Hrun|].
  apply settled_running in Hst. by destruct (final a).
Qed.

Lemma deliver_all_total answers st : is_Some (deliver_all s answers st).
Proof.
  revert st. induction answers as [|a answers IH]; intros st; cbn; [by eexists|].
  destruct (deliver_total a st) as [st' ->]. apply IH.
Qed.



Lemma triggerCallback_work_left sock e st :
  work_left s (triggerCallback sock e st) = work_left s st.
Proof. unfold work_left, triggerCallback. by destruct (callback st). Qed.

Lemma scan_returns_work_left st st' :
  scan_returns s st st' -> (work_left s st' <= work_left s st)%nat.
Proof.
  intros [p _ | i b Hi Hb _].
  - rewrite triggerCallback_work_left. unfold work_left. cbn. lia.
  - apply lookup_lt_Some in Hb. unfold work_left. cbn.
    rewrite length_app. cbn. lia.
Qed.

(** A connector that answers every attempt brings the scan to rest. *)
Lemma drive_settles net gas st :
  settled st -> (work_left s st <= gas)%nat ->
  exists st', drive net gas s st = Some st' /\ pending st' = [] /\ settled st'.
Proof.
  revert st. induction gas as [|gas IH]; intros st Hst Hgas.
  - unfold work_left in Hgas. destruct st as [cb p r [|b rest] cs ds];
      cbn in *; [eauto | lia].
  - destruct (pending st) as [|b rest] eqn:Hpend.
    { exists st. destruct gas; cbn; rewrite Hpend; eauto. }
    cbn [drive]. rewrite Hpend.
    destruct (net _ b) as [sock e].
    destruct (deliver_total {| target := 0; socket := sock; err := e; final := true |} st)
      as [st1 Hstep].
    rewrite Hstep. apply IH; [by eapply deliver_settled|].
    unfold deliver in Hstep. rewrite Hpend in Hstep. cbn in Hstep.
    assert (work_left s (set_pending rest st) < work_left s st)%nat as Hpop
      by (unfold work_left; rewrite Hpend; cbn; lia).
    unfold on_connect in Hstep.
    destruct sock as [h|], e as [msg|];
      try (apply recursiveScan_returns, scan_returns_work_left in Hstep; lia).
    simplify_eq. rewrite triggerCallback_work_left. lia.
Qed.

End Completion.

(* ================================================================== *)
(** * Probing a list of backends *)
(* ================================================================== *)

Lemma scanAndConnectToValidBackend_unfold backendArr cb s :
  scanAndConnectToValidBackend backendArr cb s =
  (inr (recursiveScan (after_snapshot s backendArr) (initial cb (snapshot_ref s))),
   after_snapshot s backendArr).
Proof. reflexivity. Qed.

Lemma snapshot_ref_fresh s : arrays s !! snapshot_ref s = None.
Proof. unfold snapshot_ref. apply (not_elem_of_dom (D := gset nat)), is_fresh. Qed.

Lemma contents_snapshot s backendArr :
  contents (after_snapshot s backendArr) (snapshot_ref s) = contents s backendArr.
Proof. unfold contents at 1, after_snapshot. cbn. by rewrite lookup_insert_eq. Qed.

Lemma triggerCallback_scanList sock e st :
  scanList (triggerCallback sock e st) = scanList st.
Proof. unfold triggerCallback. by destruct (callback st). Qed.

Lemma scan_returns_scanList s st st' :
  scan_returns s st st' -> scanList st' = scanList st.
Proof. intros [p _ | i b _ _ _]; [by rewrite triggerCallback_scanList | done]. Qed.

Lemma on_connect_connected s backend sock e st :
  on_connect s backend sock e st =
  match connected (sock, e) with
  | Some h => Some (triggerCallback (Some {| handle := h; _backend := Some backend |}) None st)
  | None => recursiveScan s st
  end.
Proof. by destruct sock, e. Qed.

(** ** C7 *)


(** ** Arrays that hold a backend in every slot *)

Section Sequential.

Variable s : store.
Variable r : ref.
Variable bs : list Backend.
Hypothesis Hlist : contents s r = Some <$> bs.

Variable net : Connector.

Lemma slot_lookup i : mjoin (contents s r !! i) = bs !! i.
Proof. rewrite Hlist, list_lookup_fmap. by destruct (bs !! i). Qed.

Lemma recursiveScan_idle k :
  (k <= length bs)%nat ->
  recursiveScan s (idle r bs k) =
  Some (match bs !! k with
        | Some b => attempting r bs k b
        | None => exhausted r bs
        end).
Proof.
  intros Hk. destruct (recursiveScan_total s (idle r bs k)) as [st' Hrun].
  rewrite Hrun. f_equal. apply recursiveScan_returns in Hrun.
  inversion Hrun as [p Hskip | i b Hi Hb Hskip]; cbn in *.
  - pose proof (Hskip k ltac:(lia)) as Hnone. rewrite slot_lookup in Hnone.
    rewrite Hnone. apply lookup_ge_None_1 in Hnone.
    assert (k = length bs) as -> by lia.
    subst p. rewrite Hlist, length_fmap.
    rewrite Nat.max_r by lia.
    unfold exhausted, triggerCallback, set_callback, call_callback,
      set_scanPos, idle. cbn.
    by rewrite firstn_all.
  - assert (i = k) as ->.
    { destruct (decide (i = k)) as [|Hne]; [done|].
      pose proof (Hskip k ltac:(lia)) as Hnone. rewrite slot_lookup in Hnone.
      pose proof (f_equal mjoin Hb) as Hsome. rewrite slot_lookup in Hsome.
      cbn in Hsome. apply lookup_ge_None_1 in Hnone.
      apply lookup_lt_Some in Hsome. lia. }
    pose proof (f_equal mjoin Hb) as Hsome. rewrite slot_lookup in Hsome.
    cbn in Hsome. rewrite Hsome.
    unfold attempting, netSocketConnect, set_scanPos, idle. cbn.
    by rewrite (take_S_r _ _ _ Hsome).
Qed.

Lemma deliver_attempting k b sock e :
  deliver s {| target := 0; socket := sock; err := e; final := true |}
    (attempting r bs k b) =
  match connected (sock, e) with
  | Some h => Some (succeeded r bs k b h)
  | None => recursiveScan s (idle r bs (S k))
  end.
Proof.
  unfold deliver. cbn [target final socket err].
  change (pending (attempting r bs k b) !! 0%nat) with (Some b).
  change (set_pending (delete 0%nat (pending (attempting r bs k b))) (attempting r bs k b))
    with (idle r bs (S k)).
  cbv beta iota. rewrite on_connect_connected.
  by destruct (connected (sock, e)).
Qed.

Lemma drive_step gas k b :
  bs !! k = Some b ->
  drive net (S gas) s (attempting r bs k b) =
  match connected (net k b) with
  | Some h => Some (succeeded r bs k b h)
  | None =>
      match bs !! S k with
      | Some b' => drive net gas s (attempting r bs (S k) b')
      | None => Some (exhausted r bs)
      end
  end.
Proof.
  intros Hb. cbn [drive attempting pending connects].
  pose proof (lookup_lt_Some _ _ _ Hb) as Hk.
  rewrite length_take, Nat.min_l by lia.
  replace (S k - 1)%nat with k by lia.
  destruct (net k b) as [sock e] eqn:Hnet.
  rewrite deliver_attempting.
  destruct (connected (sock, e)); [by destruct gas|].
  rewrite recursiveScan_idle by lia.
  destruct (bs !! S k); [done | by destruct gas].
Qed.

(** All attempts from [k] on fail. *)
Lemma drive_all_fail n : forall k b gas,
  (k + n = length bs)%nat -> bs !! k = Some b ->
  (forall i b', (k <= i)%nat -> bs !! i = Some b' -> connected (net i b') = None) ->
  (n <= gas)%nat ->
  drive net gas s (attempting r bs k b) = Some (exhausted r bs).
Proof.
  induction n as [|n IH]; intros k b gas Hkn Hb Hfail Hgas.
  - apply lookup_lt_Some in Hb. lia.
  - destruct gas as [|gas]; [lia|].
    rewrite drive_step, (Hfail k b) by done.
    destruct (bs !! S k) as [b'|] eqn:Hnext; [|done].
    apply IH; [lia | done | | lia].
    intros i b'' Hi. apply Hfail. lia.
Qed.

(** The attempts from [k] on fail until attempt [k + m] connects. *)
Lemma drive_first_success m : forall k b gas bm h,
  bs !! k = Some b -> bs !! (k + m)%nat = Some bm ->
  connected (net (k + m)%nat bm) = Some h ->
  (forall i b', (k <= i < k + m)%nat -> bs !! i = Some b' ->
                connected (net i b') = None) ->
  (m < gas)%nat ->
  drive net gas s (attempting r bs k b) = Some (succeeded r bs (k + m) bm h).
Proof.
  induction m as [|m IH]; intros k b gas bm h Hb Hbm Hok Hfail Hgas;
    (destruct gas as [|gas]; [lia|]); rewrite drive_step by done.
  - rewrite Nat.add_0_r in *. simplify_eq. by rewrite Hok.
  - rewrite (Hfail k b) by (done || lia).
    replace (k + S m)%nat with (S k + m)%nat in * by lia.
    destruct (bs !! S k) as [b'|] eqn:Hnext.
    + eapply IH; [done | done | done | | lia].
      intros i b'' Hi. apply Hfail. lia.
    + apply lookup_ge_None_1 in Hnext. apply lookup_lt_Some in Hbm. lia.
Qed.

End Sequential.

Lemma probe_unfold net backendArr s :
  fst (probe net backendArr s) =
  inr (match recursiveScan (after_snapshot s backendArr)
               (initial true (snapshot_ref s)) with
       | Some st =>
           drive net
             (S (length (contents (after_snapshot s backendArr) (scanList st))))
             (after_snapshot s backendArr) st
       | None => None
       end).
Proof. reflexivity. Qed.

(** ** C5 *)

(** C5. When the first backend the connector reaches is at index [k] of
    the list, the probe asks for exactly [k + 1] connections, those to
    the backends at indices 0 to [k] in that order and none further, and
    it hands the callback the socket of candidate [k], tagged with that
    backend. *)
Theorem probe_first_reachable net backendArr s bs k b h :
  contents s backendArr = Some <$> bs ->
  bs !! k = Some b ->
  connected (net k b) = Some h ->
  (forall i b', (i < k)%nat -> bs !! i = Some b' -> connected (net i b') = None) ->
  exists st,
    fst (probe net backendArr s) = inr (Some st)
    /\ connects st = take (S k) bs
    /\ length (connects st) = S k
    /\ pending st = []
    /\ delivered st = [(Some {| handle := h; _backend := Some b |}, None)].
Proof.
  intros Hlist Hb Hok Hfail.
  set (s1 := after_snapshot s backendArr). set (r1 := snapshot_ref s).
  assert (contents s1 r1 = Some <$> bs) as Hlist1
    by (subst s1 r1; by rewrite contents_snapshot).
  pose proof (lookup_lt_Some _ _ _ Hb) as Hk.
  exists (succeeded r1 bs k b h). rewrite probe_unfold. fold s1 r1.
  change (initial true r1) with (idle r1 bs 0).
  rewrite (recursiveScan_idle s1 r1 bs Hlist1) by lia.
  destruct (bs !! 0%nat) as [b0|] eqn:Hb0;
    [|apply lookup_ge_None_1 in Hb0; lia].
  cbn [scanList attempting]. rewrite Hlist1, length_fmap.
  rewrite (drive_first_success s1 r1 bs Hlist1 net k 0 b0 (S (length bs)) b h);
    try done; try lia.
  - repeat split; cbn. rewrite length_take. lia.
  - intros i b' Hi. apply Hfail. lia.
Qed.

(** ** C1 *)

(** C1, as the code has it.  When every attempt fails, the probe asks
    for one connection to each backend of the list, in list order, and
    then calls the callback with no socket and the message of
    exhaustion; the number of tries the message reports is [N + 1], [N]
    being the length of the list: one more than the attempts made. *)
Theorem probe_all_down net backendArr s bs :
  contents s backendArr = Some <$> bs ->
  (forall i b, bs !! i = Some b -> connected (net i b) = None) ->
  exists st msg,
    fst (probe net backendArr s) = inr (Some st)
    /\ connects st = bs
    /\ pending st = []
    /\ delivered st = [(None, Some msg)]
    /\ msg = exhausted_message (S (length bs))
    /\ reported_tries msg = Num (Z.of_nat (length bs) + 1).
Proof.
  intros Hlist Hfail.
  set (s1 := after_snapshot s backendArr). set (r1 := snapshot_ref s).
  assert (contents s1 r1 = Some <$> bs) as Hlist1
    by (subst s1 r1; by rewrite contents_snapshot).
  exists (exhausted r1 bs), (exhausted_message (S (length bs))).
  rewrite reported_tries_exhausted_message, probe_unfold. fold s1 r1.
  change (initial true r1) with (idle r1 bs 0).
  rewrite (recursiveScan_idle s1 r1 bs Hlist1) by lia.
  assert (Z.of_nat (S (length bs)) = Z.of_nat (length bs) + 1) as -> by lia.
  destruct (bs !! 0%nat) as [b0|] eqn:Hb0; [|done].
  cbn [scanList attempting]. rewrite Hlist1, length_fmap.
  rewrite (drive_all_fail s1 r1 bs Hlist1 net (length bs) 0 b0); try done; try lia.
  intros i b' _. apply Hfail.
Qed.

(* ================================================================== *)
(** * Arrays in the store *)
(* ================================================================== *)

Lemma new_array_spec l s :
  exists r s',
    new_array l s = (inr r, s')
    /\ arrays s !! r = None
    /\ arrays s' = <[r := l]> (arrays s)
    /\ next_oid s' = next_oid s.
Proof.
  eexists _, _. split; [reflexivity|]. split; [|done].
  apply (not_elem_of_dom (D := gset nat)), is_fresh.
Qed.

Lemma lookup_after_insert (m : gmap nat (list slot)) r l r' :
  m !! r = None -> is_Some (m !! r') -> <[r := l]> m !! r' = m !! r'.
Proof.
  intros Hfresh [x Hx]. apply lookup_insert_ne. intros ->. congruence.
Qed.

Lemma index_from_list_find i l target :
  index_from i l target =
  match list_find (is_object target) l with
  | Some (k, _) => i + Z.of_nat k
  | None => -1
  end.
Proof.
  revert i. induction l as [|x l IH]; intros i; [reflexivity|].
  cbn [index_from list_find]. destruct x as [y|].
  - unfold same_object. destruct (decide (is_object target (Some y))) as [Hy | Hy].
    + rewrite bool_decide_eq_true_2 by (by injection Hy). lia.
    + rewrite bool_decide_eq_false_2
        by (intros Heq; apply Hy; unfold is_object; cbn; by f_equal).
      rewrite IH. destruct (list_find _ l) as [[k z]|]; cbn; lia.
  - destruct (decide (is_object target None)) as [Hy | _]; [discriminate|].
    rewrite IH. destruct (list_find _ l) as [[k z]|]; cbn; lia.
Qed.

Lemma indexOf_list_find l target :
  indexOf l target =
  match list_find (is_object target) l with
  | Some (k, _) => Z.of_nat k
  | None => -1
  end.
Proof.
  unfold indexOf. rewrite index_from_list_find.
  by destruct (list_find _ l) as [[k z]|].
Qed.

(** ** What a rotation does to the store and to the instance *)

Lemma rotate_skip this target s :
  indexOf (contents s (_backendList this)) target <= 0 ->
  _rotateBackendList this target s = (inr this, s).
Proof.
  intros Hidx. unfold _rotateBackendList.
  by destruct (Z.leb_spec (indexOf (contents s (_backendList this)) target) 0); [|lia].
Qed.

Lemma rotate_turn this target s idx :
  indexOf (contents s (_backendList this)) target = Z.of_nat (S idx) ->
  exists r s',
    _rotateBackendList this target s = (inr (set_backendList r this), s')
    /\ arrays s !! r = None
    /\ contents s' r = rotated_at (S idx) (contents s (_backendList this))
    /\ (forall r', is_Some (arrays s !! r') -> arrays s' !! r' = arrays s !! r')
    /\ next_oid s' = next_oid s.
Proof.
  intros Hidx. unfold _rotateBackendList. rewrite Hidx.
  destruct (Z.leb_spec (Z.of_nat (S idx)) 0) as [|_]; [lia|].
  rewrite Nat2Z.id.
  assert (is_Some (arrays s !! _backendList this)) as Hlist.
  { destruct (arrays s !! _backendList this) eqn:Hlk; [by eexists|].
    unfold indexOf, contents in Hidx. rewrite Hlk in Hidx. cbn in Hidx. lia. }
  set (l := contents s (_backendList this)).
  unfold bind at 1, slice. fold l.
  destruct (new_array_spec (take (S idx - 0) (drop 0 l)) s)
    as (r1 & s1 & -> & Hr1 & Hs1 & Hn1).
  assert (contents s1 (_backendList this) = l) as Hl1.
  { unfold contents. rewrite Hs1. by rewrite lookup_after_insert. }
  unfold bind at 1, slice_from. rewrite Hl1.
  destruct (new_array_spec (drop (S idx) l) s1)
    as (r2 & s2 & -> & Hr2 & Hs2 & Hn2).
  unfold bind at 1, concat.
  assert (r1 <> r2) as Hne.
  { intros <-. rewrite Hs1, lookup_insert_eq in Hr2. discriminate. }
  assert (contents s2 r2 = drop (S idx) l) as ->
    by (unfold contents; by rewrite Hs2, lookup_insert_eq).
  assert (contents s2 r1 = take (S idx) l) as ->.
  { unfold contents. rewrite Hs2, lookup_insert_ne by done.
    by rewrite Hs1, lookup_insert_eq. }
  destruct (new_array_spec (drop (S idx) l ++ take (S idx) l) s2)
    as (r3 & s3 & -> & Hr3 & Hs3 & Hn3).
  exists r3, s3. split; [reflexivity|].
  assert (forall r', is_Some (arrays s !! r') -> arrays s2 !! r' = arrays s !! r')
    as Hkeep2.
  { intros r' Hr'.
    assert (arrays s1 !! r' = arrays s !! r') as Hr1'
      by (by rewrite Hs1, lookup_after_insert).
    rewrite Hs2, lookup_after_insert; [done | done | by rewrite Hr1']. }
  assert (forall r', is_Some (arrays s !! r') -> arrays s3 !! r' = arrays s !! r')
    as Hkeep.
  { intros r' Hr'. rewrite Hs3, lookup_after_insert; [by apply Hkeep2 | done |].
    by rewrite Hkeep2. }
  repeat split.
  - destruct (arrays s !! r3) as [x|] eqn:Hx; [|done].
    rewrite <- (Hkeep2 r3) in Hx by (by rewrite Hx). congruence.
  - unfold contents at 1. by rewrite Hs3, lookup_insert_eq.
  - exact Hkeep.
  - congruence.
Qed.

Lemma rotate_cases this target s :
  exists this' s',
    _rotateBackendList this target s = (inr this', s')
    /\ (forall r, is_Some (arrays s !! r) -> arrays s' !! r = arrays s !! r)
    /\ match list_find (is_object target) (contents s (_backendList this)) with
       | Some (S idx, _) =>
           arrays s !! _backendList this' = None
           /\ contents s' (_backendList this')
              = rotated_at (S idx) (contents s (_backendList this))
       | _ => this' = this /\ s' = s
       end.
Proof.
  pose proof (indexOf_list_find (contents s (_backendList this)) target) as Hidx.
  destruct (list_find _ _) as [[[|idx] x]|].
  - exists this, s. by rewrite rotate_skip by lia.
  - destruct (rotate_turn this target s idx Hidx) as (r & s' & -> & Hr & Hl & Hkeep & _).
    by exists (set_backendList r this), s'.
  - exists this, s. by rewrite rotate_skip by lia.
Qed.

(** A rotation keeps a backend in every slot. *)
Lemma rotate_no_holes this target s this' s' :
  _rotateBackendList this target s = (inr this', s') ->
  no_holes (contents s (_backendList this)) ->
  no_holes (contents s' (_backendList this')).
Proof.
  intros Hrun [bs Hbs].
  destruct (rotate_cases this target s) as (this1 & s1 & Hrun1 & _ & Hcase).
  rewrite Hrun in Hrun1. simplify_eq.
  destruct (list_find _ _) as [[[|idx] x]|];
    [destruct Hcase as [-> ->]; by exists bs | | destruct Hcase as [-> ->]; by exists bs].
  destruct Hcase as [_ ->]. exists (drop (S idx) bs ++ take (S idx) bs).
  unfold rotated_at. by rewrite Hbs, fmap_app, fmap_drop, fmap_take.
Qed.

(** ** C3 *)

(** C3, as the code has it.  [_rotateBackendList] looks the target up
    with [indexOf], that is by identity of the object: when no entry is
    the target object itself, or the first that is sits at index 0,
    neither the instance nor the store changes; otherwise, the first
    such entry being at [idx], the list becomes
    [list[idx..end) ++ list[0..idx)]. *)
Theorem rotate_by_identity this target s :
  exists this' s',
    _rotateBackendList this target s = (inr this', s')
    /\ match list_find (is_object target) (contents s (_backendList this)) with
       | Some (S idx, _) =>
           contents s' (_backendList this')
           = drop (S idx) (contents s (_backendList this))
             ++ take (S idx) (contents s (_backendList this))
       | _ => this' = this /\ s' = s
       end.
Proof.
  destruct (rotate_cases this target s) as (this' & s' & Hrun & _ & Hcase).
  exists this', s'. split; [done|].
  destruct (list_find _ _) as [[[|idx] x]|]; [done | by destruct Hcase | done].
Qed.

(** ** C6 *)

Lemma rotate_permutation this target s this' s' :
  _rotateBackendList this target s = (inr this', s') ->
  contents s' (_backendList this') ≡ₚ contents s (_backendList this).
Proof.
  intros Hrun.
  destruct (rotate_cases this target s) as (this1 & s1 & Hrun1 & _ & Hcase).
  rewrite Hrun in Hrun1. simplify_eq.
  destruct (list_find _ _) as [[[|idx] x]|];
    [by destruct Hcase as [-> ->] | | by destruct Hcase as [-> ->]].
  destruct Hcase as [_ ->]. unfold rotated_at.
  rewrite Permutation_app_comm. by rewrite take_drop.
Qed.

Lemma rotate_keeps_arrays this target s this' s' r :
  _rotateBackendList this target s = (inr this', s') ->
  allocated s r ->
  arrays s' !! r = arrays s !! r.
Proof.
  intros Hrun Hr.
  destruct (rotate_cases this target s) as (this1 & s1 & Hrun1 & Hkeep & _).
  rewrite Hrun in Hrun1. simplify_eq. by apply Hkeep.
Qed.

(** C6. The list after a rotation is a permutation of the list before
    (so it has the same length, and no duplicates if there were none),
    and every array that existed before the rotation, the previous list
    among them, still holds the same elements. *)
Theorem rotate_permutes_and_copies this target s :
  exists this' s',
    _rotateBackendList this target s = (inr this', s')
    /\ contents s' (_backendList this') ≡ₚ contents s (_backendList this)
    /\ length (contents s' (_backendList this'))
       = length (contents s (_backendList this))
    /\ (NoDup (contents s (_backendList this)) ->
        NoDup (contents s' (_backendList this')))
    /\ (forall r, allocated s r ->
          arrays s' !! r = arrays s !! r /\ contents s' r = contents s r).
Proof.
  destruct (rotate_cases this target s) as (this' & s' & Hrun & _ & _).
  exists this', s'. split; [done|].
  pose proof (rotate_permutation _ _ _ _ _ Hrun) as Hperm.
  repeat split.
  - exact Hperm.
  - by rewrite Hperm.
  - by rewrite Hperm.
  - by eapply rotate_keeps_arrays.
  - unfold contents. by erewrite rotate_keeps_arrays.
Qed.

(** Any number of rotations, one after the other, leave a permutation
    of the first list, and the arrays that existed at the start as they
    were. *)
Lemma rotate_all_permutes targets : forall this s,
  contents (rotate_all targets this s).2 (_backendList (rotate_all targets this s).1)
    ≡ₚ contents s (_backendList this)
  /\ forall r, allocated s r ->
       arrays (rotate_all targets this s).2 !! r = arrays s !! r.
Proof.
  induction targets as [|target targets IH]; intros this s; [done|].
  cbn [rotate_all].
  destruct (rotate_cases this target s) as (this1 & s1 & Hrun & _ & _).
  rewrite Hrun. destruct (IH this1 s1) as [Hperm Hkeep]. split.
  - rewrite Hperm. by eapply rotate_permutation.
  - intros r Hr. rewrite Hkeep.
    + by eapply rotate_keeps_arrays.
    + unfold allocated. by erewrite rotate_keeps_arrays.
Qed.

(* ================================================================== *)
(** * A probe in flight and the rotations of others *)
(* ================================================================== *)

(** A scan reads the store only through the elements of its snapshot. *)
Lemma recursiveScan_gas_store gas s s' st :
  contents s (scanList st) = contents s' (scanList st) ->
  recursiveScan_gas gas s st = recursiveScan_gas gas s' st.
Proof.
  revert st. induction gas as [|gas IH]; intros st Heq; [reflexivity|].
  cbn [recursiveScan_gas]. rewrite <- Heq.
  destruct (_ <? _)%nat; [done|]. destruct (mjoin _); [done|].
  by apply IH.
Qed.

Lemma deliver_store s s' a st :
  contents s (scanList st) = contents s' (scanList st) ->
  deliver s a st = deliver s' a st.
Proof.
  intros Heq. unfold deliver. destruct (pending st !! target a) as [b|]; [|done].
  unfold on_connect. destruct (socket a), (err a); try done;
    unfold recursiveScan, scan_gas; destruct (final a); cbn [scanList set_pending];
    rewrite <- ?Heq; by apply recursiveScan_gas_store.
Qed.

Lemma deliver_scanList s a st st' :
  deliver s a st = Some st' -> scanList st' = scanList st.
Proof.
  unfold deliver. destruct (pending st !! target a) as [b|]; [|by intros [= ->]].
  rewrite on_connect_connected.
  destruct (connected _); intros Hrun.
  - simplify_eq. rewrite triggerCallback_scanList. by destruct (final a).
  - apply recursiveScan_returns, scan_returns_scanList in Hrun.
    rewrite Hrun. by destruct (final a).
Qed.

Lemma run_events_frame events : forall this st sA sB,
  is_Some (arrays sA !! scanList st) ->
  contents sA (scanList st) = contents sB (scanList st) ->
  exists this' st' sA',
    run_events events this st sA = Some (this', st', sA')
    /\ deliver_all sB (answers_of events) st = Some st'
    /\ scanList st' = scanList st
    /\ contents sA' (scanList st') = contents sB (scanList st').
Proof.
  induction events as [|[a | target] events IH]; intros this st sA sB Halloc Heq.
  - by exists this, st, sA.
  - cbn [run_events answers_of deliver_all].
    rewrite (deliver_store sA sB) by done.
    destruct (deliver_total sB a st) as [st1 Hstep]. rewrite Hstep.
    pose proof (deliver_scanList _ _ _ _ Hstep) as Hsame.
    destruct (IH this st1 sA sB) as (this' & st' & sA' & Hrun & Hall & Hlist & Hc);
      [by rewrite Hsame | by rewrite Hsame |].
    exists this', st', sA'. repeat split; try done. congruence.
  - cbn [run_events answers_of].
    destruct (rotate_cases this target sA) as (this1 & sA1 & -> & Hkeep & _).
    apply IH; [by rewrite Hkeep|].
    rewrite <- Heq. unfold contents. by rewrite Hkeep.
Qed.

(** C9. A probe works on the snapshot it took when it started: however
    the answers of the connector are interleaved with rotations of the
    proxy's list, the probe ends in the state the same answers alone
    lead to on the store as it was at the start, whose snapshot holds
    the elements the list had at that moment; so the rotations change
    neither the candidates attempted nor their order. *)
Theorem probe_unaffected_by_rotation events this cb s :
  exists st0,
    fst (scanAndConnectToValidBackend (_backendList this) cb s) = inr (Some st0)
    /\ contents (after_snapshot s (_backendList this)) (scanList st0)
       = contents s (_backendList this)
    /\ exists this' st' s',
         run_events events this st0 (after_snapshot s (_backendList this))
         = Some (this', st', s')
         /\ deliver_all (after_snapshot s (_backendList this))
              (answers_of events) st0 = Some st'
         /\ contents s' (scanList st') = contents s (_backendList this).
Proof.
  set (s1 := after_snapshot s (_backendList this)).
  destruct (recursiveScan_total s1 (initial cb (snapshot_ref s))) as [st0 Hstart].
  pose proof (scan_returns_scanList _ _ _ (recursiveScan_returns _ _ _ Hstart))
    as Hlist. cbn in Hlist.
  exists st0. rewrite scanAndConnectToValidBackend_unfold. fold s1.
  rewrite Hstart. split; [done|].
  assert (contents s1 (scanList st0) = contents s (_backendList this)) as Hsnap
    by (rewrite Hlist; apply contents_snapshot).
  split; [done|].
  destruct (run_events_frame events this st0 s1 s1)
    as (this' & st' & s' & Hrun & Hall & Hsame & Hc); [|done|].
  { rewrite Hlist. unfold s1, after_snapshot. cbn. by rewrite lookup_insert_eq. }
  exists this', st', s'. repeat split; [done | done |].
  by rewrite Hc, Hsame.
Qed.

(* ================================================================== *)
(** * Closing the proxy *)
(* ================================================================== *)

(** C4, as the code has it.  On a proxy that holds a server, in a world
    whose global object has no [callback], [close()] throws a
    [ReferenceError] before [server.close] is called: the instance keeps
    its server and the server keeps listening. *)
Theorem close_throws_reference_error this w srv :
  _server this = Some srv ->
  globalThis w !! "callback" = None ->
  close this w = (inl (ReferenceError "callback"), this, w)
  /\ (srv ∈ listening w -> srv ∈ listening (snd (close this w))).
Proof.
  intros Hsrv Hglobal. unfold close, resolve_global. by rewrite Hsrv, Hglobal.
Qed.

(* ================================================================== *)
(** * Worked examples *)
(* ================================================================== *)

Lemma probe_all_down_witness :
  exists st msg,
    fst (probe all_down 0%nat store_abc) = inr (Some st)
    /\ connects st = [backend_A; backend_B; backend_C]
    /\ pending st = []
    /\ delivered st = [(None, Some msg)]
    /\ msg = "Unable to connect to a valid backend - tried 4 times"
    /\ reported_tries msg = Num 4.
Proof.
  apply (probe_all_down all_down 0%nat store_abc [backend_A; backend_B; backend_C]).
  - reflexivity.
  - intros i b _. reflexivity.
Defined.

Lemma probe_first_reachable_witness :
  exists st,
    fst (probe only_a_down 0%nat store_abc) = inr (Some st)
    /\ connects st = [backend_A; backend_B]
    /\ length (connects st) = 2%nat
    /\ pending st = []
    /\ delivered st = [(Some {| handle := 101; _backend := Some backend_B |}, None)].
Proof.
  apply (probe_first_reachable only_a_down 0%nat store_abc
           [backend_A; backend_B; backend_C] 1 backend_B 101).
  - reflexivity.
  - reflexivity.
  - reflexivity.
  - intros i b' Hi Hb. assert (i = 0%nat) as -> by lia.
    cbn in Hb. by simplify_eq.
Defined.

(** Three backends, all down: three attempts, and a report of four. *)
Example probe_three_down :
  outcome (fst (probe all_down 0%nat store_abc))
  = Some ([backend_A; backend_B; backend_C],
          [(None, Some "Unable to connect to a valid backend - tried 4 times")]).
Proof. vm_compute. reflexivity. Qed.

(** [[A(down), B(up), C(up)]]: two attempts, [B] is returned. *)
Example probe_a_down :
  outcome (fst (probe only_a_down 0%nat store_abc))
  = Some ([backend_A; backend_B],
          [(Some {| handle := 101; _backend := Some backend_B |}, None)]).
Proof. vm_compute. reflexivity. Qed.

(** An empty list: no attempt at all, and a report of one. *)
Example probe_empty_list :
  outcome (fst (probe all_down 0%nat {| arrays := {[ 0%nat := [] ]}; next_oid := 0 |}))
  = Some ([], [(None, Some "Unable to connect to a valid backend - tried 1 times")]).
Proof. vm_compute. reflexivity. Qed.

(** [rotate(B)] on [[A, B, C]] gives [[B, C, A]]; [rotate(A)] and the
    rotation to an object that is not in the list change nothing. *)
Example rotate_B :
  list_after_rotate proxy_abc backend_B store_abc
  = [Some backend_B; Some backend_C; Some backend_A].
Proof. vm_compute. reflexivity. Qed.

Example rotate_A :
  _rotateBackendList proxy_abc backend_A store_abc = (inr proxy_abc, store_abc).
Proof. reflexivity. Qed.

Example rotate_absent :
  _rotateBackendList proxy_abc (backend_of 9 "x" 1) store_abc
  = (inr proxy_abc, store_abc).
Proof. reflexivity. Qed.

(** C3 as stated fails: [copy_of_B] is equal by value to the entry at
    index 1 of [[A, B, C]], so by value the list would become
    [[B, C, A]]; the code finds no such object and leaves the list as it
    is. *)
Lemma rotate_value_copy_counterexample :
  list_find (is_value_equal copy_of_B) (contents store_abc (_backendList proxy_abc))
    = Some (1%nat, Some backend_B)
  /\ list_after_rotate proxy_abc copy_of_B store_abc
     = [Some backend_A; Some backend_B; Some backend_C]
  /\ list_after_rotate proxy_abc copy_of_B store_abc
     <> rotate_by_value_spec (contents store_abc (_backendList proxy_abc)) copy_of_B.
Proof.
  split; [vm_compute; reflexivity|]. split; [vm_compute; reflexivity|].
  vm_compute. discriminate.
Qed.

Lemma close_throws_reference_error_witness :
  close proxy_abc plain_world = (inl (ReferenceError "callback"), proxy_abc, plain_world)
  /\ (1%nat ∈ listening plain_world ->
      1%nat ∈ listening (snd (close proxy_abc plain_world))).
Proof.
  apply (close_throws_reference_error proxy_abc plain_world 1%nat); reflexivity.
Defined.

Lemma connectTimeout_falsy_default_witness :
  fst (_processOptObject (fun _ => NaN) (readme_options (VNumber (Num 0))) empty_store)
    = inr readme_proxy
  /\ ToBoolean VUndefined = false /\ ToBoolean (VNumber (Num 0)) = false
  /\ _connectTimeout readme_proxy = VNumber (Num 2500).
Proof.
  split; [vm_compute; reflexivity|].
  apply (connectTimeout_falsy_default (fun _ => NaN)
           (readme_options (VNumber (Num 0))) empty_store).
  - reflexivity.
  - vm_compute. reflexivity.
Defined.


(* ================================================================== *)
(** * More on the normalization of settings *)
(* ================================================================== *)

Lemma normalizeBackendHostFields_is_spec backend f :
  normalizeBackendHostFields backend = inr f ->
  exists h p, spec_host backend = Some h /\ spec_port backend = Some p.
Proof.
  destruct backend as [| | | | | |h p|elems]; cbn; try discriminate; eauto.
Qed.

(** [parseInt] returns [NaN], an integer or an infinity, never a
    fraction. *)
Lemma of_integer_whole z : forall m e, of_integer z <> Frac m e.
Proof.
  intros m e. unfold of_integer.
  destruct (_ <? _); [done|]. by destruct (to_double _ _) as [[? ?]|].
Qed.

Lemma parse_digits_whole R s : forall m e, parse_digits R s <> Frac m e.
Proof.
  intros m e. unfold parse_digits.
  destruct (digit_prefix R s); [done | apply of_integer_whole].
Qed.

Lemma parse_unsigned_whole s : forall m e, parse_unsigned s <> Frac m e.
Proof.
  intros m e. unfold parse_unsigned.
  destruct s as [|c1 [|c2 s]]; try apply parse_digits_whole.
  destruct (has_hex_prefix _); apply parse_digits_whole.
Qed.

Lemma parseInt_whole v : forall m e, parseInt v <> Frac m e.
Proof.
  intros m e. unfold parseInt, parse_signed.
  destruct (trim_start (ToString v)) as [|c s]; [done|].
  destruct (Ascii.eqb c "-").
  - pose proof (parse_unsigned_whole s) as Hs.
    destruct (parse_unsigned s); cbn; try done. intros [= _ _]. by eapply Hs.
  - destruct (Ascii.eqb c "+"); apply parse_unsigned_whole.
Qed.

(** The port [isValidPort] lets through, when it comes from [parseInt],
    is an integer from 1 to 65535. *)
Lemma parseInt_valid_port v :
  isValidPort (parseInt v) = true ->
  exists z, parseInt v = Num z /\ 1 <= z <= 65535.
Proof.
  pose proof (parseInt_whole v) as Hwhole.
  destruct (parseInt v) as [|z|m e|negative]; intros Hvalid.
  - discriminate.
  - exists z. split; [done|]. by apply isValidPort_integer.
  - by destruct (Hwhole m e).
  - by destruct negative.
Qed.

Lemma coerced_port_valid backend p :
  isValidPort (coerced_port backend p) = true ->
  exists z, coerced_port backend p = Num z /\ 1 <= z <= 65535.
Proof.
  unfold coerced_port. destruct (is_string backend); apply parseInt_valid_port.
Qed.

(** What a successful normalization has checked. *)
Lemma normalizeBackendHostFields_checked backend h p full :
  normalizeBackendHostFields backend = inr (h, p, full) ->
  exists h0 p0,
    spec_host backend = Some h0 /\ spec_port backend = Some p0
    /\ h = h0 /\ p = coerced_port backend p0
    /\ eq_null h = false
    /\ le (length_number h) (Num 0) = false
    /\ (exists z, p = Num z /\ 1 <= z <= 65535)
    /\ full = ToString h +:+ ":" +:+ ToString (VNumber p).
Proof.
  intros Hok.
  destruct (normalizeBackendHostFields_is_spec _ _ Hok) as (h0 & p0 & Hh & Hp).
  exists h0, p0. rewrite (normalizeBackendHostFields_given _ _ _ Hh Hp) in Hok.
  cbn zeta in Hok.
  destruct (eq_null h0) eqn:Hnull; [discriminate|].
  destruct (le (length_number h0) (Num 0)) eqn:Hlen; [discriminate|].
  destruct (isValidPort (coerced_port backend p0)) eqn:Hport; [|discriminate].
  apply coerced_port_valid in Hport.
  cbn in Hok. by simplify_eq.
Qed.

(** The test [host.length <= 0] lets through what has a length above 0
    and what has no length at all. *)
Lemma length_not_le_0 v :
  le (length_number v) (Num 0) = false ->
  length_number v = NaN \/ exists n, length_number v = Num n /\ 0 < n.
Proof.
  destruct v; cbn; intros Hle; try (by left);
    right; eexists; (split; [done|]); by apply Z.leb_gt in Hle.
Qed.

(** X1. Every backend [normalizeBackendHostObject] returns has a port
    that is an integer from 1 to 65535 and a host that is neither [null]
    nor [undefined] and is not of length 0: the host has a length above
    0 (a string or an array), or it has no length at all (a number, a
    boolean, an object), which the test [host.length <= 0] lets through.
    Its [_fullString] is the host, a colon and the port in decimal; it
    is a new object, and no array is touched. *)
Theorem normalize_returns_valid_backend backend s b s' :
  normalizeBackendHostObject backend s = (inr b, s') ->
  (exists z, port b = Num z /\ 1 <= z <= 65535)
  /\ eq_null (host b) = false
  /\ (length_number (host b) = NaN
      \/ exists n, length_number (host b) = Num n /\ 0 < n)
  /\ _fullString b = ToString (host b) +:+ ":" +:+ ToString (VNumber (port b))
  /\ oid b = next_oid s
  /\ next_oid s' = S (next_oid s)
  /\ arrays s' = arrays s.
Proof.
  unfold normalizeBackendHostObject, bind, lift. intros Hrun.
  destruct (normalizeBackendHostFields backend) as [e | [[h p] full]] eqn:Hf;
    [discriminate|].
  unfold new_backend in Hrun. injection Hrun as <- <-. cbn.
  destruct (normalizeBackendHostFields_checked _ _ _ _ Hf)
    as (h0 & p0 & _ & _ & _ & _ & Hnull & Hlen & Hport & Hfull).
  apply length_not_le_0 in Hlen. repeat split; done.
Qed.

(** The host of [{host: 5, port: 80}] has no length, and the object is
    accepted. *)
Lemma normalize_returns_valid_backend_witness :
  (exists z, Num 80 = Num z /\ 1 <= z <= 65535)
  /\ eq_null (VNumber (Num 5)) = false
  /\ (length_number (VNumber (Num 5)) = NaN
      \/ exists n, length_number (VNumber (Num 5)) = Num n /\ 0 < n)
  /\ "5:80" = ToString (VNumber (Num 5)) +:+ ":" +:+ ToString (VNumber (Num 80))
  /\ 0%nat = next_oid empty_store
  /\ 1%nat = S (next_oid empty_store)
  /\ arrays empty_store = arrays empty_store.
Proof.
  apply (normalize_returns_valid_backend
           (VObject (VNumber (Num 5)) (VNumber (Num 80))) empty_store
           {| oid := 0; host := VNumber (Num 5); port := Num 80;
              _fullString := "5:80" |}
           {| arrays := ∅; next_oid := 1 |}).
  reflexivity.
Defined.

(** X2. Normalizing is idempotent: the object made of the host and the
    port of a result normalizes to the same host, port and
    [_fullString]. *)
Theorem normalize_result_again backend h p full :
  normalizeBackendHostFields backend = inr (h, p, full) ->
  normalizeBackendHostFields (VObject h (VNumber p)) = inr (h, p, full).
Proof.
  intros Hok.
  destruct (normalizeBackendHostFields_checked _ _ _ _ Hok)
    as (h0 & p0 & _ & _ & _ & _ & Hnull & Hlen & Hport & ->).
  rewrite (normalizeBackendHostFields_given (VObject h (VNumber p)) h (VNumber p))
    by done.
  destruct Hport as (z & -> & Hz).
  unfold coerced_port. cbn [is_string]. cbn zeta.
  rewrite Hnull, parseInt_small_integer, Hlen by lia.
  by rewrite (proj2 (isValidPort_integer z)).
Qed.

Lemma normalize_result_again_witness :
  normalizeBackendHostFields (VObject (VString "a") (VNumber (Num 80)))
  = inr (VString "a", Num 80, "a:80").
Proof.
  apply (normalize_result_again (VString "a: 80px")). reflexivity.
Defined.

(** ** Strings cut at colons *)

Lemma append_assoc (a b c : string) : (a +:+ b) +:+ c = a +:+ (b +:+ c).
Proof.
  induction a as [|x a IH]; [reflexivity|]. by rewrite !append_cons, IH.
Qed.

Lemma free_of_append sep (a b : string) :
  free_of sep (a +:+ b) <-> free_of sep a /\ free_of sep b.
Proof.
  induction a as [|x a IH].
  - change ("" +:+ b) with b. cbn. tauto.
  - rewrite append_cons. cbn. tauto.
Qed.

Lemma split_go_free sep (s cur : string) :
  free_of sep s -> split_go sep cur s = [cur +:+ s].
Proof.
  revert cur. induction s as [|c s IH]; intros cur Hfree.
  - cbn. by rewrite append_empty_r.
  - destruct Hfree as [Hc Hs]. cbn [split_go].
    rewrite (proj2 (Ascii.eqb_neq c sep)) by done.
    rewrite IH by done. by rewrite append_assoc.
Qed.

Lemma split_go_sep sep (a b cur : string) :
  free_of sep a ->
  split_go sep cur (a +:+ String sep b) = (cur +:+ a) :: split_go sep "" b.
Proof.
  revert cur. induction a as [|c a IH]; intros cur Hfree.
  - change ("" +:+ String sep b) with (String sep b). cbn [split_go].
    by rewrite Ascii.eqb_refl, append_empty_r.
  - destruct Hfree as [Hc Ha]. rewrite append_cons. cbn [split_go].
    rewrite (proj2 (Ascii.eqb_neq c sep)) by done.
    rewrite IH by done. by rewrite append_assoc.
Qed.

(** The first segment of a split holds no separator. *)
Lemma split_go_head sep (s cur : string) :
  exists a rest, split_go sep cur s = (cur +:+ a) :: rest /\ free_of sep a.
Proof.
  revert cur. induction s as [|c s IH]; intros cur.
  - exists "", []. cbn. by rewrite append_empty_r.
  - cbn [split_go]. destruct (Ascii.eqb_spec c sep) as [-> | Hne].
    + exists "", (split_go sep "" s). by rewrite append_empty_r.
    + destruct (IH (cur +:+ String c "")) as (a & rest & -> & Ha).
      exists (String c a), rest. rewrite append_assoc. by split.
Qed.

Lemma free_of_colon_digits ds :
  Forall is_digit ds -> free_of ":" (string_of_digits ds).
Proof.
  induction 1 as [|d ds Hd _ IH]; [done|].
  unfold string_of_digits in *. cbn [map string_of_list_ascii free_of].
  split; [|done].
  assert (d = 0 \/ d = 1 \/ d = 2 \/ d = 3 \/ d = 4 \/ d = 5 \/ d = 6
          \/ d = 7 \/ d = 8 \/ d = 9) as Hcases by (unfold is_digit in Hd; lia).
  repeat (destruct Hcases as [-> | Hcases]); try subst d; discriminate.
Qed.

Lemma free_of_colon_number z :
  0 <= z < 9007199254740992 -> free_of ":" (number_to_string (Num z)).
Proof.
  intros Hz. rewrite number_to_string_small by done.
  apply free_of_colon_digits, digits_of_are_digits.
Qed.

(** X3. A ["host:port"] setting makes a round trip through
    [_fullString]: the full string of its backend normalizes to the same
    host, port and full string, whatever followed the port in the
    setting. *)
Theorem normalize_fullString_round_trip s h p full :
  normalizeBackendHostFields (VString s) = inr (h, p, full) ->
  normalizeBackendHostFields (VString full) = inr (h, p, full).
Proof.
  intros Hok.
  destruct (normalizeBackendHostFields_checked _ _ _ _ Hok)
    as (h0 & p0 & Hh & Hp & -> & _ & Hnull & Hlen & (z & -> & Hz) & ->).
  cbn in Hh. destruct (split_go_head ":" s "") as (a & rest & Hsplit & Ha).
  unfold split in Hh. rewrite Hsplit in Hh. cbn in Hh. simplify_eq.
  change ("" +:+ a) with a in *. cbn [ToString] in *.
  pose proof (free_of_colon_number z ltac:(lia)) as Hfree.
  pose proof (parseInt_decimal z "" ltac:(lia) ends_number_empty) as Hread.
  rewrite append_empty_r in Hread.
  remember (number_to_string (Num z)) as dec eqn:Hdec.
  assert (split ":" (a +:+ ":" +:+ dec) = [a; dec]) as Hfull.
  { unfold split. change (":" +:+ dec) with (String ":" dec).
    rewrite split_go_sep by done. by rewrite split_go_free. }
  rewrite (normalizeBackendHostFields_given _ (VString a) (VString dec));
    [| by cbn; rewrite Hfull | by cbn; rewrite Hfull].
  assert (coerced_port (VString (a +:+ ":" +:+ dec)) (VString dec) = Num z) as ->.
  { unfold coerced_port. cbn [is_string]. rewrite Hread.
    apply parseInt_small_integer. lia. }
  cbn zeta. cbn [eq_null ToString].
  rewrite Hlen, (proj2 (isValidPort_integer z)) by done. cbn [negb].
  by rewrite <- Hdec.
Qed.

Lemma normalize_fullString_round_trip_witness :
  normalizeBackendHostFields (VString "a:80") = inr (VString "a", Num 80, "a:80").
Proof.
  apply (normalize_fullString_round_trip "a:0x50:b"). reflexivity.
Defined.

(** X4. What is neither a string nor an object is refused as an unknown
    type, with its rendering in the message; [null], which [typeof]
    calls an object, is not: reading its [host] throws a [TypeError];
    and an array, an object without host, is refused for its missing
    host.  None of these takes an object identity. *)
Theorem normalize_rejects_other_values v s :
  (is_string v = false -> typeof v <> "object" ->
   normalizeBackendHostObject v s
   = (inl (ThrowString ("Unknown backend type: " +:+ ToString v)), s))
  /\ (exists msg, normalizeBackendHostObject VNull s = (inl (TypeError msg), s))
  /\ (forall elems,
        normalizeBackendHostObject (VArray elems) s = (inl missing_host_error, s)).
Proof.
  split; [|split].
  - intros Hstr Htype. unfold normalizeBackendHostObject, bind, lift.
    destruct v; cbn in Hstr, Htype; try discriminate; try done.
  - by eexists.
  - done.
Qed.

Lemma normalize_rejects_other_values_witness :
  normalizeBackendHostObject (VNumber (Num 8080)) empty_store
  = (inl (ThrowString "Unknown backend type: 8080"), empty_store).
Proof.
  destruct (normalize_rejects_other_values (VNumber (Num 8080)) empty_store)
    as [Hother _].
  apply Hother; [reflexivity | discriminate].
Defined.

(* ================================================================== *)
(** * More on the normalization of arrays of settings *)
(* ================================================================== *)

Lemma normalizeBackendHostObject_inr backend s b s1 :
  normalizeBackendHostObject backend s = (inr b, s1) ->
  normalized (next_oid s) backend = Some b
  /\ arrays s1 = arrays s /\ next_oid s1 = S (next_oid s).
Proof.
  unfold normalizeBackendHostObject, normalized, bind, lift, new_backend.
  destruct (normalizeBackendHostFields backend) as [e | [[h p] full]];
    [discriminate|].
  by intros [= <- <-].
Qed.

Lemma normalizeBackendHostObject_valid backend s :
  valid_spec backend ->
  exists b s1, normalizeBackendHostObject backend s = (inr b, s1).
Proof.
  intros [[[h p] full] Hok].
  unfold normalizeBackendHostObject, bind, lift. rewrite Hok. by eexists _, _.
Qed.

Lemma normalized_valid id backend b :
  normalized id backend = Some b -> valid_spec backend /\ oid b = id.
Proof.
  unfold normalized, valid_spec.
  destruct (normalizeBackendHostFields backend) as [e | [[h p] full]];
    [discriminate|].
  intros [= <-]. split; [by eexists | done].
Qed.

(** The loop, when it ends normally: slot [i] holds the backend of
    element [i], and the objects were made from the last element to the
    first. *)
Lemma normalize_loop_result arr r n : forall s s' tail,
  normalize_loop arr r n s = (inr tt, s') ->
  contents s r = replicate n None ++ (Some <$> tail)
  \/ (contents s r = [] /\ tail = []) ->
  exists front,
    length front = n
    /\ contents s' r = Some <$> (front ++ tail)
    /\ (forall i, (i < n)%nat ->
          front !! i = normalized (next_oid s + (n - 1 - i)) (value_at arr i))
    /\ next_oid s' = (next_oid s + n)%nat
    /\ (forall r', r' <> r -> arrays s' !! r' = arrays s !! r').
Proof.
  induction n as [|n IH]; intros s s' tail Hrun Hshape.
  - injection Hrun as <-. exists []. repeat split; [|intros; lia | lia].
    by destruct Hshape as [-> | [-> ->]].
  - cbn [normalize_loop] in Hrun. unfold bind at 1 in Hrun.
    destruct (normalizeBackendHostObject (value_at arr n) s) as [[e | b] s1] eqn:Hb;
      [discriminate|].
    apply normalizeBackendHostObject_inr in Hb as (Hb & Harr & Hoid).
    unfold bind at 1, array_set in Hrun.
    apply (IH _ _ (b :: tail)) in Hrun as (front & Hlen & Hc & Hfront & Hnext & Hkeep).
    + exists (front ++ [b]). repeat split.
      * rewrite length_app. cbn. lia.
      * by rewrite Hc, <- app_assoc.
      * intros i Hi. destruct (decide (i = n)) as [-> | Hne].
        -- rewrite lookup_app_r, Hlen, Nat.sub_diag by lia.
           replace (next_oid s + (S n - 1 - n))%nat with (next_oid s) by lia.
           by rewrite Hb.
        -- rewrite lookup_app_l by lia. rewrite Hfront by lia.
           change (next_oid {| arrays := _; next_oid := next_oid s1 |})
             with (next_oid s1).
           f_equal. lia.
      * cbn in Hnext. lia.
      * intros r' Hr'. rewrite Hkeep by done. cbn.
        by rewrite lookup_insert_ne, Harr.
    + left. unfold contents at 1. cbn. rewrite lookup_insert_eq. cbn.
      unfold contents. rewrite Harr. fold (contents s r).
      destruct Hshape as [-> | [-> ->]];
        [apply list_set_fill | apply list_set_first].
Qed.

Lemma normalize_loop_valid arr r n : forall s,
  (forall i, (i < n)%nat -> valid_spec (value_at arr i)) ->
  exists s', normalize_loop arr r n s = (inr tt, s').
Proof.
  induction n as [|n IH]; intros s Hvalid; [by eexists|].
  cbn [normalize_loop]. unfold bind at 1.
  destruct (normalizeBackendHostObject_valid (value_at arr n) s) as (b & s1 & ->);
    [apply Hvalid; lia|].
  unfold bind at 1, array_set. apply IH. intros i Hi. apply Hvalid. lia.
Qed.

Lemma normalizeBackendHostObjectArray_array arr s :
  arr <> [] ->
  normalizeBackendHostObjectArray (VArray arr) s =
  (let* r := new_array [] in
   do normalize_loop arr r (length arr) in ret r) s.
Proof.
  intros Hne. unfold normalizeBackendHostObjectArray,
    normalizeBackendHostObjectArray_body.
  cbn [eq_null length_number le orb].
  destruct (Z.leb_spec (Z.of_nat (length arr)) 0) as [Hlen | _]; [|done].
  destruct arr; [done | cbn in Hlen; lia].
Qed.

(** The array made for a non-empty array of settings, and the store
    after it. *)
Lemma normalizeBackendHostObjectArray_shape arr s r s' :
  normalizeBackendHostObjectArray (VArray arr) s = (inr r, s') ->
  exists bs,
    arr <> []
    /\ contents s' r = Some <$> bs
    /\ length bs = length arr
    /\ (forall i, (i < length arr)%nat ->
          bs !! i = normalized (next_oid s + (length arr - 1 - i)) (value_at arr i))
    /\ next_oid s' = (next_oid s + length arr)%nat
    /\ arrays s !! r = None
    /\ (forall r', is_Some (arrays s !! r') -> arrays s' !! r' = arrays s !! r').
Proof.
  intros Hrun.
  assert (arr <> []) as Hne by (by intros ->).
  rewrite normalizeBackendHostObjectArray_array in Hrun by done.
  unfold bind at 1 in Hrun.
  destruct (new_array_spec [] s) as (r0 & s0 & Hnew & Hfresh & Harr0 & Hoid0).
  rewrite Hnew in Hrun. unfold bind at 1 in Hrun.
  destruct (normalize_loop arr r0 (length arr) s0) as [[e | []] s1] eqn:Hloop;
    [discriminate|].
  injection Hrun as <- <-.
  apply (normalize_loop_result _ _ _ _ _ []) in Hloop
    as (bs & Hlen & Hc & Hbs & Hnext & Hkeep).
  - exists bs. rewrite app_nil_r in Hc. repeat split; try done.
    + intros i Hi. rewrite Hbs by done. by rewrite Hoid0.
    + by rewrite Hnext, Hoid0.
    + intros r' Hr'. rewrite Hkeep, Harr0.
      * by apply lookup_after_insert.
      * intros ->. destruct Hr' as [x Hx]. congruence.
  - right. split; [|done]. unfold contents. by rewrite Harr0, lookup_insert_eq.
Qed.

(** X5. An absent or empty configuration of backends ([undefined],
    [null], the empty string, the empty array) is refused with the
    missing-array message, in which the value is rendered, and nothing
    is made in the store. *)
Theorem normalizeAll_rejects_empty v s :
  v = VUndefined \/ v = VNull \/ v = VString "" \/ v = VStringObject ""
  \/ v = VArray [] ->
  normalizeBackendHostObjectArray v s
  = (inl (ThrowString ("Missing backend array configuration: " +:+ ToString v)), s).
Proof.
  intros Hv. repeat (destruct Hv as [-> | Hv]); subst; reflexivity.
Qed.

Lemma normalizeAll_rejects_empty_witness :
  normalizeBackendHostObjectArray (VArray []) empty_store
  = (inl (ThrowString "Missing backend array configuration: "), empty_store).
Proof. apply (normalizeAll_rejects_empty (VArray []) empty_store). tauto. Defined.

(** X6. When an array of settings normalizes, the result is a new array
    of the same length whose slot [i] holds the backend of setting [i]:
    the order of the settings is kept although they are processed from
    the last to the first.  Arrays that existed before are as they
    were. *)
Theorem normalizeAll_keeps_order arr s r s' :
  normalizeBackendHostObjectArray (VArray arr) s = (inr r, s') ->
  exists bs,
    contents s' r = Some <$> bs
    /\ length bs = length arr
    /\ (forall i setting, arr !! i = Some setting ->
          exists b, bs !! i = Some b
            /\ normalizeBackendHostFields setting
               = inr (host b, port b, _fullString b))
    /\ ~ allocated s r
    /\ (forall r', allocated s r' -> contents s' r' = contents s r').
Proof.
  intros Hrun.
  destruct (normalizeBackendHostObjectArray_shape _ _ _ _ Hrun)
    as (bs & _ & Hc & Hlen & Hbs & _ & Hfresh & Hkeep).
  exists bs. repeat split; try done.
  - intros i setting Hi. pose proof (lookup_lt_Some _ _ _ Hi) as Hlt.
    specialize (Hbs i Hlt). unfold value_at in Hbs. rewrite Hi in Hbs. cbn in Hbs.
    unfold normalized in Hbs.
    destruct (normalizeBackendHostFields setting) as [e | [[h p] full]].
    + apply lookup_ge_None_1 in Hbs. lia.
    + eexists. split; [exact Hbs | done].
  - unfold allocated. rewrite Hfresh. by intros [? ?].
  - intros r' Hr'. unfold contents. by rewrite Hkeep.
Qed.

Lemma normalizeAll_keeps_order_witness :
  exists bs,
    contents (normalizeBackendHostObjectArray
                (VArray [VString "a:1"; VString "b:2"]) empty_store).2 0%nat
    = Some <$> bs
    /\ length bs = length [VString "a:1"; VString "b:2"]
    /\ (forall i setting, [VString "a:1"; VString "b:2"] !! i = Some setting ->
          exists b, bs !! i = Some b
            /\ normalizeBackendHostFields setting
               = inr (host b, port b, _fullString b))
    /\ ~ allocated empty_store 0%nat
    /\ (forall r', allocated empty_store r' ->
          contents (normalizeBackendHostObjectArray
                      (VArray [VString "a:1"; VString "b:2"]) empty_store).2 r'
          = contents empty_store r').
Proof.
  apply (normalizeAll_keeps_order [VString "a:1"; VString "b:2"] empty_store 0%nat).
  vm_compute. reflexivity.
Defined.

(** X7. A non-empty array of settings normalizes if and only if every
    one of its settings is valid. *)
Theorem normalizeAll_succeeds_iff_all_valid arr s :
  arr <> [] ->
  (exists r s', normalizeBackendHostObjectArray (VArray arr) s = (inr r, s'))
  <-> Forall valid_spec arr.
Proof.
  intros Hne. split.
  - intros (r & s' & Hrun).
    destruct (normalizeBackendHostObjectArray_shape _ _ _ _ Hrun)
      as (bs & _ & _ & Hlen & Hbs & _).
    apply Forall_lookup. intros i setting Hi.
    pose proof (lookup_lt_Some _ _ _ Hi) as Hlt.
    specialize (Hbs i Hlt). unfold value_at in Hbs. rewrite Hi in Hbs. cbn in Hbs.
    destruct (bs !! i) as [b|] eqn:Hb; [|apply lookup_ge_None_1 in Hb; lia].
    symmetry in Hbs. by apply normalized_valid in Hbs as [? _].
  - intros Hvalid. rewrite normalizeBackendHostObjectArray_array by done.
    unfold bind at 1.
    destruct (new_array_spec [] s) as (r0 & s0 & -> & _).
    unfold bind at 1.
    destruct (normalize_loop_valid arr r0 (length arr) s0) as [s1 ->];
      [|by eexists _, _].
    intros i Hi. destruct (lookup_lt_is_Some_2 arr i Hi) as [setting Hsetting].
    unfold value_at. rewrite Hsetting. cbn.
    by eapply Forall_lookup_1.
Qed.

Lemma normalizeAll_succeeds_iff_all_valid_witness :
  (exists r s', normalizeBackendHostObjectArray
                  (VArray [VString "a:1"; VString "b:2"]) empty_store = (inr r, s'))
  <-> Forall valid_spec [VString "a:1"; VString "b:2"].
Proof.
  apply (normalizeAll_succeeds_iff_all_valid [VString "a:1"; VString "b:2"]).
  discriminate.
Defined.

(** X8. A setting given alone is handled as the array that holds just
    it: for what is neither an array nor absent nor empty, the function
    does on the value what it does on the one-element array. *)
Theorem normalizeAll_single_setting v s :
  (forall elems, v <> VArray elems) ->
  eq_null v = false -> v <> VString "" -> v <> VStringObject "" ->
  normalizeBackendHostObjectArray v s
  = normalizeBackendHostObjectArray (VArray [v]) s.
Proof.
  intros Harr Hnull Hs Hso.
  assert (le (length_number v) (Num 0) = false) as Hlen.
  { destruct v as [| | | |x|x| |elems]; try done.
    - destruct x; [done | cbn; apply Z.leb_gt; lia].
    - destruct x; [done | cbn; apply Z.leb_gt; lia].
    - by destruct (Harr elems). }
  unfold normalizeBackendHostObjectArray at 1.
  unfold normalizeBackendHostObjectArray_body at 1.
  rewrite Hnull, Hlen. cbn [orb].
  destruct v; try done. by destruct (Harr elems).
Qed.

Lemma normalizeAll_single_setting_witness :
  normalizeBackendHostObjectArray (VString "a:80") empty_store
  = normalizeBackendHostObjectArray (VArray [VString "a:80"]) empty_store.
Proof.
  apply (normalizeAll_single_setting (VString "a:80") empty_store);
    discriminate || reflexivity.
Defined.

(** ** The list of backends a proxy starts with *)

Lemma normalizeBackendHostObjectArray_as_array v s r s' :
  normalizeBackendHostObjectArray v s = (inr r, s') ->
  exists arr, arr <> []
    /\ normalizeBackendHostObjectArray (VArray arr) s = (inr r, s').
Proof.
  intros Hrun.
  assert (forall arr, normalizeBackendHostObjectArray (VArray arr) s = (inr r, s')
                      -> arr <> []) as Hne by (by intros arr H ->).
  destruct v as [| | | | | | |arr]; try discriminate;
    try (by exists arr; split; [apply Hne|]);
    match type of Hrun with
    | normalizeBackendHostObjectArray ?v s = _ =>
        exists [v]; split; [done|];
        unfold normalizeBackendHostObjectArray at 1 in Hrun;
        unfold normalizeBackendHostObjectArray_body at 1 in Hrun;
        destruct (eq_null v || le (length_number v) (Num 0)); [discriminate|];
        exact Hrun
    end.
Qed.

Lemma normalizeBackendHostObjectArray_backend_list v s r s' :
  normalizeBackendHostObjectArray v s = (inr r, s') ->
  exists bs,
    backend_list s' r bs /\ bs <> []
    /\ arrays s !! r = None
    /\ (forall r', is_Some (arrays s !! r') -> arrays s' !! r' = arrays s !! r').
Proof.
  intros Hrun.
  apply normalizeBackendHostObjectArray_as_array in Hrun as (arr & Hne & Hrun).
  destruct (normalizeBackendHostObjectArray_shape _ _ _ _ Hrun)
    as (bs & _ & Hc & Hlen & Hbs & Hnext & Hfresh & Hkeep).
  assert (forall i b, bs !! i = Some b ->
            (i < length arr)%nat /\ oid b = (next_oid s + (length arr - 1 - i))%nat)
    as Hoid.
  { intros i b Hb. pose proof (lookup_lt_Some _ _ _ Hb) as Hi.
    split; [lia|]. rewrite Hbs in Hb by lia. by apply normalized_valid in Hb as [_ ?]. }
  exists bs. repeat split; try done.
  - apply NoDup_alt. intros i j x Hi Hj.
    rewrite list_lookup_fmap in Hi, Hj.
    destruct (bs !! i) as [bi|] eqn:Hbi; [|done].
    destruct (bs !! j) as [bj|] eqn:Hbj; [|done].
    cbn in Hi, Hj. simplify_eq.
    destruct (Hoid _ _ Hbi) as [? Hi'], (Hoid _ _ Hbj) as [? Hj']. lia.
  - apply Forall_lookup. intros i b Hb. destruct (Hoid _ _ Hb) as [? ->]. lia.
  - intros ->. destruct arr; [done | discriminate].
Qed.

(** [isValidPort] is a test of range, on integers and fractions
    alike. *)
Lemma isValidPort_in_range n : isValidPort n = true <-> in_port_range n.
Proof.
  unfold isValidPort, gt, le, in_port_range.
  destruct n as [|z|m e|[|]]; try (split; [discriminate | done]).
  - rewrite andb_true_iff, Z.ltb_lt, Z.leb_le. lia.
  - rewrite andb_true_iff, Z.ltb_lt, Z.leb_le. lia.
Qed.

(** What [normalizeBackendHostObject] throws. *)
Lemma normalizeBackendHostFields_thrown backend e :
  normalizeBackendHostFields backend = inl e ->
  (exists msg, e = TypeError msg)
  \/ (exists x, e = ThrowString ("Unknown backend type: " +:+ x))
  \/ e = missing_host_error
  \/ (exists x, e = ThrowString ("Invalid backend port setting: " +:+ x)).
Proof.
  unfold normalizeBackendHostFields.
  set (given := if is_string backend then _ else backend). clearbody given.
  destruct (negb _); [intros [= <-]; right; left; by eexists|].
  destruct (get_host given) as [eh | h] eqn:Hh.
  { intros [= <-]. left. destruct given; cbn in *; simplify_eq; by eexists. }
  destruct (get_port given) as [ep | p0] eqn:Hp.
  { intros [= <-]. left. destruct given; cbn in *; simplify_eq; by eexists. }
  destruct (le _ _); [intros [= <-]; right; right; by left|].
  destruct (negb _); [intros [= <-]; right; right; right; by eexists|].
  discriminate.
Qed.

Lemma normalize_loop_thrown arr r n : forall s e s',
  normalize_loop arr r n s = (inl e, s') ->
  exists x, normalizeBackendHostFields x = inl e.
Proof.
  induction n as [|n IH]; intros s e s' Hrun; [discriminate|].
  cbn [normalize_loop] in Hrun. unfold bind at 1 in Hrun.
  pose proof (normalizeBackendHostObject_fst (value_at arr n) s) as Hfst.
  destruct (normalizeBackendHostObject (value_at arr n) s) as [[e' | b] s1];
    cbn [fst] in Hfst.
  - injection Hrun as <- <-. exists (value_at arr n).
    destruct (normalizeBackendHostFields _) as [? | [[? ?] ?]]; by simplify_eq.
  - unfold bind at 1, array_set in Hrun. by eapply IH.
Qed.

Lemma normalizeBackendHostObjectArray_thrown v s e s' :
  normalizeBackendHostObjectArray v s = (inl e, s') ->
  (exists x, e = ThrowString ("Missing backend array configuration: " +:+ x))
  \/ exists x, normalizeBackendHostFields x = inl e.
Proof.
  assert (forall arr,
            (let* r := new_array [] in
             do normalize_loop arr r (length arr) in ret r) s = (inl e, s') ->
            exists x, normalizeBackendHostFields x = inl e) as Hloop.
  { intros arr. unfold bind at 1.
    destruct (new_array_spec [] s) as (r0 & s0 & -> & _).
    unfold bind at 1.
    destruct (normalize_loop arr r0 (length arr) s0) as [[e' | []] s1] eqn:Hrun;
      [|discriminate].
    intros [= <- <-]. by eapply normalize_loop_thrown. }
  assert (forall self arr,
            normalizeBackendHostObjectArray_body self (VArray arr) s = (inl e, s') ->
            (exists x, e = ThrowString ("Missing backend array configuration: " +:+ x))
            \/ exists x, normalizeBackendHostFields x = inl e) as Harray.
  { intros self arr. unfold normalizeBackendHostObjectArray_body.
    destruct (eq_null (VArray arr) || le (length_number (VArray arr)) (Num 0));
      [intros [= <- <-]; left; by eexists | right; by eapply Hloop]. }
  destruct v; try apply Harray;
    unfold normalizeBackendHostObjectArray;
    unfold normalizeBackendHostObjectArray_body at 1;
    (destruct (eq_null _ || le _ _);
     [intros [= <- <-]; left; by eexists | apply Harray]).
Qed.

(** X9. The port is required and checked first, by its range alone.
    When [opt.port] is absent, [null], or a number that is not above 0
    and up to 65535 ([NaN] and the infinities among them),
    [_processOptObject] throws the invalid-server-port message, whatever
    the other options are, and nothing is made in the store.  A number
    in that range is never refused with that message, integer or not:
    80.5 passes. *)
Theorem processOptObject_checks_port_first S2N opt s :
  (opt_port opt = VUndefined \/ opt_port opt = VNull
   \/ (exists n, opt_port opt = VNumber n /\ ~ in_port_range n) ->
   _processOptObject S2N opt s
   = (inl (ThrowString ("Invalid server port configured : "
                        +:+ ToString (opt_port opt))), s))
  /\ (forall n x,
        opt_port opt = VNumber n -> in_port_range n ->
        fst (_processOptObject S2N opt s)
        <> inl (ThrowString ("Invalid server port configured : " +:+ x))).
Proof.
  split.
  - intros Hport. unfold _processOptObject.
    assert (isValidPort (ToNumber S2N (opt_port opt)) = false) as ->; [|done].
    destruct Hport as [-> | [-> | (n & -> & Hn)]]; try done.
    cbn. apply not_true_is_false. by rewrite isValidPort_in_range.
  - intros n x Hport Hn. unfold _processOptObject. rewrite Hport. cbn [ToNumber].
    rewrite (proj2 (isValidPort_in_range n)) by done. cbn [negb].
    unfold bind.
    destruct (normalizeBackendHostObjectArray (opt_backend opt) s) as [[e | r] s1]
      eqn:Hlist; [|done].
    cbn [fst]. intros [= ->].
    apply normalizeBackendHostObjectArray_thrown in Hlist as [[y Hy] | [y Hy]];
      [discriminate|].
    apply normalizeBackendHostFields_thrown in Hy
      as [[msg ?] | [[z ?] | [? | [z ?]]]]; discriminate.
Qed.

(** 65535.5 is refused; 80.5 is not. *)
Lemma processOptObject_checks_port_first_witness :
  _processOptObject (fun _ => NaN)
    {| opt_port := VNumber (Frac 131071 1); opt_host := VUndefined;
       opt_backend := VNull; opt_log := VUndefined; opt_shuffle := VUndefined;
       opt_connectTimeout := VUndefined |} empty_store
  = (inl (ThrowString "Invalid server port configured : 65535.5"), empty_store)
  /\ forall x,
       fst (_processOptObject (fun _ => NaN)
              {| opt_port := VNumber (Frac 161 1); opt_host := VUndefined;
                 opt_backend := VString "a:80"; opt_log := VUndefined;
                 opt_shuffle := VUndefined; opt_connectTimeout := VUndefined |}
              empty_store)
       <> inl (ThrowString ("Invalid server port configured : " +:+ x)).
Proof.
  split.
  - apply (proj1 (processOptObject_checks_port_first (fun _ => NaN)
             {| opt_port := VNumber (Frac 131071 1); opt_host := VUndefined;
                opt_backend := VNull; opt_log := VUndefined;
                opt_shuffle := VUndefined; opt_connectTimeout := VUndefined |}
             empty_store)).
    right. right. exists (Frac 131071 1). split; [reflexivity|].
    cbn. lia.
  - intros x.
    apply (proj2 (processOptObject_checks_port_first (fun _ => NaN)
             {| opt_port := VNumber (Frac 161 1); opt_host := VUndefined;
                opt_backend := VString "a:80"; opt_log := VUndefined;
                opt_shuffle := VUndefined; opt_connectTimeout := VUndefined |}
             empty_store) (Frac 161 1) x); [reflexivity | cbn; lia].
Defined.

(** X10. The proxy [_processOptObject] sets up holds no server yet,
    keeps the port as it was given, and its list is a new, non-empty
    array with a backend in every slot, all different objects; the
    arrays that existed before are as they were. *)
Theorem processOptObject_sets_up_list S2N opt s this s' :
  _processOptObject S2N opt s = (inr this, s') ->
  _server this = None
  /\ _port this = opt_port opt
  /\ isValidPort (ToNumber S2N (opt_port opt)) = true
  /\ ~ allocated s (_backendList this)
  /\ (forall r, allocated s r -> contents s' r = contents s r)
  /\ exists bs, bs <> [] /\ backend_list s' (_backendList this) bs.
Proof.
  unfold _processOptObject. intros Hrun.
  destruct (isValidPort _) eqn:Hport; [|discriminate]. cbn [negb] in Hrun.
  unfold bind in Hrun.
  destruct (normalizeBackendHostObjectArray (opt_backend opt) s) as [[e | r] s1]
    eqn:Hlist; [discriminate|].
  injection Hrun as <- <-. cbn.
  destruct (normalizeBackendHostObjectArray_backend_list _ _ _ _ Hlist)
    as (bs & Hbs & Hne & Hfresh & Hkeep).
  repeat split; try done.
  - unfold allocated. rewrite Hfresh. by intros [? ?].
  - intros r' Hr'. unfold contents. by rewrite Hkeep.
  - by exists bs.
Qed.

Lemma processOptObject_sets_up_list_witness :
  _server readme_proxy = None
  /\ _port readme_proxy = opt_port (readme_options VUndefined)
  /\ isValidPort (ToNumber (fun _ => NaN) (opt_port (readme_options VUndefined))) = true
  /\ ~ allocated empty_store (_backendList readme_proxy)
  /\ (forall r, allocated empty_store r ->
        contents (_processOptObject (fun _ => NaN) (readme_options VUndefined)
                    empty_store).2 r
        = contents empty_store r)
  /\ exists bs, bs <> []
       /\ backend_list (_processOptObject (fun _ => NaN) (readme_options VUndefined)
                          empty_store).2 (_backendList readme_proxy) bs.
Proof.
  apply (processOptObject_sets_up_list (fun _ => NaN) (readme_options VUndefined)
           empty_store readme_proxy).
  vm_compute. reflexivity.
Defined.

(* ================================================================== *)
(** * More on rotations *)
(* ================================================================== *)

Lemma rotate_next_oid this target s this' s' :
  _rotateBackendList this target s = (inr this', s') ->
  next_oid s' = next_oid s.
Proof.
  intros Hrun.
  destruct (Z.leb_spec (indexOf (contents s (_backendList this)) target) 0)
    as [Hle | Hgt].
  - rewrite rotate_skip in Hrun by done. by simplify_eq.
  - destruct (rotate_turn this target s
                (Z.to_nat (indexOf (contents s (_backendList this)) target) - 1))
      as (r & s1 & Hrun1 & _ & _ & _ & Hnext); [lia|].
    rewrite Hrun in Hrun1. by simplify_eq.
Qed.

(** In a list of different objects each backend is found where it
    is. *)
Lemma list_find_backend bs k b :
  NoDup (oid <$> bs) -> bs !! k = Some b ->
  list_find (is_object b) (Some <$> bs) = Some (k, Some b).
Proof.
  intros Hnodup Hb. apply list_find_Some. split; [|split].
  - by rewrite list_lookup_fmap, Hb.
  - reflexivity.
  - intros j y Hy Hj Hobj. rewrite list_lookup_fmap in Hy.
    destruct (bs !! j) as [bj|] eqn:Hbj; [|done]. cbn in Hy. simplify_eq.
    injection Hobj as Hoid.
    assert (j = k); [|lia].
    eapply (NoDup_lookup (oid <$> bs)); [done | |];
      rewrite list_lookup_fmap; [by rewrite Hbj; cbn; rewrite Hoid | by rewrite Hb].
Qed.

Lemma backend_list_permutation s s' r r' bs bs' :
  backend_list s r bs -> bs' ≡ₚ bs -> contents s' r' = Some <$> bs' ->
  next_oid s' = next_oid s ->
  backend_list s' r' bs'.
Proof.
  intros (_ & Hnodup & Hold) Hperm Hc Hnext. split; [done|]. split.
  - by rewrite Hperm.
  - rewrite Hnext. by rewrite Hperm.
Qed.

(** The rotation to the backend at index [k] of a list of different
    objects. *)
Lemma rotate_to_index this s bs k b :
  backend_list s (_backendList this) bs -> bs !! k = Some b ->
  exists this' s',
    _rotateBackendList this b s = (inr this', s')
    /\ backend_list s' (_backendList this') (drop k bs ++ take k bs)
    /\ (forall r, is_Some (arrays s !! r) -> arrays s' !! r = arrays s !! r).
Proof.
  intros Hbs Hb. pose proof Hbs as (Hc & Hnodup & _).
  destruct (rotate_cases this b s) as (this' & s' & Hrun & Hkeep & Hcase).
  exists this', s'. split; [done|]. split; [|done].
  rewrite Hc, (list_find_backend bs k b) in Hcase by done.
  eapply backend_list_permutation; [exact Hbs | | | by eapply rotate_next_oid].
  - rewrite Permutation_app_comm. by rewrite take_drop.
  - destruct k as [|k].
    + destruct Hcase as [-> ->]. cbn. by rewrite app_nil_r.
    + destruct Hcase as [_ ->]. unfold rotated_at.
      by rewrite fmap_app, fmap_drop, fmap_take.
Qed.

(** X11. Rotating to a backend of the list brings it to the front: in a
    list of different objects, after [_rotateBackendList(b)] for the [b]
    at index [k] the list is [list[k..end) ++ list[0..k)], its first
    entry is [b], and it is still a list of different objects. *)
Theorem rotate_brings_target_first this s bs k b :
  backend_list s (_backendList this) bs -> bs !! k = Some b ->
  exists this' s' bs',
    _rotateBackendList this b s = (inr this', s')
    /\ backend_list s' (_backendList this') bs'
    /\ bs' = drop k bs ++ take k bs
    /\ head bs' = Some b
    /\ length bs' = length bs.
Proof.
  intros Hbs Hb.
  destruct (rotate_to_index this s bs k b Hbs Hb) as (this' & s' & Hrun & Hbs' & _).
  exists this', s', (drop k bs ++ take k bs).
  split; [done|]. split; [done|]. split; [done|]. split.
  - rewrite (drop_S _ _ _ Hb). reflexivity.
  - rewrite length_app, length_drop, length_take.
    pose proof (lookup_lt_Some _ _ _ Hb). lia.
Qed.

Lemma store_abc_backend_list :
  backend_list store_abc 0%nat [backend_A; backend_B; backend_C].
Proof.
  split; [reflexivity|]. split.
  - apply (bool_decide_unpack _). vm_compute. reflexivity.
  - repeat constructor; cbn; lia.
Qed.

Lemma rotate_brings_target_first_witness :
  exists this' s' bs',
    _rotateBackendList proxy_abc backend_C store_abc = (inr this', s')
    /\ backend_list s' (_backendList this') bs'
    /\ bs' = [backend_C; backend_A; backend_B]
    /\ head bs' = Some backend_C
    /\ length bs' = 3%nat.
Proof.
  apply (rotate_brings_target_first proxy_abc store_abc
           [backend_A; backend_B; backend_C] 2 backend_C).
  - apply store_abc_backend_list.
  - reflexivity.
Defined.

(** X12. Rotating twice to the same target is rotating once: after
    [_rotateBackendList(target)], a second call with the same target
    changes neither the instance nor the store.  This holds for every
    list and every target, in the list or not. *)
Theorem rotate_twice_is_once this target s this' s' :
  _rotateBackendList this target s = (inr this', s') ->
  _rotateBackendList this' target s' = (inr this', s').
Proof.
  intros Hrun.
  destruct (rotate_cases this target s) as (this1 & s1 & Hrun1 & _ & Hcase).
  rewrite Hrun in Hrun1. simplify_eq.
  destruct (list_find (is_object target) (contents s (_backendList this)))
    as [[[|idx] x]|] eqn:Hfind;
    [destruct Hcase as [-> ->]; exact Hrun | | destruct Hcase as [-> ->]; exact Hrun].
  destruct Hcase as [_ Hc]. apply rotate_skip.
  apply list_find_Some in Hfind as (Hx & Hobj & _).
  rewrite Hc. unfold rotated_at. rewrite (drop_S _ _ _ Hx).
  rewrite indexOf_list_find. cbn [app list_find].
  by rewrite decide_True.
Qed.

Lemma rotate_twice_is_once_witness :
  _rotateBackendList
    (set_backendList 3%nat proxy_abc) backend_B
    (_rotateBackendList proxy_abc backend_B store_abc).2
  = (inr (set_backendList 3%nat proxy_abc),
     (_rotateBackendList proxy_abc backend_B store_abc).2).
Proof.
  apply (rotate_twice_is_once proxy_abc backend_B store_abc).
  vm_compute. reflexivity.
Defined.

(** X13. Rotating back restores the list: in a list of different
    objects, rotating to any backend of the list and then to the backend
    that was first gives back the entries in their first order. *)
Theorem rotate_back_restores this s b0 rest k b :
  backend_list s (_backendList this) (b0 :: rest) ->
  (b0 :: rest) !! k = Some b ->
  exists this1 s1 this2 s2,
    _rotateBackendList this b s = (inr this1, s1)
    /\ _rotateBackendList this1 b0 s1 = (inr this2, s2)
    /\ contents s2 (_backendList this2) = contents s (_backendList this).
Proof.
  intros Hbs Hb. set (bs := b0 :: rest) in *.
  pose proof (lookup_lt_Some _ _ _ Hb) as Hk.
  destruct (rotate_to_index this s bs k b Hbs Hb) as (this1 & s1 & Hrun1 & Hbs1 & _).
  set (j := if decide (k = 0)%nat then 0%nat else (length bs - k)%nat).
  assert ((drop k bs ++ take k bs) !! j = Some b0) as Hb0.
  { subst j. destruct (decide (k = 0%nat)) as [-> | Hne]; [done|].
    rewrite lookup_app_r by (rewrite length_drop; lia).
    rewrite length_drop, Nat.sub_diag. by destruct k. }
  destruct (rotate_to_index this1 s1 _ j b0 Hbs1 Hb0)
    as (this2 & s2 & Hrun2 & (Hc2 & _) & _).
  exists this1, s1, this2, s2. split; [done|]. split; [done|].
  rewrite Hc2. destruct Hbs as [-> _]. f_equal.
  subst j. destruct (decide (k = 0%nat)) as [-> | Hne].
  - cbn. by rewrite !app_nil_r.
  - replace (length bs - k)%nat with (length (drop k bs)) by (by rewrite length_drop).
    rewrite drop_app_length, take_app_length. apply take_drop.
Qed.

Lemma rotate_back_restores_witness :
  exists this1 s1 this2 s2,
    _rotateBackendList proxy_abc backend_C store_abc = (inr this1, s1)
    /\ _rotateBackendList this1 backend_A s1 = (inr this2, s2)
    /\ contents s2 (_backendList this2) = contents store_abc (_backendList proxy_abc).
Proof.
  apply (rotate_back_restores proxy_abc store_abc backend_A
           [backend_B; backend_C] 2 backend_C).
  - apply store_abc_backend_list.
  - reflexivity.
Defined.

(** X14. A rotation keeps the list well formed, whatever the target: a
    list with a backend in every slot, all different objects, is after
    [_rotateBackendList] such a list again, with the same backends. *)
Theorem rotate_keeps_backend_list this target s this' s' bs :
  _rotateBackendList this target s = (inr this', s') ->
  backend_list s (_backendList this) bs ->
  exists bs', backend_list s' (_backendList this') bs' /\ bs' ≡ₚ bs.
Proof.
  intros Hrun Hbs. pose proof Hbs as (Hc & _).
  destruct (rotate_cases this target s) as (this1 & s1 & Hrun1 & _ & Hcase).
  rewrite Hrun in Hrun1. simplify_eq.
  pose proof (rotate_next_oid _ _ _ _ _ Hrun) as Hnext.
  destruct (list_find _ _) as [[[|idx] x]|];
    [destruct Hcase as [-> ->]; by exists bs |
     | destruct Hcase as [-> ->]; by exists bs].
  destruct Hcase as [_ Hc']. exists (drop (S idx) bs ++ take (S idx) bs).
  assert (drop (S idx) bs ++ take (S idx) bs ≡ₚ bs) as Hperm
    by (rewrite Permutation_app_comm; by rewrite take_drop).
  split; [|done].
  eapply backend_list_permutation; [exact Hbs | done | | done].
  rewrite Hc', Hc. unfold rotated_at. by rewrite fmap_app, fmap_drop, fmap_take.
Qed.

(** The rotation of [[A; B; C]] to [B], a backend of the list. *)
Lemma rotate_keeps_backend_list_witness :
  exists bs',
    backend_list (_rotateBackendList proxy_abc backend_B store_abc).2
      (_backendList (set_backendList 3%nat proxy_abc)) bs'
    /\ bs' ≡ₚ [backend_A; backend_B; backend_C].
Proof.
  apply (rotate_keeps_backend_list proxy_abc backend_B store_abc
           (set_backendList 3%nat proxy_abc)
           (_rotateBackendList proxy_abc backend_B store_abc).2).
  - vm_compute. reflexivity.
  - apply store_abc_backend_list.
Defined.

(* ================================================================== *)
(** * Scanning arrays that have empty slots *)
(* ================================================================== *)

Lemma candidates_app (l1 l2 : list slot) :
  candidates (l1 ++ l2) = candidates l1 ++ candidates l2.
Proof. apply omap_app. Qed.

(** Empty slots add no candidate. *)
Lemma candidates_take_skip (l : list slot) p q :
  (p <= q)%nat ->
  (forall j, (p <= j < q)%nat -> mjoin (l !! j) = None) ->
  candidates (take q l) = candidates (take p l).
Proof.
  induction q as [|q IH]; intros Hpq Hskip.
  - by replace p with 0%nat by lia.
  - destruct (decide (p = S q)) as [-> | Hne]; [done|].
    rewrite <- IH by (lia || (intros; apply Hskip; lia)).
    pose proof (Hskip q ltac:(lia)) as Hq.
    destruct (l !! q) as [x|] eqn:Hx.
    + cbn in Hq. subst x. rewrite (take_S_r _ _ _ Hx), candidates_app. cbn.
      by rewrite app_nil_r.
    + apply lookup_ge_None_1 in Hx. by rewrite !take_ge by lia.
Qed.

Lemma candidates_take_all (l : list slot) p :
  (forall j, (p <= j)%nat -> mjoin (l !! j) = None) ->
  candidates (take p l) = candidates l.
Proof.
  intros Hskip. destruct (decide (p <= length l)%nat).
  - rewrite <- (candidates_take_skip l p (length l)) by (lia || (intros; apply Hskip; lia)).
    by rewrite firstn_all.
  - by rewrite take_ge by lia.
Qed.

Lemma candidates_take_S (l : list slot) i b :
  l !! i = Some (Some b) ->
  candidates (take (S i) l) = candidates (take i l) ++ [b].
Proof. intros Hb. by rewrite (take_S_r _ _ _ Hb), candidates_app. Qed.

(** The backend in slot [i] is the candidate numbered by the candidates
    before it. *)
Lemma candidates_lookup (l : list slot) i b :
  l !! i = Some (Some b) ->
  candidates l !! length (candidates (take i l)) = Some b
  /\ candidates (take (S i) l)
     = take (S (length (candidates (take i l)))) (candidates l).
Proof.
  intros Hb.
  assert (candidates l
          = (candidates (take i l) ++ [b]) ++ candidates (drop (S i) l)) as Hsplit.
  { rewrite <- (take_drop (S i) l) at 1.
    by rewrite candidates_app, (candidates_take_S _ _ _ Hb). }
  rewrite Hsplit, (candidates_take_S _ _ _ Hb). split.
  - rewrite lookup_app_l by (rewrite length_app; cbn; lia).
    by rewrite lookup_app_r, Nat.sub_diag.
  - replace (S (length (candidates (take i l))))
      with (length (candidates (take i l) ++ [b]))
      by (rewrite length_app; cbn; lia).
    by rewrite take_app_length.
Qed.

Section AnyArray.

Variable s : store.
Variable r : ref.
Variable l : list slot.
Hypothesis Hlist : contents s r = l.

Variable net : Connector.

(** [recursiveScan] at position [p]: it asks for the first backend from
    [p] on, or finds none. *)
Lemma recursiveScan_scanning p :
  (p <= length l)%nat ->
  (exists i b,
      (p <= i)%nat /\ l !! i = Some (Some b)
      /\ candidates (take i l) = candidates (take p l)
      /\ recursiveScan s (scanning r l p) = Some (waiting r l i b))
  \/ (candidates (take p l) = candidates l
      /\ recursiveScan s (scanning r l p) = Some (out_of_slots r l)).
Proof.
  intros Hp. destruct (recursiveScan_total s (scanning r l p)) as [st' Hrun].
  rewrite Hrun. apply recursiveScan_returns in Hrun.
  inversion Hrun as [q Hskip | i b Hi Hb Hskip]; cbn in *;
    rewrite Hlist in *.
  - right. pose proof (candidates_take_all l p Hskip) as Hall.
    split; [done|]. f_equal. subst q. rewrite Nat.max_r by lia.
    unfold out_of_slots, triggerCallback, set_callback, call_callback,
      set_scanPos, scanning. cbn. by rewrite Hall.
  - left. exists i, b.
    pose proof (candidates_take_skip l p i Hi Hskip) as Hsame.
    repeat split; try done. f_equal.
    unfold waiting, netSocketConnect, set_scanPos, scanning. cbn.
    by rewrite (candidates_take_S _ _ _ Hb), Hsame.
Qed.

Lemma deliver_waiting i b sock e :
  deliver s {| target := 0; socket := sock; err := e; final := true |}
    (waiting r l i b) =
  match connected (sock, e) with
  | Some h => Some (connected_at r l i b h)
  | None => recursiveScan s (scanning r l (S i))
  end.
Proof.
  unfold deliver. cbn [target final socket err].
  change (pending (waiting r l i b) !! 0%nat) with (Some b).
  change (set_pending (delete 0%nat (pending (waiting r l i b))) (waiting r l i b))
    with (scanning r l (S i)).
  cbv beta iota. rewrite on_connect_connected.
  by destruct (connected (sock, e)).
Qed.

Lemma drive_waiting gas i b :
  l !! i = Some (Some b) ->
  drive net (S gas) s (waiting r l i b) =
  match connected (net (length (candidates (take i l))) b) with
  | Some h => Some (connected_at r l i b h)
  | None =>
      match recursiveScan s (scanning r l (S i)) with
      | Some st' => drive net gas s st'
      | None => None
      end
  end.
Proof.
  intros Hb. cbn [drive waiting pending connects].
  rewrite (candidates_take_S _ _ _ Hb), length_app. cbn [length].
  replace (length (candidates (take i l)) + 1 - 1)%nat
    with (length (candidates (take i l))) by lia.
  destruct (net _ b) as [sock e].
  rewrite deliver_waiting.
  destruct (connected (sock, e)); [by destruct gas | done].
Qed.

(** Every attempt fails. *)
Lemma drive_waiting_all_fail gas : forall i b,
  l !! i = Some (Some b) ->
  (forall n b', candidates l !! n = Some b' -> connected (net n b') = None) ->
  (length l - i <= gas)%nat ->
  drive net gas s (waiting r l i b) = Some (out_of_slots r l).
Proof.
  induction gas as [|gas IH]; intros i b Hb Hfail Hgas.
  - apply lookup_lt_Some in Hb. lia.
  - rewrite drive_waiting by done.
    rewrite (Hfail _ b) by apply (candidates_lookup _ _ _ Hb).
    pose proof (lookup_lt_Some _ _ _ Hb) as Hi.
    destruct (recursiveScan_scanning (S i) ltac:(lia))
      as [(i' & b' & Hi' & Hb' & _ & ->) | [_ ->]].
    + apply IH; [done | done | lia].
    + by destruct gas.
Qed.

(** The attempts fail until candidate [k] connects. *)
Lemma drive_waiting_first_success gas k bk h : forall i b,
  l !! i = Some (Some b) ->
  (length (candidates (take i l)) <= k)%nat ->
  candidates l !! k = Some bk ->
  connected (net k bk) = Some h ->
  (forall n b', (n < k)%nat -> candidates l !! n = Some b' ->
                connected (net n b') = None) ->
  (length l - i <= gas)%nat ->
  exists st,
    drive net gas s (waiting r l i b) = Some st
    /\ connects st = take (S k) (candidates l)
    /\ pending st = []
    /\ delivered st = [(Some {| handle := h; _backend := Some bk |}, None)].
Proof.
  induction gas as [|gas IH]; intros i b Hb Hik Hbk Hok Hfail Hgas.
  - apply lookup_lt_Some in Hb. lia.
  - rewrite drive_waiting by done.
    destruct (candidates_lookup _ _ _ Hb) as [Hcand Htake].
    destruct (decide (length (candidates (take i l)) = k)) as [Heq | Hne].
    + rewrite Heq in *. simplify_eq. rewrite Hok.
      eexists. split; [done|]. cbn. by rewrite Htake.
    + rewrite (Hfail _ b) by (done || lia).
      pose proof (lookup_lt_Some _ _ _ Hb) as Hi.
      destruct (recursiveScan_scanning (S i) ltac:(lia))
        as [(i' & b' & Hi' & Hb' & Hsame & ->) | [Hall _]].
      * apply IH; try done; [|lia].
        rewrite Hsame, (candidates_take_S _ _ _ Hb), length_app. cbn. lia.
      * apply lookup_lt_Some in Hbk.
        rewrite <- Hall, (candidates_take_S _ _ _ Hb), length_app in Hbk.
        cbn in Hbk. lia.
Qed.

End AnyArray.

Lemma probe_pair net backendArr s :
  probe net backendArr s =
  (inr (match recursiveScan (after_snapshot s backendArr)
                (initial true (snapshot_ref s)) with
        | Some st =>
            drive net
              (S (length (contents (after_snapshot s backendArr) (scanList st))))
              (after_snapshot s backendArr) st
        | None => None
        end), after_snapshot s backendArr).
Proof. reflexivity. Qed.

Lemma probe_run_all_fail net backendArr s :
  (forall n b, candidates (contents s backendArr) !! n = Some b ->
               connected (net n b) = None) ->
  probe net backendArr s =
  (inr (Some (out_of_slots (snapshot_ref s) (contents s backendArr))),
   after_snapshot s backendArr).
Proof.
  intros Hfail. set (l := contents s backendArr) in *.
  set (s1 := after_snapshot s backendArr). set (r1 := snapshot_ref s).
  assert (contents s1 r1 = l) as Hl by apply contents_snapshot.
  rewrite probe_pair. fold s1 r1. do 2 f_equal.
  change (initial true r1) with (scanning r1 l 0).
  destruct (recursiveScan_scanning s1 r1 l Hl 0 ltac:(lia))
    as [(i & b & _ & Hb & _ & ->) | [_ ->]]; [|done].
  cbn [scanList waiting]. rewrite Hl.
  rewrite (drive_waiting_all_fail s1 r1 l Hl net); try done. lia.
Qed.

(** X15. Empty slots are skipped without an attempt.  When every
    attempt fails, the probe of any array asks for one connection to
    each backend the array holds, in order, and for nothing else; the
    number of tries it reports counts the empty slots too, and one
    more. *)
Theorem probe_skips_empty_slots net backendArr s :
  (forall n b, candidates (contents s backendArr) !! n = Some b ->
               connected (net n b) = None) ->
  exists st msg,
    fst (probe net backendArr s) = inr (Some st)
    /\ connects st = candidates (contents s backendArr)
    /\ pending st = []
    /\ delivered st = [(None, Some msg)]
    /\ reported_tries msg = Num (Z.of_nat (length (contents s backendArr)) + 1).
Proof.
  intros Hfail. rewrite (probe_run_all_fail _ _ _ Hfail).
  eexists _, _. repeat split.
  rewrite reported_tries_exhausted_message. f_equal. lia.
Qed.

Lemma probe_skips_empty_slots_witness :
  exists st msg,
    fst (probe all_down 0%nat store_sparse) = inr (Some st)
    /\ connects st = [backend_A; backend_B]
    /\ pending st = []
    /\ delivered st = [(None, Some msg)]
    /\ reported_tries msg = Num 6.
Proof.
  apply (probe_skips_empty_slots all_down 0%nat store_sparse).
  intros n b _. reflexivity.
Defined.

Lemma probe_run_first_reachable net backendArr s k b h :
  candidates (contents s backendArr) !! k = Some b ->
  connected (net k b) = Some h ->
  (forall n b', (n < k)%nat -> candidates (contents s backendArr) !! n = Some b' ->
                connected (net n b') = None) ->
  exists st,
    probe net backendArr s = (inr (Some st), after_snapshot s backendArr)
    /\ connects st = take (S k) (candidates (contents s backendArr))
    /\ pending st = []
    /\ delivered st = [(Some {| handle := h; _backend := Some b |}, None)].
Proof.
  intros Hb Hok Hfail. set (l := contents s backendArr) in *.
  set (s1 := after_snapshot s backendArr). set (r1 := snapshot_ref s).
  assert (contents s1 r1 = l) as Hl by apply contents_snapshot.
  rewrite probe_pair. fold s1 r1.
  change (initial true r1) with (scanning r1 l 0).
  destruct (recursiveScan_scanning s1 r1 l Hl 0 ltac:(lia))
    as [(i & b0 & _ & Hb0 & Hsame & ->) | [Hall _]].
  - cbn [scanList waiting]. rewrite Hl.
    destruct (drive_waiting_first_success s1 r1 l Hl net (S (length l)) k b h i b0)
      as (st & -> & Hst); try done; [|lia|by exists st].
    rewrite Hsame. change (candidates (take 0 l)) with (@nil Backend). cbn. lia.
  - apply lookup_lt_Some in Hb. rewrite <- Hall in Hb.
    change (candidates (take 0 l)) with (@nil Backend) in Hb. cbn in Hb. lia.
Qed.

(** X16. In any array, the probe stops at the first backend that
    connects: when the [k]-th backend the array holds is the first the
    connector reaches, exactly the [k + 1] first backends are tried, in
    order, empty slots aside, and the callback gets the socket of that
    backend, tagged with it. *)
Theorem probe_any_array_first_reachable net backendArr s k b h :
  candidates (contents s backendArr) !! k = Some b ->
  connected (net k b) = Some h ->
  (forall n b', (n < k)%nat -> candidates (contents s backendArr) !! n = Some b' ->
                connected (net n b') = None) ->
  exists st,
    fst (probe net backendArr s) = inr (Some st)
    /\ connects st = take (S k) (candidates (contents s backendArr))
    /\ length (connects st) = S k
    /\ pending st = []
    /\ delivered st = [(Some {| handle := h; _backend := Some b |}, None)].
Proof.
  intros Hb Hok Hfail.
  destruct (probe_run_first_reachable _ _ _ _ _ _ Hb Hok Hfail)
    as (st & -> & Hconnects & Hpending & Hdelivered).
  exists st. repeat split; try done.
  rewrite Hconnects, length_take. apply lookup_lt_Some in Hb. lia.
Qed.

Lemma probe_any_array_first_reachable_witness :
  exists st,
    fst (probe only_a_down 0%nat store_sparse) = inr (Some st)
    /\ connects st = [backend_A; backend_B]
    /\ length (connects st) = 2%nat
    /\ pending st = []
    /\ delivered st = [(Some {| handle := 101; _backend := Some backend_B |}, None)].
Proof.
  apply (probe_any_array_first_reachable only_a_down 0%nat store_sparse 1
           backend_B 101).
  - reflexivity.
  - reflexivity.
  - intros n b' Hn Hb'. assert (n = 0%nat) as -> by lia.
    vm_compute in Hb'. by injection Hb' as <-.
Defined.

(* ================================================================== *)
(** * One attempt at a time *)
(* ================================================================== *)

Lemma scan_returns_one_in_flight s st st' :
  scan_returns s st st' ->
  callback st = true -> pending st = [] -> delivered st = [] ->
  one_in_flight st' /\ (length (connects st') <= S (length (connects st)))%nat.
Proof.
  intros [p _ | i b _ _ _] Hcb Hpend Hdel; unfold one_in_flight.
  - unfold triggerCallback. cbn. rewrite Hcb. cbn. rewrite Hpend, Hdel.
    split; [by right | lia].
  - cbn. rewrite Hcb, Hpend, Hdel. cbn.
    split; [by left | rewrite length_app; cbn; lia].
Qed.

Lemma deliver_one_in_flight s a st st' :
  final a = true ->
  deliver s a st = Some st' -> one_in_flight st ->
  one_in_flight st'
  /\ (length (connects st') <= S (length (connects st)))%nat
  /\ (callback st = false -> st' = st).
Proof.
  intros Hfinal Hrun Hst. unfold deliver in Hrun. rewrite Hfinal in Hrun.
  destruct Hst as [(Hcb & Hpend & Hdel) | (Hcb & Hpend & Hdel)].
  - destruct (pending st) as [|b [|? ?]] eqn:Hp; try done.
    destruct (target a) as [|n]; cbn in Hrun;
      [|injection Hrun as <-;
        split; [left; by rewrite Hp | split; [lia | congruence]]].
    rewrite on_connect_connected in Hrun.
    destruct (connected _) as [h|].
    + simplify_eq. unfold one_in_flight, triggerCallback. cbn.
      rewrite Hcb. cbn. rewrite Hdel.
      split; [by right | split; [lia | congruence]].
    + apply recursiveScan_returns in Hrun.
      apply scan_returns_one_in_flight in Hrun as [? ?]; try done.
      split; [done | split; [done | congruence]].
  - rewrite Hpend in Hrun. cbn in Hrun. injection Hrun as <-.
    split; [by right | split; [lia | done]].
Qed.

Lemma deliver_all_one_in_flight s answers : forall st st',
  Forall (fun a => final a = true) answers ->
  deliver_all s answers st = Some st' -> one_in_flight st ->
  one_in_flight st'
  /\ (length (connects st') <= length answers + length (connects st))%nat.
Proof.
  induction answers as [|a answers IH]; intros st st' Hfinal Hrun Hst.
  - cbn in Hrun. simplify_eq. split; [done | cbn; lia].
  - apply Forall_cons in Hfinal as [Ha Hfinal]. cbn in Hrun.
    destruct (deliver s a st) as [st1|] eqn:Hstep; [|done].
    destruct (deliver_one_in_flight _ _ _ _ Ha Hstep Hst) as (Hst1 & Hlen1 & _).
    destruct (IH _ _ Hfinal Hrun Hst1) as [? ?]. split; [done | cbn; lia].
Qed.

(** X17. One attempt at a time.  When the connector answers each attempt
    once, then after any number of answers at most one attempt is
    pending and the attempts made are at most one more than the answers
    received; and once the callback has been called nothing is pending
    and further answers change nothing. *)
Theorem scan_is_single_flight backendArr s answers :
  Forall (fun a => final a = true) answers ->
  exists st0 st,
    fst (scanAndConnectToValidBackend backendArr true s) = inr (Some st0)
    /\ deliver_all (after_snapshot s backendArr) answers st0 = Some st
    /\ (length (pending st) <= 1)%nat
    /\ (length (connects st) <= S (length answers))%nat
    /\ (callback st = false ->
        pending st = []
        /\ forall a, final a = true ->
             deliver (after_snapshot s backendArr) a st = Some st).
Proof.
  intros Hfinal. set (s1 := after_snapshot s backendArr).
  destruct (recursiveScan_total s1 (initial true (snapshot_ref s))) as [st0 Hstart].
  destruct (scan_returns_one_in_flight _ _ _ (recursiveScan_returns _ _ _ Hstart))
    as [Hst0 Hlen0]; try done.
  destruct (deliver_all_total s1 answers st0) as [st Hrun].
  destruct (deliver_all_one_in_flight _ _ _ _ Hfinal Hrun Hst0) as [Hst Hlen].
  exists st0, st. rewrite scanAndConnectToValidBackend_unfold. fold s1.
  rewrite Hstart. split; [done|]. split; [done|]. split; [|split].
  - destruct Hst as [(_ & -> & _) | (_ & -> & _)]; cbn; lia.
  - cbn in Hlen0. lia.
  - intros Hcb. destruct Hst as [(? & _) | (_ & Hpend & _)]; [congruence|].
    split; [done|]. intros a Ha. unfold deliver. by rewrite Hpend.
Qed.

Lemma scan_is_single_flight_witness :
  exists st0 st,
    fst (scanAndConnectToValidBackend 0%nat true store_abc) = inr (Some st0)
    /\ deliver_all (after_snapshot store_abc 0%nat)
         [{| target := 0; socket := None; err := Some "ETIMEDOUT"; final := true |};
          {| target := 0; socket := Some 7%nat; err := None; final := true |}] st0
       = Some st
    /\ (length (pending st) <= 1)%nat
    /\ (length (connects st) <= 3)%nat
    /\ (callback st = false ->
        pending st = []
        /\ forall a, final a = true ->
             deliver (after_snapshot store_abc 0%nat) a st = Some st).
Proof.
  apply (scan_is_single_flight 0%nat store_abc
           [{| target := 0; socket := None; err := Some "ETIMEDOUT"; final := true |};
            {| target := 0; socket := Some 7%nat; err := None; final := true |}]).
  repeat constructor.
Defined.

(* ================================================================== *)
(** * Handling a connection, priming the list *)
(* ================================================================== *)

Lemma candidates_fmap_Some (bs : list Backend) : candidates (Some <$> bs) = bs.
Proof. induction bs as [|b bs IH]; [done|]. cbn. by f_equal. Qed.

(** The snapshot of a list leaves the list as it is. *)
Lemma contents_after_snapshot s r :
  contents (after_snapshot s r) r = contents s r.
Proof.
  destruct (decide (r = snapshot_ref s)) as [Heq | Hne].
  - transitivity (contents (after_snapshot s r) (snapshot_ref s));
      [by rewrite <- Heq | apply contents_snapshot].
  - unfold contents, after_snapshot. cbn. by rewrite lookup_insert_ne.
Qed.

Lemma backend_list_after_snapshot s r bs :
  backend_list s r bs -> backend_list (after_snapshot s r) r bs.
Proof.
  intros (Hc & Hnodup & Hold). split; [|done].
  by rewrite contents_after_snapshot.
Qed.

(** A probe against a connector that answers comes to rest with one
    call of its callback. *)
Lemma probe_settles net backendArr s :
  exists st args,
    probe net backendArr s = (inr (Some st), after_snapshot s backendArr)
    /\ pending st = [] /\ delivered st = [args].
Proof.
  set (s1 := after_snapshot s backendArr).
  set (st_init := initial true (snapshot_ref s)).
  destruct (recursiveScan_total s1 st_init) as [st0 Hstart].
  pose proof (recursiveScan_returns _ _ _ Hstart) as Hret.
  assert (settled st0) as Hsettled by (by eapply scan_returns_settled).
  destruct (drive_settles s1 net (S (length (contents s1 (scanList st0)))) st0 Hsettled)
    as (st & Hdrive & Hpend & Hst).
  { etrans; [by eapply scan_returns_work_left|].
    rewrite (scan_returns_scanList _ _ _ Hret). unfold work_left. cbn. lia. }
  unfold settled in Hst. destruct (callback st); [by destruct Hst|].
  destruct (delivered st) as [|args [|? ?]] eqn:Hdel; try done.
  exists st, args. rewrite probe_pair. fold s1 st_init.
  by rewrite Hstart, Hdrive.
Qed.

(** X18. Handling a connection routes it to the first backend that is
    reached and makes that backend the preferred one: when the first
    backend of the list the connector reaches is at index [k],
    [_requestHandler] pipes the inbound socket with the socket of that
    backend, once, and leaves the proxy with the list
    [list[k..end) ++ list[0..k)], whose first entry is that backend. *)
Theorem request_routes_to_first_reachable net inbound this s bs k b h :
  backend_list s (_backendList this) bs ->
  bs !! k = Some b ->
  connected (net k b) = Some h ->
  (forall i b', (i < k)%nat -> bs !! i = Some b' -> connected (net i b') = None) ->
  exists this' s',
    _requestHandler net inbound this s
    = (inr (Some (this', [(inbound, {| handle := h; _backend := Some b |})])), s')
    /\ backend_list s' (_backendList this') (drop k bs ++ take k bs)
    /\ head (drop k bs ++ take k bs) = Some b.
Proof.
  intros Hbs Hb Hok Hfail. pose proof Hbs as (Hc & _).
  destruct (probe_run_first_reachable net (_backendList this) s k b h)
    as (st & Hprobe & _ & _ & Hdel).
  { by rewrite Hc, candidates_fmap_Some. }
  { done. }
  { intros n b'. rewrite Hc, candidates_fmap_Some. apply Hfail. }
  destruct (rotate_to_index this (after_snapshot s (_backendList this)) bs k b)
    as (this' & s' & Hrot & Hbs' & _);
    [by apply backend_list_after_snapshot | done |].
  exists this', s'. split; [|split; [done|]].
  - unfold _requestHandler. unfold bind at 1. rewrite Hprobe, Hdel.
    cbn [call_each]. unfold bind at 1. unfold bind at 1.
    unfold request_callback at 1. cbn [fst].
    unfold bind at 1, rotate_to_backend_of. cbn [_backend]. by rewrite Hrot.
  - by rewrite (drop_S _ _ _ Hb).
Qed.

Lemma request_routes_to_first_reachable_witness :
  exists this' s',
    _requestHandler only_a_down 9%nat proxy_abc store_abc
    = (inr (Some (this', [(9%nat, {| handle := 101; _backend := Some backend_B |})])),
       s')
    /\ backend_list s' (_backendList this')
         (drop 1 [backend_A; backend_B; backend_C]
          ++ take 1 [backend_A; backend_B; backend_C])
    /\ head (drop 1 [backend_A; backend_B; backend_C]
             ++ take 1 [backend_A; backend_B; backend_C]) = Some backend_B.
Proof.
  apply (request_routes_to_first_reachable only_a_down 9%nat proxy_abc store_abc
           [backend_A; backend_B; backend_C] 1 backend_B 101).
  - apply store_abc_backend_list.
  - reflexivity.
  - reflexivity.
  - intros i b' Hi Hb'. assert (i = 0%nat) as -> by lia.
    cbn in Hb'. by injection Hb' as <-.
Defined.

(** X19. When no backend of the list can be reached, [_requestHandler]
    pipes nothing and rotates nothing: the instance is the same and its
    list holds the same entries in the same order. *)
Theorem request_without_backend net inbound this s :
  (forall n b, candidates (contents s (_backendList this)) !! n = Some b ->
               connected (net n b) = None) ->
  exists s',
    _requestHandler net inbound this s = (inr (Some (this, [])), s')
    /\ contents s' (_backendList this) = contents s (_backendList this)
    /\ next_oid s' = next_oid s.
Proof.
  intros Hfail. exists (after_snapshot s (_backendList this)).
  split; [|split; [apply contents_after_snapshot | done]].
  unfold _requestHandler. unfold bind at 1.
  by rewrite (probe_run_all_fail _ _ _ Hfail).
Qed.

Lemma request_without_backend_witness :
  exists s',
    _requestHandler all_down 9%nat proxy_abc store_abc = (inr (Some (proxy_abc, [])), s')
    /\ contents s' (_backendList proxy_abc) = contents store_abc (_backendList proxy_abc)
    /\ next_oid s' = next_oid store_abc.
Proof.
  apply (request_without_backend all_down 9%nat proxy_abc store_abc).
  intros n b _. reflexivity.
Defined.

(** X20. Priming always goes on to the continuation: whatever the
    connector answers and whatever the list holds,
    [_setupBackendRoute] ends with its continuation called exactly once,
    and with a list that is a permutation of the one it started with. *)
Theorem priming_continues_once net this s :
  exists this' s',
    _setupBackendRoute net true this s = (inr (Some (this', 1%nat)), s')
    /\ contents s' (_backendList this') ≡ₚ contents s (_backendList this).
Proof.
  destruct (probe_settles net (_backendList this) s)
    as (st & [sock e] & Hprobe & _ & Hdel).
  unfold _setupBackendRoute. unfold bind at 1. rewrite Hprobe, Hdel.
  cbn [call_each]. unfold bind at 1. unfold bind at 1.
  unfold setup_callback at 1. cbn [fst]. unfold bind at 1.
  set (s1 := after_snapshot s (_backendList this)).
  assert (contents s1 (_backendList this) = contents s (_backendList this))
    as Hsame by apply contents_after_snapshot.
  destruct sock as [[h [b|]]|]; unfold rotate_to_backend_of; cbn [_backend].
  - destruct (rotate_cases this b s1) as (this' & s' & Hrun & _).
    rewrite Hrun. exists this', s'. split; [done|].
    rewrite <- Hsame. by eapply rotate_permutation.
  - exists this, s1. split; [done | by rewrite Hsame].
  - exists this, s1. split; [done | by rewrite Hsame].
Qed.

(** X21. Without a server too, [close()] throws: on a proxy that holds
    no server, where the global object has no [callback], the test
    [if( callback )] raises the [ReferenceError], and nothing
    changes. *)
Theorem close_without_server_throws this w :
  _server this = None ->
  globalThis w !! "callback" = None ->
  close this w = (inl (ReferenceError "callback"), this, w).
Proof.
  intros Hsrv Hglobal. unfold close, resolve_global. by rewrite Hsrv, Hglobal.
Qed.

Lemma close_without_server_throws_witness :
  close readme_proxy plain_world
  = (inl (ReferenceError "callback"), readme_proxy, plain_world).
Proof.
  apply (close_without_server_throws readme_proxy plain_world); reflexivity.
Defined.

(** The run of [_requestHandler] when the probe reaches a backend. *)
Lemma request_run net inbound this s k b h this' s' :
  candidates (contents s (_backendList this)) !! k = Some b ->
  connected (net k b) = Some h ->
  (forall n b', (n < k)%nat ->
     candidates (contents s (_backendList this)) !! n = Some b' ->
     connected (net n b') = None) ->
  _rotateBackendList this b (after_snapshot s (_backendList this)) = (inr this', s') ->
  _requestHandler net inbound this s
  = (inr (Some (this', [(inbound, {| handle := h; _backend := Some b |})])), s').
Proof.
  intros Hb Hok Hfail Hrot.
  destruct (probe_run_first_reachable net (_backendList this) s k b h Hb Hok Hfail)
    as (st & Hprobe & _ & _ & Hdel).
  unfold _requestHandler. unfold bind at 1. rewrite Hprobe, Hdel.
  cbn [call_each]. unfold bind at 1. unfold bind at 1.
  unfold request_callback at 1. cbn [fst].
  unfold bind at 1, rotate_to_backend_of. cbn [_backend]. by rewrite Hrot.
Qed.

(** X22. The preference sticks: after a connection was routed to the
    first backend that answers, the next connection, under the same
    reachability, probes that backend first, is routed to it by its
    first attempt, and leaves the instance and its list as they are. *)
Theorem next_request_prefers_last_good up i1 i2 this s bs k b h :
  backend_list s (_backendList this) bs ->
  bs !! k = Some b ->
  connected (up b) = Some h ->
  (forall i b', (i < k)%nat -> bs !! i = Some b' -> connected (up b') = None) ->
  let remote := {| handle := h; _backend := Some b |} in
  exists this1 s1 s2 st,
    _requestHandler (fun _ => up) i1 this s = (inr (Some (this1, [(i1, remote)])), s1)
    /\ probe (fun _ => up) (_backendList this1) s1 = (inr (Some st), s2)
    /\ connects st = [b]
    /\ _requestHandler (fun _ => up) i2 this1 s1 = (inr (Some (this1, [(i2, remote)])), s2)
    /\ contents s2 (_backendList this1) = contents s1 (_backendList this1).
Proof.
  intros Hbs Hb Hok Hfail remote. pose proof Hbs as (Hc & _).
  destruct (rotate_to_index this (after_snapshot s (_backendList this)) bs k b)
    as (this1 & s1 & Hrot & Hbs1 & _);
    [by apply backend_list_after_snapshot | done |].
  pose proof Hbs1 as (Hc1 & Hnodup1 & _).
  assert ((drop k bs ++ take k bs) !! 0%nat = Some b) as Hfirst
    by (by rewrite (drop_S _ _ _ Hb)).
  assert (candidates (contents s1 (_backendList this1)) !! 0%nat = Some b) as Hcand
    by (by rewrite Hc1, candidates_fmap_Some).
  destruct (probe_run_first_reachable (fun _ => up) (_backendList this1) s1 0 b h)
    as (st & Hprobe & Hconn & _); [done | done | intros; lia |].
  exists this1, s1, (after_snapshot s1 (_backendList this1)), st.
  split; [|split; [done|split; [|split]]].
  - apply (request_run _ _ _ _ k b h); [| done | | done].
    + by rewrite Hc, candidates_fmap_Some.
    + intros n b'. rewrite Hc, candidates_fmap_Some. apply Hfail.
  - rewrite Hconn. by rewrite (take_S_r _ _ _ Hcand).
  - apply (request_run _ _ _ _ 0%nat b h); [done | done | intros; lia |].
    destruct (rotate_cases this1 b (after_snapshot s1 (_backendList this1)))
      as (this2 & s2 & Hrun & _ & Hcase).
    rewrite contents_after_snapshot, Hc1 in Hcase.
    rewrite (list_find_backend _ 0 b Hnodup1 Hfirst) in Hcase.
    destruct Hcase as [-> ->]. exact Hrun.
  - apply contents_after_snapshot.
Qed.

Lemma next_request_prefers_last_good_witness :
  let remote := {| handle := 101; _backend := Some backend_B |} in
  exists this1 s1 s2 st,
    _requestHandler (fun _ => only_a_down 0%nat) 8%nat proxy_abc store_abc
    = (inr (Some (this1, [(8%nat, remote)])), s1)
    /\ probe (fun _ => only_a_down 0%nat) (_backendList this1) s1 = (inr (Some st), s2)
    /\ connects st = [backend_B]
    /\ _requestHandler (fun _ => only_a_down 0%nat) 9%nat this1 s1
       = (inr (Some (this1, [(9%nat, remote)])), s2)
    /\ contents s2 (_backendList this1) = contents s1 (_backendList this1).
Proof.
  apply (next_request_prefers_last_good (only_a_down 0%nat) 8%nat 9%nat
           proxy_abc store_abc [backend_A; backend_B; backend_C] 1 backend_B 101).
  - apply store_abc_backend_list.
  - reflexivity.
  - reflexivity.
  - intros i b' Hi Hb'. assert (i = 0%nat) as -> by lia.
    cbn in Hb'. by injection Hb' as <-.
Defined.
